(** * DistributedFileStorageGo: a shallow embedding of the store, the stream
    cipher codec, the TCP transport loop and the file server.

    Go values are modelled as follows.  A [string] is a Rocq [string] (a
    sequence of bytes), a [[]byte] is a [list Z] of values in [0, 256), an
    [int] or [int64] is a [Z].  Interfaces ([io.Reader], [io.Writer]) are type
    classes over an explicit state, loops over readers carry fuel, and the
    operating system (files, sockets, randomness) is explicit state that the
    operations thread through. *)

From Stdlib Require Import ZArith List String Ascii Bool Lia.
From stdpp Require Import base option list gmap strings fin_maps.
Import ListNotations.

Local Open Scope string_scope.
Local Open Scope list_scope.
Local Open Scope Z_scope.

(** ** Byte strings *)

Abbreviation bytes := (list Z).

Definition byte_of_ascii (c : ascii) : Z := Z.of_N (N_of_ascii c).

(** [[]byte(s)] *)
Fixpoint bytes_of_string (s : string) : bytes :=
  match s with
  | EmptyString => []
  | String c rest => byte_of_ascii c :: bytes_of_string rest
  end.

Definition is_byte (b : Z) : Prop := 0 <= b < 256.

(** ** encoding/hex *)

Module hex.

Definition hextable : list ascii :=
  ["0"; "1"; "2"; "3"; "4"; "5"; "6"; "7";
   "8"; "9"; "a"; "b"; "c"; "d"; "e"; "f"]%char.

Definition digit (n : Z) : ascii := nth (Z.to_nat n) hextable "0"%char.

(** [hex.EncodeToString]: two characters per byte, [hextable[v>>4]] then
    [hextable[v&0x0f]]. *)
Fixpoint EncodeToString (src : bytes) : string :=
  match src with
  | [] => EmptyString
  | v :: rest =>
      String (digit (Z.shiftr v 4))
        (String (digit (Z.land v 15)) (EncodeToString rest))
  end.

End hex.

(** ** 32-bit words held in [Z] *)

Definition mask32 : Z := 0xFFFFFFFF.
Definition add32 (x y : Z) : Z := Z.land (x + y) mask32.
Definition rotl32 (n x : Z) : Z :=
  Z.land (Z.lor (Z.shiftl x n) (Z.shiftr x (32 - n))) mask32.
Definition not32 (x : Z) : Z := Z.lxor x mask32.

(** ** crypto/sha1 (FIPS 180-4) *)

Module sha1.

(** Big-endian bytes of a 32-bit word and of a 64-bit length. *)
Definition word_bytes (w : Z) : bytes :=
  [Z.land (Z.shiftr w 24) 255; Z.land (Z.shiftr w 16) 255;
   Z.land (Z.shiftr w 8) 255; Z.land w 255].

Definition len64_bytes (n : Z) : bytes :=
  word_bytes (Z.shiftr n 32) ++ word_bytes (Z.land n mask32).

Definition be32 (b0 b1 b2 b3 : Z) : Z :=
  Z.lor (Z.shiftl b0 24) (Z.lor (Z.shiftl b1 16) (Z.lor (Z.shiftl b2 8) b3)).

(** Padding: a 0x80 byte, zeros up to 56 mod 64, the bit length. *)
Definition pad (msg : bytes) : bytes :=
  let n := Z.of_nat (length msg) in
  let k := Z.to_nat ((55 - n) mod 64) in
  msg ++ [128] ++ repeat 0 k ++ len64_bytes (8 * n).

Fixpoint words (fuel : nat) (bs : bytes) : list Z :=
  match fuel, bs with
  | S fuel', b0 :: b1 :: b2 :: b3 :: rest => be32 b0 b1 b2 b3 :: words fuel' rest
  | _, _ => []
  end.

Fixpoint blocks (fuel : nat) (ws : list Z) : list (list Z) :=
  match fuel, ws with
  | S fuel', _ :: _ => firstn 16 ws :: blocks fuel' (skipn 16 ws)
  | _, _ => []
  end.

(** The message schedule, most recent word first. *)
Fixpoint schedule (n : nat) (wrev : list Z) : list Z :=
  match n with
  | O => wrev
  | S n' =>
      let w := rotl32 1 (Z.lxor (Z.lxor (nth 2 wrev 0) (nth 7 wrev 0))
                                (Z.lxor (nth 13 wrev 0) (nth 15 wrev 0))) in
      schedule n' (w :: wrev)
  end.

Definition state : Type := Z * Z * Z * Z * Z.

Definition f (t : nat) (b c d : Z) : Z :=
  if (t <? 20)%nat then Z.lor (Z.land b c) (Z.land (not32 b) d)
  else if (t <? 40)%nat then Z.lxor (Z.lxor b c) d
  else if (t <? 60)%nat then
    Z.lor (Z.lor (Z.land b c) (Z.land b d)) (Z.land c d)
  else Z.lxor (Z.lxor b c) d.

Definition K (t : nat) : Z :=
  if (t <? 20)%nat then 0x5A827999
  else if (t <? 40)%nat then 0x6ED9EBA1
  else if (t <? 60)%nat then 0x8F1BBCDC
  else 0xCA62C1D6.

Definition round (st : state) (tw : nat * Z) : state :=
  let '(a, b, c, d, e) := st in
  let '(t, w) := tw in
  let temp := add32 (add32 (add32 (add32 (rotl32 5 a) (f t b c d)) e) (K t)) w in
  (temp, a, rotl32 30 b, c, d).

Definition compress (h : state) (block : list Z) : state :=
  let w := rev (schedule 64 (rev block)) in
  let '(a, b, c, d, e) := fold_left round (combine (seq 0 80) w) h in
  let '(h0, h1, h2, h3, h4) := h in
  (add32 h0 a, add32 h1 b, add32 h2 c, add32 h3 d, add32 h4 e).

Definition init : state :=
  (0x67452301, 0xEFCDAB89, 0x98BADCFE, 0x10325476, 0xC3D2E1F0).

Definition digest (msg : bytes) : state :=
  let p := pad msg in
  let ws := words (length p) p in
  fold_left compress (blocks (length ws) ws) init.

(** [sha1.Sum]: the 20-byte digest. *)
Definition Sum (msg : bytes) : bytes :=
  let '(h0, h1, h2, h3, h4) := digest msg in
  word_bytes h0 ++ word_bytes h1 ++ word_bytes h2 ++ word_bytes h3 ++ word_bytes h4.

End sha1.

(** ** crypto/md5 (RFC 1321) *)

Module md5.

Definition shifts : list Z :=
  [7; 12; 17; 22; 7; 12; 17; 22; 7; 12; 17; 22; 7; 12; 17; 22;
   5; 9; 14; 20; 5; 9; 14; 20; 5; 9; 14; 20; 5; 9; 14; 20;
   4; 11; 16; 23; 4; 11; 16; 23; 4; 11; 16; 23; 4; 11; 16; 23;
   6; 10; 15; 21; 6; 10; 15; 21; 6; 10; 15; 21; 6; 10; 15; 21].

(** [floor(2^32 * abs(sin(i + 1)))] *)
Definition K : list Z :=
  [
   0xd76aa478; 0xe8c7b756; 0x242070db; 0xc1bdceee;
   0xf57c0faf; 0x4787c62a; 0xa8304613; 0xfd469501;
   0x698098d8; 0x8b44f7af; 0xffff5bb1; 0x895cd7be;
   0x6b901122; 0xfd987193; 0xa679438e; 0x49b40821;
   0xf61e2562; 0xc040b340; 0x265e5a51; 0xe9b6c7aa;
   0xd62f105d; 0x02441453; 0xd8a1e681; 0xe7d3fbc8;
   0x21e1cde6; 0xc33707d6; 0xf4d50d87; 0x455a14ed;
   0xa9e3e905; 0xfcefa3f8; 0x676f02d9; 0x8d2a4c8a;
   0xfffa3942; 0x8771f681; 0x6d9d6122; 0xfde5380c;
   0xa4beea44; 0x4bdecfa9; 0xf6bb4b60; 0xbebfbc70;
   0x289b7ec6; 0xeaa127fa; 0xd4ef3085; 0x04881d05;
   0xd9d4d039; 0xe6db99e5; 0x1fa27cf8; 0xc4ac5665;
   0xf4292244; 0x432aff97; 0xab9423a7; 0xfc93a039;
   0x655b59c3; 0x8f0ccc92; 0xffeff47d; 0x85845dd1;
   0x6fa87e4f; 0xfe2ce6e0; 0xa3014314; 0x4e0811a1;
   0xf7537e82; 0xbd3af235; 0x2ad7d2bb; 0xeb86d391].

(** Little-endian bytes of a 32-bit word and of a 64-bit length. *)
Definition word_bytes (w : Z) : bytes :=
  [Z.land w 255; Z.land (Z.shiftr w 8) 255;
   Z.land (Z.shiftr w 16) 255; Z.land (Z.shiftr w 24) 255].

Definition len64_bytes (n : Z) : bytes :=
  word_bytes (Z.land n mask32) ++ word_bytes (Z.shiftr n 32).

Definition le32 (b0 b1 b2 b3 : Z) : Z :=
  Z.lor b0 (Z.lor (Z.shiftl b1 8) (Z.lor (Z.shiftl b2 16) (Z.shiftl b3 24))).

Definition pad (msg : bytes) : bytes :=
  let n := Z.of_nat (length msg) in
  let k := Z.to_nat ((55 - n) mod 64) in
  msg ++ [128] ++ repeat 0 k ++ len64_bytes (8 * n).

Fixpoint words (fuel : nat) (bs : bytes) : list Z :=
  match fuel, bs with
  | S fuel', b0 :: b1 :: b2 :: b3 :: rest => le32 b0 b1 b2 b3 :: words fuel' rest
  | _, _ => []
  end.

Definition state : Type := Z * Z * Z * Z.

Definition round (m : list Z) (st : state) (i : nat) : state :=
  let '(a, b, c, d) := st in
  let '(f, g) :=
    if (i <? 16)%nat then (Z.lor (Z.land b c) (Z.land (not32 b) d), i)
    else if (i <? 32)%nat then
      (Z.lor (Z.land d b) (Z.land (not32 d) c), ((5 * i + 1) mod 16)%nat)
    else if (i <? 48)%nat then (Z.lxor (Z.lxor b c) d, ((3 * i + 5) mod 16)%nat)
    else (Z.lxor c (Z.lor b (not32 d)), ((7 * i) mod 16)%nat) in
  let f' := add32 (add32 (add32 f a) (nth i K 0)) (nth g m 0) in
  (d, add32 b (rotl32 (nth i shifts 0) f'), b, c).

Definition compress (h : state) (m : list Z) : state :=
  let '(a, b, c, d) := fold_left (round m) (seq 0 64) h in
  let '(a0, b0, c0, d0) := h in
  (add32 a0 a, add32 b0 b, add32 c0 c, add32 d0 d).

Definition init : state := (0x67452301, 0xefcdab89, 0x98badcfe, 0x10325476).

Definition digest (msg : bytes) : state :=
  let p := pad msg in
  let ws := words (length p) p in
  fold_left compress (sha1.blocks (length ws) ws) init.

(** [md5.Sum]: the 16-byte digest. *)
Definition Sum (msg : bytes) : bytes :=
  let '(a, b, c, d) := digest msg in
  word_bytes a ++ word_bytes b ++ word_bytes c ++ word_bytes d.

End md5.

(** ** package strings *)

Module strings.

(** [strings.Split(s, sep)] for a one-character separator. *)
Fixpoint Split (s : string) (sep : ascii) : list string :=
  match s with
  | EmptyString => [EmptyString]
  | String c rest =>
      if Ascii.eqb c sep then EmptyString :: Split rest sep
      else match Split rest sep with
           | [] => [String c EmptyString]
           | w :: ws => String c w :: ws
           end
  end.

(** [strings.Join(elems, sep)] *)
Definition Join (elems : list string) (sep : string) : string :=
  String.concat sep elems.

End strings.

(** * store.go *)

(** [PathKey] represents a transformed file path and filename. *)
Record PathKey := { PathName : string; Filename : string }.

(** [CASPathTransformFunc]: the SHA1 digest of the key, hex-encoded; the
    path is the digest cut into blocks of [blocksize] characters. *)
Definition CASPathTransformFunc (key : string) : PathKey :=
  let hash := sha1.Sum (bytes_of_string key) in
  let hashStr := hex.EncodeToString hash in
  let blocksize := 5%nat in
  let sliceLen := (String.length hashStr / blocksize)%nat in
  let paths :=
    map (fun i => let from := (i * blocksize)%nat in
                  let to := (i * blocksize + blocksize)%nat in
                  substring from (to - from) hashStr)
        (seq 0 sliceLen) in
  {| PathName := strings.Join paths "/"; Filename := hashStr |}.

(** [PathKey.FirstPathName] *)
Definition FirstPathName (p : PathKey) : string :=
  let paths := strings.Split (PathName p) "/" in
  match paths with
  | [] => ""
  | first :: _ => first
  end.

(** [PathKey.FullPath] *)
Definition FullPath (p : PathKey) : string :=
  PathName p ++ "/" ++ Filename p.

Definition DefaultPathTransformFunc (key : string) : PathKey :=
  {| PathName := key; Filename := key |}.

Definition defaultRootFolderName : string := "ggnetwork".

(** [StoreOpts]; a [nil] transform function is [None]. *)
Record StoreOpts := {
  Root : string;
  PathTransformFunc : option (string -> PathKey)
}.

(** [Store]: the options after [NewStore] has filled in the defaults. *)
Record Store := {
  store_Root : string;
  store_PathTransformFunc : string -> PathKey
}.

Definition NewStore (opts : StoreOpts) : Store :=
  {| store_Root :=
       if (String.length (Root opts) =? 0)%nat then defaultRootFolderName
       else Root opts;
     store_PathTransformFunc :=
       match PathTransformFunc opts with
       | None => DefaultPathTransformFunc
       | Some f => f
       end |}.

(** * Errors and results *)

(** The [syscall.Errno] values the model produces. *)
Inductive errno := ENOENT | ENOTDIR | EISDIR | EACCES | EINVAL | ENOTEMPTY | EEXIST | EBADF.

(** A non-nil Go [error]; a nil-able [error] is an [option error]. *)
Inductive error :=
| PathError (e : errno)      (* *fs.PathError wrapping a syscall.Errno *)
| EOF                        (* io.EOF *)
| ErrUnexpectedEOF           (* io.ErrUnexpectedEOF *)
| ErrShortWrite              (* io.ErrShortWrite *)
| ErrInvalidWrite            (* io.errInvalidWrite *)
| KeySizeError (k : Z)       (* aes.KeySizeError *)
| NetError (msg : string)    (* a *net.OpError *)
| GobError (msg : string).   (* an encoding/gob error *)

#[global] Instance errno_eq_dec : EqDecision errno.
Proof. solve_decision. Defined.

Inductive result (A : Type) :=
| Ok (a : A)
| Err (e : error).
Arguments Ok {A} a.
Arguments Err {A} e.

Definition err_of {A} (r : result A) : option error :=
  match r with Ok _ => None | Err e => Some e end.

Module errors.
(** [errors.Is(err, os.ErrNotExist)]: an errno matches [ErrNotExist] only
    when it is [ENOENT]. *)
Definition Is_ErrNotExist (err : option error) : bool :=
  match err with
  | Some (PathError ENOENT) => true
  | _ => false
  end.
End errors.

(** * The file system

    A tree of files and directories below the working directory of the
    process, held as a finite map from the list of names leading to an entry
    to the entry.  A directory is either accessible to the process or not
    (mode 000): an inaccessible directory can be neither searched, listed nor
    written to.  The top directory is always there and accessible. *)

Inductive node :=
| File (data : bytes)
| Dir (accessible : bool).

Abbreviation path := (list string).
Abbreviation FS := (gmap (list string) node).

Module os.

Definition entry (fs : FS) (p : path) : option node :=
  match p with
  | [] => Some (Dir true)
  | _ => fs !! p
  end.

(** An empty component (from a doubled, leading or trailing separator) and
    ["."] both stay in the current directory. *)
Definition is_dot (c : string) : bool := String.eqb c "" || String.eqb c ".".

(** Path resolution: every step needs the current entry to be a directory
    the process may search. *)
Fixpoint walk (fs : FS) (cur : path) (comps : list string) : result path :=
  match comps with
  | [] => Ok cur
  | c :: cs =>
      match entry fs cur with
      | None => Err (PathError ENOENT)
      | Some (File _) => Err (PathError ENOTDIR)
      | Some (Dir false) => Err (PathError EACCES)
      | Some (Dir true) =>
          if is_dot c then walk fs cur cs
          else if String.eqb c ".." then walk fs (removelast cur) cs
          else match fs !! (cur ++ [c]) with
               | None => Err (PathError ENOENT)
               | Some _ => walk fs (cur ++ [c]) cs
               end
      end
  end.

Definition resolve (fs : FS) (name : string) : result path :=
  if String.eqb name "" then Err (PathError ENOENT)
  else walk fs [] (strings.Split name "/").

Record FileInfo := { IsDir : bool; Size : Z }.

(** What [stat] reports for an entry; the size of a directory depends on
    the file system, the model reports 4096. *)
Definition info (n : node) : FileInfo :=
  match n with
  | File data => {| IsDir := false; Size := Z.of_nat (length data) |}
  | Dir _ => {| IsDir := true; Size := 4096 |}
  end.

(** [os.Stat] *)
Definition Stat (fs : FS) (name : string) : result FileInfo :=
  match resolve fs name with
  | Err e => Err e
  | Ok p =>
      match entry fs p with
      | None => Err (PathError ENOENT)
      | Some n => Ok (info n)
      end
  end.

(** Resolution that creates the directories that are missing on the way. *)
Fixpoint mkdir_walk (fs : FS) (cur : path) (comps : list string)
  : FS * result path :=
  match comps with
  | [] => (fs, Ok cur)
  | c :: cs =>
      match entry fs cur with
      | None => (fs, Err (PathError ENOENT))
      | Some (File _) => (fs, Err (PathError ENOTDIR))
      | Some (Dir false) => (fs, Err (PathError EACCES))
      | Some (Dir true) =>
          if is_dot c then mkdir_walk fs cur cs
          else if String.eqb c ".." then mkdir_walk fs (removelast cur) cs
          else match fs !! (cur ++ [c]) with
               | None => mkdir_walk (<[cur ++ [c] := Dir true]> fs) (cur ++ [c]) cs
               | Some _ => mkdir_walk fs (cur ++ [c]) cs
               end
      end
  end.

(** [os.MkdirAll(name, os.ModePerm)]: nothing to do when [name] is a
    directory already; otherwise the parents are made first, then [name]. *)
Definition MkdirAll (fs : FS) (name : string) : FS * option error :=
  match Stat fs name with
  | Ok fi =>
      if IsDir fi then (fs, None) else (fs, Some (PathError ENOTDIR))
  | Err _ =>
      if String.eqb name "" then (fs, Some (PathError ENOENT))
      else
        match mkdir_walk fs [] (strings.Split name "/") with
        | (fs', Err e) => (fs', Some e)
        | (fs', Ok p) =>
            match entry fs' p with
            | Some (Dir _) => (fs', None)
            | Some (File _) => (fs', Some (PathError EEXIST))
            | None => (fs', Some (PathError ENOENT))
            end
        end
  end.

(** An open file: the entry it was opened on. *)
Record File_ := { Name : path }.

(** [os.Create]: open for writing, create if missing, truncate. *)
Definition Create (fs : FS) (name : string) : FS * result File_ :=
  if String.eqb name "" then (fs, Err (PathError ENOENT))
  else
    let comps := strings.Split name "/" in
    match walk fs [] (removelast comps) with
    | Err e => (fs, Err e)
    | Ok dir =>
        let base := List.last comps "" in
        match entry fs dir with
        | None => (fs, Err (PathError ENOENT))
        | Some (File _) => (fs, Err (PathError ENOTDIR))
        | Some (Dir false) => (fs, Err (PathError EACCES))
        | Some (Dir true) =>
            if is_dot base || String.eqb base ".." then (fs, Err (PathError EISDIR))
            else match fs !! (dir ++ [base]) with
                 | Some (Dir _) => (fs, Err (PathError EISDIR))
                 | _ => (<[dir ++ [base] := File []]> fs, Ok {| Name := dir ++ [base] |})
                 end
        end
    end.

(** [File.Write] on a file opened by [Create] and written from its
    start: the bytes are appended. *)
Definition File_Write (fs : FS) (f : File_) (b : bytes) : FS * (Z * option error) :=
  match fs !! Name f with
  | Some (File data) =>
      (<[Name f := File (data ++ b)]> fs, (Z.of_nat (length b), None))
  | _ => (fs, (0, Some (PathError EBADF)))
  end.

(** [os.Open] *)
Definition Open (fs : FS) (name : string) : result File_ :=
  match resolve fs name with
  | Err e => Err e
  | Ok p =>
      match entry fs p with
      | None => Err (PathError ENOENT)
      | Some _ => Ok {| Name := p |}
      end
  end.

(** [File.Stat] *)
Definition File_Stat (fs : FS) (f : File_) : result FileInfo :=
  match entry fs (Name f) with
  | None => Err (PathError ENOENT)
  | Some n => Ok (info n)
  end.

(** What reading an open file to its end yields. *)
Definition File_contents (fs : FS) (f : File_) : result bytes :=
  match entry fs (Name f) with
  | Some (File data) => Ok data
  | Some (Dir _) => Err (PathError EISDIR)
  | None => Err (PathError EBADF)
  end.

Definition is_prefix (p q : path) : bool := bool_decide (p `prefix_of` q).

(** A directory [RemoveAll] cannot empty: inaccessible, with an entry in it. *)
Definition blocked (fs : FS) (d : path) : bool :=
  match fs !! d with
  | Some (Dir false) =>
      existsb (fun q => is_prefix d q && (length q =? S (length d))%nat)
              (map fst (map_to_list fs))
  | _ => false
  end.

(** The blocked directories at or below [t]. *)
Definition obstacles (fs : FS) (t : path) : list path :=
  List.filter (fun d => is_prefix t d && blocked fs d) (map fst (map_to_list fs)).

(** What stays when the tree at [t] is removed: everything outside it, and
    inside it the blocked directories with what is above and below them. *)
Definition survives (fs : FS) (t : path) (keep_top : bool) (p : path) : bool :=
  negb (is_prefix t p)
  || (keep_top && bool_decide (p = t))
  || existsb (fun d => is_prefix p d || is_prefix d p) (obstacles fs t).

Definition remove_tree (fs : FS) (t : path) (keep_top : bool) : FS :=
  filter (fun kv => survives fs t keep_top kv.1 = true) fs.

Fixpoint strip_trailing_empty (comps : list string) : list string :=
  match comps with
  | [] => []
  | c :: cs =>
      match strip_trailing_empty cs with
      | [] => if String.eqb c "" then [] else [c]
      | cs' => c :: cs'
      end
  end.

(** [os.RemoveAll]: removes the path and what it contains, as far as it
    can; a path that does not exist is no error.  A path that ends in
    ["."] is refused; for one that ends in [".."], or names the top, the
    contents go and the directory itself stays. *)
Definition RemoveAll (fs : FS) (name : string) : FS * option error :=
  if String.eqb name "" then (fs, None)
  else
    let comps := strings.Split name "/" in
    if String.eqb (List.last comps "") "." then (fs, Some (PathError EINVAL))
    else
      let comps' := strip_trailing_empty comps in
      match walk fs [] comps' with
      | Err (PathError ENOENT) => (fs, None)
      | Err e => (fs, Some e)
      | Ok t =>
          let keep_top :=
            String.eqb (List.last comps' "") ".." || bool_decide (t = []) in
          (remove_tree fs t keep_top,
           match obstacles fs t with
           | _ :: _ => Some (PathError EACCES)
           | [] => if keep_top then Some (PathError ENOTEMPTY) else None
           end)
      end.

End os.

(** * package io and package bytes *)

Module io.

(** [io.Reader]: [Read r n] is [r.Read(p)] with [len(p) = n]; it yields the
    bytes read, the error and the reader afterwards. *)
Class Reader (R : Type) := Read : R -> nat -> (bytes * option error) * R.

(** [io.Writer] *)
Class Writer (W : Type) := Write : W -> bytes -> (Z * option error) * W.

(** [io.Copy]: the generic loop with its 32 KiB buffer.  [None] is a loop
    that is still running when the fuel is spent. *)
Fixpoint Copy_from {W R} `{Writer W} `{Reader R}
    (fuel : nat) (written : Z) (dst : W) (src : R)
  : option ((Z * option error) * W * R) :=
  match fuel with
  | O => None
  | S fuel' =>
      let '((buf, er), src') := Read src (32 * 1024) in
      let nr := Z.of_nat (length buf) in
      let '(stop, written', dst') :=
        if 0 <? nr then
          let '((nw, ew), dst') := Write dst buf in
          let '(nw, ew) :=
            if (nw <? 0) || (nr <? nw)
            then (0, match ew with None => Some ErrInvalidWrite | _ => ew end)
            else (nw, ew) in
          match ew with
          | Some e => (Some e, written + nw, dst')
          | None =>
              if negb (nr =? nw) then (Some ErrShortWrite, written + nw, dst')
              else (None, written + nw, dst')
          end
        else (None, written, dst) in
      match stop with
      | Some e => Some ((written', Some e), dst', src')
      | None =>
          match er with
          | Some EOF => Some ((written', None), dst', src')
          | Some e => Some ((written', Some e), dst', src')
          | None => Copy_from fuel' written' dst' src'
          end
      end
  end.

Definition Copy {W R} `{Writer W} `{Reader R} (fuel : nat) (dst : W) (src : R) :=
  Copy_from fuel 0 dst src.

(** [io.TeeReader(r, w)] *)
Record TeeReader (R W : Type) := { tee_r : R; tee_w : W }.
Arguments tee_r {R W} t.
Arguments tee_w {R W} t.

#[global] Instance TeeReader_Reader {R W} `{Reader R} `{Writer W}
  : Reader (TeeReader R W) :=
  fun t n =>
    let '((b, err), r') := Read (tee_r t) n in
    if (0 <? length b)%nat then
      let '((nw, ew), w') := Write (tee_w t) b in
      match ew with
      | Some e => ((firstn (Z.to_nat nw) b, Some e), {| tee_r := r'; tee_w := w' |})
      | None => ((b, err), {| tee_r := r'; tee_w := w' |})
      end
    else ((b, err), {| tee_r := r'; tee_w := tee_w t |}).

(** [io.ReadFull] on a source that holds all its bytes. *)
Definition ReadFull (src : bytes) (n : nat) : (bytes * option error) * bytes :=
  if (n <=? length src)%nat then ((firstn n src, None), skipn n src)
  else match src with
       | [] => (([], Some EOF), [])
       | _ => ((src, Some ErrUnexpectedEOF), [])
       end.

(** [io.ReadFull(r, buf)] with [len(buf) = n] on any reader: the loop of
    [io.ReadAtLeast] with [min = len(buf)], which reads until the buffer is
    full or a read fails.  [None] is a loop that is still running when the
    fuel is spent. *)
Fixpoint ReadAtLeast_from {R} `{Reader R} (fuel : nat) (r : R) (len min : nat) (got : bytes)
  : option ((bytes * option error) * R) :=
  if (min <=? length got)%nat then Some ((got, None), r)
  else
    match fuel with
    | O => None
    | S fuel' =>
        let '((b, err), r') := Read r (len - length got) in
        let got' := got ++ b in
        match err with
        | None => ReadAtLeast_from fuel' r' len min got'
        | Some e =>
            if (min <=? length got')%nat then Some ((got', None), r')
            else if (0 <? length got')%nat && match e with EOF => true | _ => false end
                 then Some ((got', Some ErrUnexpectedEOF), r')
                 else Some ((got', Some e), r')
        end
    end.

Definition ReadFull_of {R} `{Reader R} (fuel : nat) (r : R) (n : nat) :=
  ReadAtLeast_from fuel r n n [].

(** [io.LimitedReader], which [io.LimitReader(r, n)] returns. *)
Record LimitedReader (R : Type) := { lr_R : R; lr_N : Z }.
Arguments lr_R {R} l.
Arguments lr_N {R} l.

#[global] Instance LimitedReader_Reader {R} `{Reader R} : Reader (LimitedReader R) :=
  fun l n =>
    if lr_N l <=? 0 then (([], Some EOF), l)
    else
      let n' := if lr_N l <? Z.of_nat n then Z.to_nat (lr_N l) else n in
      let '((b, err), r') := Read (lr_R l) n' in
      ((b, err), {| lr_R := r'; lr_N := lr_N l - Z.of_nat (length b) |}).

Definition LimitReader {R} (r : R) (n : Z) : LimitedReader R :=
  {| lr_R := r; lr_N := n |}.

End io.

(** [bytes.Buffer]: the unread bytes. *)
Record bytes_Buffer := { unread : bytes }.

#[global] Instance bytes_Buffer_Reader : io.Reader bytes_Buffer :=
  fun b n =>
    match unread b with
    | [] => (([], if (n =? 0)%nat then None else Some EOF), b)
    | _ => ((firstn n (unread b), None), {| unread := skipn n (unread b) |})
    end.

#[global] Instance bytes_Buffer_Writer : io.Writer bytes_Buffer :=
  fun b p => ((Z.of_nat (length p), None), {| unread := unread b ++ p |}).

(** [bytes.Reader] *)
Record bytes_Reader := { rest : bytes }.

#[global] Instance bytes_Reader_Reader : io.Reader bytes_Reader :=
  fun r n =>
    match rest r with
    | [] => (([], Some EOF), r)
    | _ => ((firstn n (rest r), None), {| rest := skipn n (rest r) |})
    end.

(** An open file with the file system it lives in, as a writer. *)
#[global] Instance os_File_Writer : io.Writer (FS * os.File_) :=
  fun ff p =>
    let '(fs', res) := os.File_Write ff.1 ff.2 p in (res, (fs', ff.2)).

(** * package encoding/binary *)

Module binary.

(** [binary.LittleEndian.Uint64] *)
Definition LittleEndian_Uint64 (b : bytes) : Z :=
  fold_right (fun x acc => x + 256 * acc) 0 (firstn 8 b).

(** The conversion [int64(u)] of an unsigned 64-bit number. *)
Definition int64 (u : Z) : Z := if u <? 2 ^ 63 then u else u - 2 ^ 64.

(** [binary.Read(r, binary.LittleEndian, &data)] for an [int64] that holds
    [old]: the error, and what [data] holds afterwards; when the read fails
    the number is not touched. *)
Definition Read_int64 {R} `{io.Reader R} (fuel : nat) (r : R) (old : Z)
  : option ((option error * Z) * R) :=
  match io.ReadFull_of fuel r 8 with
  | None => None
  | Some ((_, Some e), r') => Some ((Some e, old), r')
  | Some ((bs, None), r') => Some ((None, int64 (LittleEndian_Uint64 bs)), r')
  end.

End binary.

(** * crypto.go *)

(** The AES block function, [Encrypt] of the block that [aes.NewCipher(key)]
    returns, is a primitive of the model. *)
Class AES := aes_encryptBlock : bytes -> bytes -> bytes.

Module aes.
Definition BlockSize : nat := 16.

(** [cipher.Block] *)
Record Block := { Encrypt : bytes -> bytes }.

(** [aes.NewCipher]: keys of 16, 24 or 32 bytes. *)
Definition NewCipher `{AES} (key : bytes) : result Block :=
  let k := length key in
  if (k =? 16)%nat || (k =? 24)%nat || (k =? 32)%nat
  then Ok {| Encrypt := aes_encryptBlock key |}
  else Err (KeySizeError (Z.of_nat k)).
End aes.

Module cipher.

(** A 16-byte block as a big-endian number, and back. *)
Definition be_value (b : bytes) : Z := fold_left (fun acc x => acc * 256 + x) b 0.

Fixpoint be_bytes (n : nat) (v : Z) : bytes :=
  match n with
  | O => []
  | S n' => be_bytes n' (v / 256) ++ [v mod 256]
  end.

(** [cipher.Stream] in counter mode: the key stream is the encryption of
    the counter blocks [iv], [iv+1], ... laid end to end; [pos] bytes of it
    have been used. *)
Record CTR := { block : aes.Block; iv : bytes; pos : nat }.

Definition NewCTR (b : aes.Block) (iv : bytes) : CTR :=
  {| block := b; iv := iv; pos := 0 |}.

Definition counter_block (s : CTR) (i : nat) : bytes :=
  be_bytes 16 ((be_value (iv s) + Z.of_nat i) mod 2 ^ 128).

Definition keystream (s : CTR) (i : nat) : Z :=
  nth (i mod 16) (aes.Encrypt (block s) (counter_block s (i / 16))) 0.

Fixpoint xor_from (s : CTR) (i : nat) (src : bytes) : bytes :=
  match src with
  | [] => []
  | x :: src' => Z.lxor x (keystream s i) :: xor_from s (S i) src'
  end.

(** [XORKeyStream(dst, src)] *)
Definition XORKeyStream (s : CTR) (src : bytes) : bytes * CTR :=
  (xor_from s (pos s) src,
   {| block := block s; iv := iv s; pos := (pos s + length src)%nat |}).

End cipher.

(** [hashKey] hashes a string key using MD5 and returns the hash as a
    hexadecimal string. *)
Definition hashKey (key : string) : string :=
  let hash := md5.Sum (bytes_of_string key) in
  hex.EncodeToString hash.

(** [copyStream] *)
Fixpoint copyStream_from {R W} `{io.Reader R} `{io.Writer W}
    (fuel : nat) (nw : Z) (stream : cipher.CTR) (src : R) (dst : W)
  : option ((Z * option error) * R * W) :=
  match fuel with
  | O => None
  | S fuel' =>
      let '((buf, err), src') := io.Read src (32 * 1024) in
      let n := length buf in
      let '(werr, nw', stream', dst') :=
        if (0 <? n)%nat then
          let '(out, stream') := cipher.XORKeyStream stream buf in
          let '((nn, err), dst') := io.Write dst out in
          (err, nw + nn, stream', dst')
        else (None, nw, stream, dst) in
      match werr with
      | Some e => Some ((0, Some e), src', dst')
      | None =>
          match err with
          | Some EOF => Some ((nw', None), src', dst')
          | Some e => Some ((0, Some e), src', dst')
          | None => copyStream_from fuel' nw' stream' src' dst'
          end
      end
  end.

Definition copyStream {R W} `{io.Reader R} `{io.Writer W}
    (fuel : nat) (stream : cipher.CTR) (blockSize : nat) (src : R) (dst : W) :=
  copyStream_from fuel (Z.of_nat blockSize) stream src dst.

(** [copyDecrypt]: the IV buffer has the block size whatever [src.Read]
    returns; what was not read stays zero. *)
Definition copyDecrypt {R W} `{AES} `{io.Reader R} `{io.Writer W}
    (fuel : nat) (key : bytes) (src : R) (dst : W)
  : option ((Z * option error) * R * W) :=
  match aes.NewCipher key with
  | Err e => Some ((0, Some e), src, dst)
  | Ok block =>
      let '((got, err), src') := io.Read src aes.BlockSize in
      match err with
      | Some e => Some ((0, Some e), src', dst)
      | None =>
          let iv := firstn aes.BlockSize (got ++ repeat 0 aes.BlockSize) in
          let stream := cipher.NewCTR block iv in
          copyStream fuel stream aes.BlockSize src' dst
      end
  end.

(** [copyEncrypt]; [rand] is what [crypto/rand.Reader] will deliver. *)
Definition copyEncrypt {R W} `{AES} `{io.Reader R} `{io.Writer W}
    (fuel : nat) (rand : bytes) (key : bytes) (src : R) (dst : W)
  : option ((Z * option error) * bytes * R * W) :=
  match aes.NewCipher key with
  | Err e => Some ((0, Some e), rand, src, dst)
  | Ok block =>
      let '((iv, err), rand') := io.ReadFull rand aes.BlockSize in
      match err with
      | Some e => Some ((0, Some e), rand', src, dst)
      | None =>
          let '((_, err), dst') := io.Write dst iv in
          match err with
          | Some e => Some ((0, Some e), rand', src, dst')
          | None =>
              let stream := cipher.NewCTR block iv in
              match copyStream fuel stream aes.BlockSize src dst' with
              | None => None
              | Some (res, src', dst'') => Some (res, rand', src', dst'')
              end
          end
      end
  end.

(** * store.go: the methods of [Store] *)

(** [fmt.Sprintf("%s/%s/%s", a, b, c)] *)
Definition Sprintf3 (a b c : string) : string := a ++ "/" ++ b ++ "/" ++ c.

Module Store.

(** [Has] checks if a file exists in the store. *)
Definition Has (s : Store) (fs : FS) (id key : string) : bool :=
  let pathKey := store_PathTransformFunc s key in
  let fullPathWithRoot := Sprintf3 (store_Root s) id (FullPath pathKey) in
  let err := err_of (os.Stat fs fullPathWithRoot) in
  negb (errors.Is_ErrNotExist err).

(** [Clear] *)
Definition Clear (s : Store) (fs : FS) : FS * option error :=
  os.RemoveAll fs (store_Root s).

(** [Delete] removes a file from the store. *)
Definition Delete (s : Store) (fs : FS) (id key : string) : FS * option error :=
  let pathKey := store_PathTransformFunc s key in
  let firstPathNameWithRoot := Sprintf3 (store_Root s) id (FirstPathName pathKey) in
  os.RemoveAll fs firstPathNameWithRoot.

(** [openFileForWriting] *)
Definition openFileForWriting (s : Store) (fs : FS) (id key : string)
  : FS * result os.File_ :=
  let pathKey := store_PathTransformFunc s key in
  let pathNameWithRoot := Sprintf3 (store_Root s) id (PathName pathKey) in
  match os.MkdirAll fs pathNameWithRoot with
  | (fs', Some err) => (fs', Err err)
  | (fs', None) =>
      let fullPathWithRoot := Sprintf3 (store_Root s) id (FullPath pathKey) in
      os.Create fs' fullPathWithRoot
  end.

(** [writeStream] *)
Definition writeStream {R} `{io.Reader R}
    (fuel : nat) (s : Store) (fs : FS) (id key : string) (r : R)
  : option ((Z * option error) * FS * R) :=
  match openFileForWriting s fs id key with
  | (fs', Err err) => Some ((0, Some err), fs', r)
  | (fs', Ok f) =>
      match io.Copy fuel (fs', f) r with
      | None => None
      | Some (res, (fs'', _), r') => Some (res, fs'', r')
      end
  end.

(** [Write] stores a file in the store. *)
Definition Write {R} `{io.Reader R}
    (fuel : nat) (s : Store) (fs : FS) (id key : string) (r : R) :=
  writeStream fuel s fs id key r.

(** [WriteDecrypt] *)
Definition WriteDecrypt {R} `{AES} `{io.Reader R}
    (fuel : nat) (s : Store) (fs : FS) (encKey : bytes) (id key : string) (r : R)
  : option ((Z * option error) * FS * R) :=
  match openFileForWriting s fs id key with
  | (fs', Err err) => Some ((0, Some err), fs', r)
  | (fs', Ok f) =>
      match copyDecrypt fuel encKey r (fs', f) with
      | None => None
      | Some (res, r', (fs'', _)) => Some (res, fs'', r')
      end
  end.

(** [readStream]: the size and the open file. *)
Definition readStream (s : Store) (fs : FS) (id key : string)
  : result (Z * os.File_) :=
  let pathKey := store_PathTransformFunc s key in
  let fullPathWithRoot := Sprintf3 (store_Root s) id (FullPath pathKey) in
  match os.Open fs fullPathWithRoot with
  | Err err => Err err
  | Ok file =>
      match os.File_Stat fs file with
      | Err err => Err err
      | Ok fi => Ok (os.Size fi, file)
      end
  end.

(** [Read] retrieves a file from the store. *)
Definition Read (s : Store) (fs : FS) (id key : string) :=
  readStream s fs id key.

End Store.

Definition casStore (root : string) : Store :=
  NewStore {| Root := root; PathTransformFunc := Some CASPathTransformFunc |}.

Definition some_bytes : bytes := bytes_of_string "my big data file here!".

Definition fs_after_write : FS :=
  match Store.Write 5 (casStore ":5000_network") ∅ "node" "picture_0.png"
          {| rest := some_bytes |} with
  | Some (_, fs, _) => fs
  | None => ∅
  end.

(** * package p2p *)

(** The frame markers [IncomingMessage] and [IncomingStream]: constants of
    package p2p whose declaration is not among the sources. *)
Class FrameMarkers := { IncomingMessage : Z; IncomingStream : Z }.

(** Modelled from the spec: the declaration of [RPC] that goes with this
    transport is missing; an RPC record holds the sender identity and the raw
    payload bytes, and the code reads and writes the fields [From], [Payload]
    and [Stream]. *)
Record RPC := { From : string; Payload : bytes; Stream : bool }.

(** [RPC{}] *)
Definition RPC_zero : RPC := {| From := ""; Payload := []; Stream := false |}.

(** A [net.Conn] as the process sees it, up to the end of its read side.
    [incoming] holds what the network will still deliver, one element per
    delivery; once it is used up [Read] returns [read_err] (the peer closed
    or the connection broke).  A [Read] on a connection that is open and idle
    waits, and no deadline is set anywhere in the program: the model has no
    such read, so an empty [incoming] always stands for a connection whose
    read side has ended, never for one that is merely silent.  [sent]
    records the writes that went through, and [write_errs] what the next
    writes will answer (a write succeeds when the list is used up). *)
Record Conn := {
  RemoteAddr : string;
  incoming : list bytes;
  read_err : error;
  sent : list bytes;
  write_errs : list (option error);
  conn_closed : bool
}.

Definition Conn_Close (c : Conn) : Conn :=
  {| RemoteAddr := RemoteAddr c; incoming := incoming c; read_err := read_err c;
     sent := sent c; write_errs := write_errs c; conn_closed := true |}.

Definition Conn_with_incoming (c : Conn) (inc : list bytes) : Conn :=
  {| RemoteAddr := RemoteAddr c; incoming := inc; read_err := read_err c;
     sent := sent c; write_errs := write_errs c; conn_closed := conn_closed c |}.

#[global] Instance Conn_Reader : io.Reader Conn :=
  fun c n =>
    match incoming c with
    | [] => (([], Some (read_err c)), c)
    | chunk :: more =>
        if (length chunk <=? n)%nat
        then ((chunk, None), Conn_with_incoming c more)
        else ((firstn n chunk, None), Conn_with_incoming c (skipn n chunk :: more))
    end.

#[global] Instance Conn_Writer : io.Writer Conn :=
  fun c p =>
    match write_errs c with
    | Some e :: later =>
        ((0, Some e),
         {| RemoteAddr := RemoteAddr c; incoming := incoming c; read_err := read_err c;
            sent := sent c; write_errs := later; conn_closed := conn_closed c |})
    | _ =>
        ((Z.of_nat (length p), None),
         {| RemoteAddr := RemoteAddr c; incoming := incoming c; read_err := read_err c;
            sent := sent c ++ [p]; write_errs := tl (write_errs c);
            conn_closed := conn_closed c |})
    end.

(** [TCPPeer]: the connection, the direction and the counter of the
    [sync.WaitGroup]. *)
Record TCPPeer := { conn : Conn; outbound : bool; wg : Z }.

(** [NewTCPPeer] *)
Definition NewTCPPeer (c : Conn) (outbound : bool) : TCPPeer :=
  {| conn := c; outbound := outbound; wg := 0 |}.

Definition TCPPeer_with_conn (p : TCPPeer) (c : Conn) : TCPPeer :=
  {| conn := c; outbound := outbound p; wg := wg p |}.

(** The embedded [net.Conn] makes a peer a reader and a writer. *)
#[global] Instance TCPPeer_Reader : io.Reader TCPPeer :=
  fun p n => let '(res, c) := io.Read (conn p) n in (res, TCPPeer_with_conn p c).

#[global] Instance TCPPeer_Writer : io.Writer TCPPeer :=
  fun p b => let '(res, c) := io.Write (conn p) b in (res, TCPPeer_with_conn p c).

Module TCPPeer.

(** [CloseStream]: [p.wg.Done()].  A counter that falls below zero is a
    panic of the process, which the second component reports. *)
Definition CloseStream (p : TCPPeer) : TCPPeer * bool :=
  ({| conn := conn p; outbound := outbound p; wg := wg p - 1 |}, wg p - 1 <? 0).

(** [Send] writes a byte slice to the peer's connection. *)
Definition Send (p : TCPPeer) (b : bytes) : option error * TCPPeer :=
  let '((_, err), p') := io.Write p b in (err, p').

End TCPPeer.

(** Modelled from the spec: [NOPHandshakeFunc] is missing from the sources;
    there is no authentication of peers during the handshake, it does
    nothing. *)
Definition NOPHandshakeFunc (p : TCPPeer) : option error := None.

Module DefaultDecoder.

(** [Decode] reads from the reader and decodes the data into the RPC. *)
Definition Decode {R} `{FrameMarkers} `{io.Reader R} (r : R) (msg : RPC)
  : (option error * RPC) * R :=
  let '((peekBuf, err), r1) := io.Read r 1 in
  match err with
  | Some _ => ((None, msg), r1)
  | None =>
      let stream := nth 0 peekBuf 0 =? IncomingStream in
      if stream then
        ((None, {| From := From msg; Payload := Payload msg; Stream := true |}), r1)
      else
        let '((buf, err), r2) := io.Read r1 1028 in
        match err with
        | Some e => ((Some e, msg), r2)
        | None =>
            ((None, {| From := From msg; Payload := buf; Stream := Stream msg |}), r2)
        end
  end.

End DefaultDecoder.

(** [TCPTransportOpts], over the type [S] of the state the [OnPeer] callback
    works on; a [nil] callback is [None]. *)
Record TCPTransportOpts (S : Type) := {
  ListenAddr : string;
  HandshakeFunc : TCPPeer -> option error;
  Decoder : Conn -> RPC -> (option error * RPC) * Conn;
  OnPeer : option (S -> TCPPeer -> option error * S)
}.
Arguments ListenAddr {S} t.
Arguments HandshakeFunc {S} t.
Arguments Decoder {S} t.
Arguments OnPeer {S} t.

(** [TCPTransport]: the options and whether the listener is set; the
    channel [rpcch] is part of the state of the connection tasks below. *)
Record TCPTransport (S : Type) := {
  transport_opts : TCPTransportOpts S;
  listener : option string
}.
Arguments transport_opts {S} t.
Arguments listener {S} t.

(** [NewTCPTransport] *)
Definition NewTCPTransport {S} (opts : TCPTransportOpts S) : TCPTransport S :=
  {| transport_opts := opts; listener := None |}.

(** The capacity of [rpcch]. *)
Definition rpcch_capacity : nat := 1024.

(** What the process did on the network. *)
Inductive net_event :=
| Listened (addr : string)
| Dialed (addr : string).

(** The network around a node: the addresses that have a listener, and the
    calls the node has made. *)
Record Network := { listeners : list string; events : list net_event }.

(** ** The task that serves one connection: [handleConn]

    The task is a state machine; one step runs it up to its next blocking
    operation.  [Reading] is the top of the read loop, [Waiting] is
    [peer.wg.Wait()], [Sending rpc] is [t.rpcch <- rpc], [Dropped] is after
    the deferred [conn.Close()]. *)
Inductive loop_pc :=
| Reading
| Waiting
| Sending (rpc : RPC)
| Dropped (err : option error).

(** The state of the task: the state [owner] the callback works on, the
    peer, the point the task is at, the channel [t.rpcch] (oldest first), the
    number of calls of [Decode] so far, and whether the process panicked. *)
Record Task (S : Type) := {
  owner : S;
  peer : TCPPeer;
  pc : loop_pc;
  rpcch : list RPC;
  decoded : nat;
  panicked : bool
}.
Arguments owner {S} t.
Arguments peer {S} t.
Arguments pc {S} t.
Arguments rpcch {S} t.
Arguments decoded {S} t.
Arguments panicked {S} t.

Module TCPTransport.

Section Methods.
Context {S : Type}.

(** [ListenAndAccept]: [net.Listen] fails when the address is taken. *)
Definition ListenAndAccept (t : TCPTransport S) (net : Network)
  : option error * TCPTransport S * Network :=
  let addr := ListenAddr (transport_opts t) in
  let net' := {| listeners := listeners net;
                 events := events net ++ [Listened addr] |} in
  if bool_decide (addr ∈ listeners net)
  then (Some (NetError "address already in use"), t, net')
  else (None,
        {| transport_opts := transport_opts t; listener := Some addr |},
        {| listeners := addr :: listeners net;
           events := events net ++ [Listened addr] |}).

(** The deferred function of [handleConn]: the connection is closed. *)
Definition drop (own : S) (p : TCPPeer) (ch : list RPC) (n : nat)
    (bad : bool) (err : option error) : Task S :=
  {| owner := own; peer := TCPPeer_with_conn p (Conn_Close (conn p));
     pc := Dropped err; rpcch := ch; decoded := n; panicked := bad |}.

(** [handleConn] up to the read loop: the handshake, then the [OnPeer]
    callback. *)
Definition handleConn (t : TCPTransport S) (own : S) (ch : list RPC)
    (c : Conn) (outbound : bool) : Task S :=
  let peer := NewTCPPeer c outbound in
  match HandshakeFunc (transport_opts t) peer with
  | Some err => drop own peer ch 0 false (Some err)
  | None =>
      match
        match OnPeer (transport_opts t) with
        | Some f => f own peer
        | None => (None, own)
        end
      with
      | (Some err, own') => drop own' peer ch 0 false (Some err)
      | (None, own') =>
          {| owner := own'; peer := peer; pc := Reading; rpcch := ch;
             decoded := 0; panicked := false |}
      end
  end.

(** One step of the read loop of [handleConn]. *)
Definition loop_step (t : TCPTransport S) (k : Task S) : Task S :=
  match pc k with
  | Reading =>
      let rpc := RPC_zero in
      let '((err, rpc), c) := Decoder (transport_opts t) (conn (peer k)) rpc in
      let p := TCPPeer_with_conn (peer k) c in
      match err with
      | Some e =>
          drop (owner k) p (rpcch k) (Datatypes.S (decoded k)) (panicked k) (Some e)
      | None =>
          let rpc := {| From := RemoteAddr c; Payload := Payload rpc;
                        Stream := Stream rpc |} in
          if Stream rpc then
            {| owner := owner k;
               peer := {| conn := c; outbound := outbound p; wg := wg p + 1 |};
               pc := Waiting; rpcch := rpcch k;
               decoded := Datatypes.S (decoded k); panicked := panicked k |}
          else
            {| owner := owner k; peer := p; pc := Sending rpc; rpcch := rpcch k;
               decoded := Datatypes.S (decoded k); panicked := panicked k |}
      end
  | Waiting =>
      if wg (peer k) =? 0 then
        {| owner := owner k; peer := peer k; pc := Reading; rpcch := rpcch k;
           decoded := decoded k; panicked := panicked k |}
      else k
  | Sending rpc =>
      if (length (rpcch k) <? rpcch_capacity)%nat then
        {| owner := owner k; peer := peer k; pc := Reading;
           rpcch := rpcch k ++ [rpc];
           decoded := decoded k; panicked := panicked k |}
      else k
  | Dropped _ => k
  end.

(** [Dial]: [net.Dial] fails when nothing listens at the address;
    otherwise the new connection gets its task. *)
Definition Dial (t : TCPTransport S) (own : S) (ch : list RPC)
    (net : Network) (addr : string) (c : Conn)
  : option error * Network * option (Task S) :=
  let net' := {| listeners := listeners net;
                 events := events net ++ [Dialed addr] |} in
  if bool_decide (addr ∈ listeners net)
  then (None, net', Some (handleConn t own ch c true))
  else (Some (NetError "connection refused"), net', None).

End Methods.

End TCPTransport.

(** What is left of the deliveries once exactly [n] bytes were read from
    the connection, as [binary.Read] and a copy through [io.LimitReader] do,
    over as many reads as it takes. *)
Fixpoint read_exactly (n : nat) (inc : list bytes) : list bytes :=
  match inc with
  | [] => []
  | chunk :: more =>
      if (length chunk <=? n)%nat then read_exactly (n - length chunk) more
      else skipn n chunk :: more
  end.

(** What else runs next to the task of a connection: the consumer of a
    stream reads its bytes from the connection ([ConsumerRead n]: exactly
    [n] bytes) and closes the stream, the dispatch loop takes an RPC from the
    channel. *)
Inductive action :=
| LoopStep
| ConsumerRead (n : nat)
| CloseStream
| Consume.

Definition act {S} (t : TCPTransport S) (k : Task S) (a : action) : Task S :=
  match a with
  | LoopStep => TCPTransport.loop_step t k
  | ConsumerRead n =>
      let c := conn (peer k) in
      let p := TCPPeer_with_conn (peer k) (Conn_with_incoming c (read_exactly n (incoming c))) in
      {| owner := owner k; peer := p; pc := pc k; rpcch := rpcch k;
         decoded := decoded k; panicked := panicked k |}
  | CloseStream =>
      let '(p, bad) := TCPPeer.CloseStream (peer k) in
      {| owner := owner k; peer := p; pc := pc k; rpcch := rpcch k;
         decoded := decoded k; panicked := panicked k || bad |}
  | Consume =>
      {| owner := owner k; peer := peer k; pc := pc k; rpcch := tl (rpcch k);
         decoded := decoded k; panicked := panicked k |}
  end.

Definition run {S} (t : TCPTransport S) (k : Task S) (acts : list action) : Task S :=
  fold_left (act t) acts k.

(** * The file server *)

(** [MessageStoreFile{ID, Key, Size}] and [MessageGetFile{ID, Key}], the
    values a [Message] carries in its [Payload any]. *)
Inductive payload :=
| MessageStoreFile (ID Key : string) (Size : Z)
| MessageGetFile (ID Key : string).

(** [Message] *)
Record Message := { msg_Payload : payload }.

(** [gob.NewEncoder(buf).Encode(msg)]: the encoding is a primitive of the
    model; it yields the bytes or fails. *)
Class Gob := gob_Encode : Message -> result bytes.

(** [generateID]: 32 random bytes in hexadecimal; the error of [ReadFull] is
    dropped and the buffer keeps its zeros where nothing was read. *)
Definition generateID (rand : bytes) : string * bytes :=
  let '((buf, _), rand') := io.ReadFull rand 32 in
  (hex.EncodeToString (firstn 32 (buf ++ repeat 0 32%nat)), rand').

(** [newEncryptionKey] *)
Definition newEncryptionKey (rand : bytes) : bytes * bytes :=
  let '((keyBuf, _), rand') := io.ReadFull rand 32 in
  (firstn 32 (keyBuf ++ repeat 0 32%nat), rand').

(** [FileServerOpts]; the field [Transport] points to the transport, which
    the model keeps next to the server (see [Node]). *)
Record FileServerOpts := {
  ID : string;
  EncKey : bytes;
  StorageRoot : string;
  opts_PathTransformFunc : option (string -> PathKey);
  BootstrapNodes : list string
}.

(** [FileServer].  [peers] is the map from remote address to peer; the order
    of the list is the order in which a [range] over the map visits it. *)
Record FileServer := {
  opts : FileServerOpts;
  peers : list (string * TCPPeer);
  store : Store
}.

(** The disk and the random source of the process. *)
Record World := { disk : FS; entropy : bytes }.

(** [io.MultiWriter] *)
Record MultiWriter (W : Type) := { writers : list W }.
Arguments writers {W} m.

Fixpoint MultiWriter_write {W} `{io.Writer W} (ws : list W) (p : bytes)
  : (Z * option error) * list W :=
  match ws with
  | [] => ((Z.of_nat (length p), None), [])
  | w :: later =>
      let '((n, err), w') := io.Write w p in
      match err with
      | Some e => ((n, Some e), w' :: later)
      | None =>
          if negb (n =? Z.of_nat (length p)) then ((n, Some ErrShortWrite), w' :: later)
          else let '(res, later') := MultiWriter_write later p in (res, w' :: later')
      end
  end.

#[global] Instance MultiWriter_Writer {W} `{io.Writer W} : io.Writer (MultiWriter W) :=
  fun m p => let '(res, ws) := MultiWriter_write (writers m) p in
             (res, {| writers := ws |}).

(** How a call ends: it returns, or the process panics. *)
Inductive outcome (A : Type) :=
| Returned (a : A)
| Panicked.
Arguments Returned {A} a.
Arguments Panicked {A}.

Definition with_peers (s : FileServer) (ps : list (string * TCPPeer)) : FileServer :=
  {| opts := opts s; peers := ps; store := store s |}.

Module FileServer.

(** [NewFileServer] *)
Definition NewFileServer (o : FileServerOpts) (rand : bytes) : FileServer * bytes :=
  let storeOpts := {| Root := StorageRoot o;
                      PathTransformFunc := opts_PathTransformFunc o |} in
  let '(id, rand') :=
    if (String.length (ID o) =? 0)%nat then generateID rand else (ID o, rand) in
  ({| opts := {| ID := id; EncKey := EncKey o; StorageRoot := StorageRoot o;
                 opts_PathTransformFunc := opts_PathTransformFunc o;
                 BootstrapNodes := BootstrapNodes o |};
      peers := [];
      store := NewStore storeOpts |}, rand').

(** The loop of [broadcast] over the peers. *)
Fixpoint broadcast_to `{FrameMarkers} (ps : list (string * TCPPeer)) (buf : bytes)
  : option error * list (string * TCPPeer) :=
  match ps with
  | [] => (None, [])
  | (addr, peer) :: later =>
      let '(_, peer) := TCPPeer.Send peer [IncomingMessage] in
      let '(err, peer) := TCPPeer.Send peer buf in
      match err with
      | Some e => (Some e, (addr, peer) :: later)
      | None =>
          let '(err, later') := broadcast_to later buf in
          (err, (addr, peer) :: later')
      end
  end.

(** [broadcast] sends a message to all connected peers. *)
Definition broadcast `{Gob} `{FrameMarkers} (s : FileServer) (msg : Message)
  : option error * FileServer :=
  match gob_Encode msg with
  | Err err => (Some err, s)
  | Ok buf =>
      let '(err, ps) := broadcast_to (peers s) buf in
      (err, with_peers s ps)
  end.

(** [Store] saves a file to local storage and broadcasts it to peers. *)
Definition Store {R} `{AES} `{Gob} `{FrameMarkers} `{io.Reader R}
    (fuel : nat) (s : FileServer) (w : World) (key : string) (r : R)
  : option (option error * FileServer * World * R) :=
  let fileBuffer := {| unread := [] |} in
  let tee := {| io.tee_r := r; io.tee_w := fileBuffer |} in
  match Store.Write fuel (store s) (disk w) (ID (opts s)) key tee with
  | None => None
  | Some ((size, err), fs, tee) =>
      let w := {| disk := fs; entropy := entropy w |} in
      let r := io.tee_r tee in
      let fileBuffer := io.tee_w tee in
      match err with
      | Some e => Some (Some e, s, w, r)
      | None =>
          let msg := {| msg_Payload :=
                          MessageStoreFile (ID (opts s)) (hashKey key) (size + 16) |} in
          match broadcast s msg with
          | (Some e, s) => Some (Some e, s, w, r)
          | (None, s) =>
              let peers_ := map snd (peers s) in
              let mw := {| writers := peers_ |} in
              let '(_, mw) := io.Write mw [IncomingStream] in
              match copyEncrypt fuel (entropy w) (EncKey (opts s)) fileBuffer mw with
              | None => None
              | Some ((n, err), rand, _, mw) =>
                  let s := with_peers s (combine (map fst (peers s)) (writers mw)) in
                  let w := {| disk := disk w; entropy := rand |} in
                  match err with
                  | Some e => Some (Some e, s, w, r)
                  | None => Some (None, s, w, r)
                  end
              end
          end
      end
  end.

(** [OnPeer] is triggered when a new peer connects to the server:
    [s.peers[p.RemoteAddr().String()] = p]. *)
Definition OnPeer (s : FileServer) (p : TCPPeer) : option error * FileServer :=
  let addr := RemoteAddr (conn p) in
  let ps :=
    if existsb (fun ap => String.eqb ap.1 addr) (peers s)
    then map (fun ap => if String.eqb ap.1 addr then (addr, p) else ap) (peers s)
    else peers s ++ [(addr, p)] in
  (None, with_peers s ps).

(** The loop of [Get] over the peers: the size of the file is read from
    the peer, its error dropped; then as many bytes are decrypted into the
    store, and the stream of the peer is closed. *)
Fixpoint Get_from `{AES} (fuel : nat) (s : FileServer) (fs : FS)
    (ps : list (string * TCPPeer)) (key : string)
  : option (outcome (option error) * FS * list (string * TCPPeer)) :=
  match ps with
  | [] => Some (Returned None, fs, [])
  | (addr, peer) :: later =>
      match binary.Read_int64 fuel peer 0 with
      | None => None
      | Some ((_, fileSize), peer) =>
          match Store.WriteDecrypt fuel (store s) fs (EncKey (opts s)) (ID (opts s)) key
                  (io.LimitReader peer fileSize) with
          | None => None
          | Some ((n, err), fs, lr) =>
              let peer := io.lr_R lr in
              match err with
              | Some e => Some (Returned (Some e), fs, (addr, peer) :: later)
              | None =>
                  let '(peer, bad) := TCPPeer.CloseStream peer in
                  if bad then Some (Panicked, fs, (addr, peer) :: later)
                  else
                    match Get_from fuel s fs later key with
                    | None => None
                    | Some (res, fs, later) => Some (res, fs, (addr, peer) :: later)
                    end
              end
          end
      end
  end.

(** [Get] retrieves a file from the local storage or network if not found
    locally. *)
Definition Get `{AES} `{Gob} `{FrameMarkers}
    (fuel : nat) (s : FileServer) (w : World) (key : string)
  : option (outcome (result os.File_) * FileServer * World) :=
  let read (fs : FS) :=
    match Store.Read (store s) fs (ID (opts s)) key with
    | Ok (_, r) => Ok r
    | Err err => Err err
    end in
  if Store.Has (store s) (disk w) (ID (opts s)) key then
    Some (Returned (read (disk w)), s, w)
  else
    let msg := {| msg_Payload := MessageGetFile (ID (opts s)) (hashKey key) |} in
    match broadcast s msg with
    | (Some e, s) => Some (Returned (Err e), s, w)
    | (None, s) =>
        match Get_from fuel s (disk w) (peers s) key with
        | None => None
        | Some (res, fs, ps) =>
            let s := with_peers s ps in
            let w := {| disk := fs; entropy := entropy w |} in
            match res with
            | Panicked => Some (Panicked, s, w)
            | Returned (Some e) => Some (Returned (Err e), s, w)
            | Returned None => Some (Returned (read fs), s, w)
            end
        end
    end.

End FileServer.

(** A node: the file server and the transport its [Transport] field points
    to. *)
Record Node := { server : FileServer; transport : TCPTransport FileServer }.

(** [makeServer]; the transport is made with a nil [OnPeer], which is set
    to the [OnPeer] of the server once the server exists. *)
Definition makeServer `{FrameMarkers} (listenAddr : string) (nodes : list string)
    (rand : bytes) : Node * bytes :=
  let tcptransportOpts : TCPTransportOpts FileServer :=
    {| ListenAddr := listenAddr;
       HandshakeFunc := NOPHandshakeFunc;
       Decoder := DefaultDecoder.Decode;
       OnPeer := None |} in
  let tcpTransport := NewTCPTransport tcptransportOpts in
  let '(encKey, rand) := newEncryptionKey rand in
  let fileServerOpts :=
    {| ID := "";
       EncKey := encKey;
       StorageRoot := listenAddr ++ "_network";
       opts_PathTransformFunc := Some CASPathTransformFunc;
       BootstrapNodes := nodes |} in
  let '(s, rand) := FileServer.NewFileServer fileServerOpts rand in
  let tcpTransport :=
    {| transport_opts :=
         {| ListenAddr := ListenAddr tcptransportOpts;
            HandshakeFunc := HandshakeFunc tcptransportOpts;
            Decoder := Decoder tcptransportOpts;
            OnPeer := Some (fun s p => let '(err, s') := FileServer.OnPeer s p in (err, s')) |};
       listener := listener tcpTransport |} in
  ({| server := s; transport := tcpTransport |}, rand).

(** [FileServer.Start] *)
Definition Start (n : Node) (net : Network) : option error * Node * Network :=
  let '(err, t, net') := TCPTransport.ListenAndAccept (transport n) net in
  (err, {| server := server n; transport := t |}, net').

(** * Notions the properties are stated with *)

(** A plain name: not empty, not ["."], not [".."], without a separator. *)
Definition plain (c : string) : bool :=
  negb (os.is_dot c) && negb (String.eqb c "..")
  && forallb (fun a => negb (Ascii.eqb a "/")) (list_ascii_of_string c).

Definition no_dotdot (comps : list string) : bool :=
  forallb (fun c => negb (String.eqb c "..")) comps.

(** The names a path without [".."] goes through. *)
Definition clean (comps : list string) : path :=
  List.filter (fun c => negb (os.is_dot c)) comps.

(** A well-formed tree: the top is not an entry of the map, and every entry
    lies in a directory. *)
Definition fs_wf (fs : FS) : bool :=
  forallb (fun p => match p with
                    | [] => false
                    | _ => match os.entry fs (removelast p) with
                           | Some (Dir _) => true
                           | _ => false
                           end
                    end)
          (map fst (map_to_list fs)).

(** The directory of a namespace: [<root>/<id>]. *)
Definition ns_dir (s : Store) (id : string) : path :=
  clean (strings.Split (store_Root s) "/") ++ [id].

Definition no_sep (sep : ascii) (s : string) : bool :=
  forallb (fun a => negb (Ascii.eqb a sep)) (list_ascii_of_string s).

Definition hexchars (s : string) : Prop :=
  Forall (fun a => In a hex.hextable) (list_ascii_of_string s).

(** The segments of the path of a key. *)
Definition cas_segments (K : string) : list string :=
  let hashStr := hex.EncodeToString (sha1.Sum (bytes_of_string K)) in
  map (fun i => substring (i * 5) 5 hashStr) (seq 0 8).

(** The components of [<root>/<id>/<path>/<file>]. *)
Definition file_comps (s : Store) (id key : string) : list string :=
  strings.Split (store_Root s) "/" ++ [id] ++ cas_segments key
  ++ [Filename (CASPathTransformFunc key)].

Definition is_cas (s : Store) : Prop :=
  store_PathTransformFunc s = CASPathTransformFunc.

(** The tree after ["picture_0.png"] was written under ["nodeA"] on an empty
    disk. *)
Definition fs_written_A : FS :=
  match Store.Write 2 (casStore ":5000_network") ∅ "nodeA" "picture_0.png"
          {| rest := some_bytes |} with
  | Some (_, fs, _) => fs
  | None => ∅
  end.

(** A namespace directory the process may not search. *)
Definition fs_locked : FS :=
  <[ ["ggnetwork"; "node"] := Dir false ]> (<[ ["ggnetwork"] := Dir true ]> ∅).

(** Two keys of one shard, ["66a2f"], written under one namespace. *)
Definition fs_two_keys : FS :=
  let s := casStore ":5000_network" in
  match Store.Write 2 s ∅ "node" "picture_75.png" {| rest := some_bytes |} with
  | Some (_, fs1, _) =>
      match Store.Write 2 s fs1 "node" "picture_1475.png" {| rest := some_bytes |} with
      | Some (_, fs2, _) => fs2
      | None => fs1
      end
  | None => ∅
  end.

Definition fs_after_delete : FS :=
  (Store.Delete (casStore ":5000_network") fs_two_keys "node" "picture_75.png").1.

(** ** crypto/aes: the block function of FIPS 197 *)

Module rijndael.

Definition sbox : list Z :=
  [
   0x63; 0x7c; 0x77; 0x7b; 0xf2; 0x6b; 0x6f; 0xc5; 0x30; 0x01; 0x67; 0x2b; 0xfe; 0xd7; 0xab; 0x76;
   0xca; 0x82; 0xc9; 0x7d; 0xfa; 0x59; 0x47; 0xf0; 0xad; 0xd4; 0xa2; 0xaf; 0x9c; 0xa4; 0x72; 0xc0;
   0xb7; 0xfd; 0x93; 0x26; 0x36; 0x3f; 0xf7; 0xcc; 0x34; 0xa5; 0xe5; 0xf1; 0x71; 0xd8; 0x31; 0x15;
   0x04; 0xc7; 0x23; 0xc3; 0x18; 0x96; 0x05; 0x9a; 0x07; 0x12; 0x80; 0xe2; 0xeb; 0x27; 0xb2; 0x75;
   0x09; 0x83; 0x2c; 0x1a; 0x1b; 0x6e; 0x5a; 0xa0; 0x52; 0x3b; 0xd6; 0xb3; 0x29; 0xe3; 0x2f; 0x84;
   0x53; 0xd1; 0x00; 0xed; 0x20; 0xfc; 0xb1; 0x5b; 0x6a; 0xcb; 0xbe; 0x39; 0x4a; 0x4c; 0x58; 0xcf;
   0xd0; 0xef; 0xaa; 0xfb; 0x43; 0x4d; 0x33; 0x85; 0x45; 0xf9; 0x02; 0x7f; 0x50; 0x3c; 0x9f; 0xa8;
   0x51; 0xa3; 0x40; 0x8f; 0x92; 0x9d; 0x38; 0xf5; 0xbc; 0xb6; 0xda; 0x21; 0x10; 0xff; 0xf3; 0xd2;
   0xcd; 0x0c; 0x13; 0xec; 0x5f; 0x97; 0x44; 0x17; 0xc4; 0xa7; 0x7e; 0x3d; 0x64; 0x5d; 0x19; 0x73;
   0x60; 0x81; 0x4f; 0xdc; 0x22; 0x2a; 0x90; 0x88; 0x46; 0xee; 0xb8; 0x14; 0xde; 0x5e; 0x0b; 0xdb;
   0xe0; 0x32; 0x3a; 0x0a; 0x49; 0x06; 0x24; 0x5c; 0xc2; 0xd3; 0xac; 0x62; 0x91; 0x95; 0xe4; 0x79;
   0xe7; 0xc8; 0x37; 0x6d; 0x8d; 0xd5; 0x4e; 0xa9; 0x6c; 0x56; 0xf4; 0xea; 0x65; 0x7a; 0xae; 0x08;
   0xba; 0x78; 0x25; 0x2e; 0x1c; 0xa6; 0xb4; 0xc6; 0xe8; 0xdd; 0x74; 0x1f; 0x4b; 0xbd; 0x8b; 0x8a;
   0x70; 0x3e; 0xb5; 0x66; 0x48; 0x03; 0xf6; 0x0e; 0x61; 0x35; 0x57; 0xb9; 0x86; 0xc1; 0x1d; 0x9e;
   0xe1; 0xf8; 0x98; 0x11; 0x69; 0xd9; 0x8e; 0x94; 0x9b; 0x1e; 0x87; 0xe9; 0xce; 0x55; 0x28; 0xdf;
   0x8c; 0xa1; 0x89; 0x0d; 0xbf; 0xe6; 0x42; 0x68; 0x41; 0x99; 0x2d; 0x0f; 0xb0; 0x54; 0xbb; 0x16].

Definition sub (b : Z) : Z := nth (Z.to_nat b) sbox 0.

(** Multiplication by [x] in GF(2^8). *)
Definition xtime (b : Z) : Z :=
  let b2 := Z.shiftl b 1 in
  if 256 <=? b2 then Z.land (Z.lxor b2 0x11b) 255 else b2.

Definition xor_bytes (a b : bytes) : bytes :=
  map (fun xy => Z.lxor (fst xy) (snd xy)) (combine a b).

(** The key schedule, word by word, latest word first; [rc] is the round
    constant in use. *)
Fixpoint expand (n : nat) (nk i : nat) (rc : Z) (wrev : list bytes) : list bytes :=
  match n with
  | O => wrev
  | S n' =>
      let prev := hd [] wrev in
      let '(t, rc') :=
        if (i mod nk =? 0)%nat then
          match map sub (tl prev ++ firstn 1 prev) with
          | t0 :: t' => (Z.lxor t0 rc :: t', xtime rc)
          | [] => ([], xtime rc)
          end
        else if (6 <? nk)%nat && (i mod nk =? 4)%nat then (map sub prev, rc)
        else (prev, rc) in
      expand n' nk (S i) rc' (xor_bytes (nth (nk - 1) wrev []) t :: wrev)
  end.

Fixpoint chunks4 (fuel : nat) (b : bytes) : list bytes :=
  match fuel, b with
  | S fuel', _ :: _ => firstn 4 b :: chunks4 fuel' (skipn 4 b)
  | _, _ => []
  end.

(** The round keys, 16 bytes each. *)
Definition round_keys (key : bytes) : list bytes :=
  let nk := (length key / 4)%nat in
  let nr := (nk + 6)%nat in
  let w := rev (expand (4 * (nr + 1) - nk) nk nk 1 (rev (chunks4 nk key))) in
  map (fun r => concat (firstn 4 (skipn (4 * r) w))) (seq 0 (nr + 1)).

Definition shift_rows (s : bytes) : bytes :=
  map (fun i => nth i s 0) [0; 5; 10; 15; 4; 9; 14; 3; 8; 13; 2; 7; 12; 1; 6; 11]%nat.

Definition mix_column (a : bytes) : bytes :=
  let a0 := nth 0 a 0 in let a1 := nth 1 a 0 in
  let a2 := nth 2 a 0 in let a3 := nth 3 a 0 in
  [Z.lxor (Z.lxor (xtime a0) (Z.lxor (xtime a1) a1)) (Z.lxor a2 a3);
   Z.lxor (Z.lxor a0 (xtime a1)) (Z.lxor (Z.lxor (xtime a2) a2) a3);
   Z.lxor (Z.lxor a0 a1) (Z.lxor (xtime a2) (Z.lxor (xtime a3) a3));
   Z.lxor (Z.lxor (Z.lxor (xtime a0) a0) a1) (Z.lxor a2 (xtime a3))].

Definition mix_columns (s : bytes) : bytes := concat (map mix_column (chunks4 4 s)).

Definition round (last : bool) (s rk : bytes) : bytes :=
  let s := shift_rows (map sub s) in
  xor_bytes (if last then s else mix_columns s) rk.

Fixpoint rounds (s : bytes) (rks : list bytes) : bytes :=
  match rks with
  | [] => s
  | [rk] => round true s rk
  | rk :: later => rounds (round false s rk) later
  end.

(** The cipher of a block under a key. *)
Definition encrypt (key block : bytes) : bytes :=
  match round_keys key with
  | [] => block
  | rk0 :: rks => rounds (xor_bytes block rk0) rks
  end.

End rijndael.

(** The block function the examples run with. *)
#[global] Instance fips197 : AES := rijndael.encrypt.

(** A reader that holds all its bytes, as [bytes.Reader] and [bytes.Buffer]
    do: a read with a non-empty buffer takes the bytes from the front, and
    reports [io.EOF] when there are none. *)
Definition holds_bytes {R} `{io.Reader R} (mk : bytes -> R) : Prop :=
  forall data n, (0 < n)%nat ->
    io.Read (mk data) n
    = match data with
      | [] => (([], Some EOF), mk [])
      | _ => ((firstn n data, None), mk (skipn n data))
      end.

(** The payload of the test of the codec, a key of 32 bytes, and the bytes
    the random source delivers. *)
Definition test_payload : bytes := bytes_of_string "Foo not bar".
Definition test_key : bytes := map Z.of_nat (seq 0 32).
Definition test_rand : bytes := map Z.of_nat (seq 240 16).

(** A peer whose connection takes every write. *)
Definition healthy (p : TCPPeer) : Prop := write_errs (conn p) = [].

(** The peer after the writes [l] went through. *)
Definition received (p : TCPPeer) (l : list bytes) : TCPPeer :=
  TCPPeer_with_conn p
    {| RemoteAddr := RemoteAddr (conn p); incoming := incoming (conn p);
       read_err := read_err (conn p); sent := sent (conn p) ++ l;
       write_errs := write_errs (conn p); conn_closed := conn_closed (conn p) |}.

(** A writer that takes every write: [after w p] is the writer once [p] is
    written. *)
Definition accepting {W} `{io.Writer W} (ok : W -> Prop) (after : W -> bytes -> W) : Prop :=
  forall w p, ok w ->
    io.Write w p = ((Z.of_nat (length p), None), after w p) /\ ok (after w p).

(** * What the examples run with *)

(** The frame markers of the examples. *)
Definition example_markers : FrameMarkers :=
  {| IncomingMessage := 1; IncomingStream := 2 |}.

(** A stand-in for gob in the examples: a tag, the strings with their
    lengths, the size in 8 bytes. *)
Definition example_gob : Gob :=
  fun m =>
    Ok (match msg_Payload m with
        | MessageStoreFile id key size =>
            [1; Z.of_nat (String.length id)] ++ bytes_of_string id
            ++ [Z.of_nat (String.length key)] ++ bytes_of_string key
            ++ cipher.be_bytes 8 size
        | MessageGetFile id key =>
            [2; Z.of_nat (String.length id)] ++ bytes_of_string id
            ++ [Z.of_nat (String.length key)] ++ bytes_of_string key
        end).

(** A connection on which nothing arrives before the other end closes its
    side (a read answers [io.EOF]); it can still be written to, and the
    writes in [errs] will fail. *)
Definition example_conn (addr : string) (errs : list (option error)) : Conn :=
  {| RemoteAddr := addr; incoming := []; read_err := EOF; sent := [];
     write_errs := errs; conn_closed := false |}.

Definition example_opts : FileServerOpts :=
  {| ID := "node"; EncKey := map Z.of_nat (seq 0 32);
     StorageRoot := ":5000_network";
     opts_PathTransformFunc := Some CASPathTransformFunc;
     BootstrapNodes := [":3000"; ":7000"] |}.

(** A server with two peers; the first peer fails the writes in [errs]. *)
Definition example_server (errs : list (option error)) : FileServer :=
  let s := (FileServer.NewFileServer example_opts []).1 in
  let s := (FileServer.OnPeer s (NewTCPPeer (example_conn ":3000" errs) true)).2 in
  (FileServer.OnPeer s (NewTCPPeer (example_conn ":7000" []) true)).2.

Definition example_world : World :=
  {| disk := ∅; entropy := map Z.of_nat (seq 240 16) |}.

(** The message [Store] broadcasts for ["picture_0.png"] and 22 bytes, as
    the stand-in for gob encodes it. *)
Definition example_message : Message :=
  {| msg_Payload := MessageStoreFile "node" (hashKey "picture_0.png") (22 + 16) |}.

Definition example_buf : bytes :=
  match @gob_Encode example_gob example_message with
  | Ok buf => buf
  | Err _ => []
  end.

(** The file of ["picture_0.png"] in the store of the example server. *)
Definition example_file : os.File_ :=
  {| os.Name := [":5000_network"; "node"; "d44bb"; "d0bbd"; "a685d"; "5db90";
                 "f4195"; "68b53"; "1ab9a"; "fa97b";
                 "d44bbd0bbda685d5db90f419568b531ab9afa97b"] |}.

Definition example_opened : FS :=
  (Store.openFileForWriting (store (example_server [])) ∅ "node" "picture_0.png").1.

(** A network on which the two bootstrap nodes listen. *)
Definition example_network : Network :=
  {| listeners := [":3000"; ":7000"]; events := [] |}.

Definition example_node : Node :=
  (@makeServer example_markers ":5000" [":3000"; ":7000"] (repeat 7 64)).1.

(** What the connection still delivers once one byte of the delivery
    [m :: b] was read. *)
Definition after_byte (b : bytes) (more : list bytes) : list bytes :=
  match b with [] => more | _ => b :: more end.

(** A connection the other end has closed: there is nothing to deliver, and
    every read answers [io.EOF]. *)
Definition example_closed_conn : Conn := example_conn ":4000" [].

(** A connection that delivers the marker of a stream, three bytes of
    stream and a message frame, and its task. *)
Definition example_stream_conn : Conn :=
  {| RemoteAddr := ":4000"; incoming := [[2]; [10; 20; 30]; [1; 7; 8]];
     read_err := EOF; sent := []; write_errs := []; conn_closed := false |}.

Definition example_task : Task FileServer :=
  TCPTransport.handleConn (transport example_node) (server example_node) []
    example_stream_conn false.

(** The path [target] is free for a file: the directories on the way are
    missing or accessible, and [target] itself is missing or a file. *)
Definition free_path (fs : FS) (target : path) : Prop :=
  (forall p, p `prefix_of` target -> p <> target ->
     os.entry fs p = None \/ os.entry fs p = Some (Dir true))
  /\ (fs !! target = None \/ exists d, fs !! target = Some (File d)).

(** The disk once the store of the examples is cleared. *)
Definition fs_after_clear : FS :=
  (Store.Clear (casStore ":5000_network") fs_after_write).1.

(** A server with three peers; the second takes the marker and fails the
    write that follows. *)
Definition example_three_peers : FileServer :=
  let s := (FileServer.NewFileServer example_opts []).1 in
  let s := (FileServer.OnPeer s (NewTCPPeer (example_conn ":3000" []) true)).2 in
  let s := (FileServer.OnPeer s
              (NewTCPPeer (example_conn ":7000" [None; Some (NetError "broken pipe")])
                          true)).2 in
  (FileServer.OnPeer s (NewTCPPeer (example_conn ":9000" []) true)).2.

(** The server of the examples when no key was set. *)
Definition example_keyless : FileServer :=
  let s := example_server [] in
  {| opts := {| ID := ID (opts s); EncKey := []; StorageRoot := StorageRoot (opts s);
                opts_PathTransformFunc := opts_PathTransformFunc (opts s);
                BootstrapNodes := BootstrapNodes (opts s) |};
     peers := peers s; store := store s |}.

(** The server of the examples, with one peer whose connection delivers
    [inc]; the read loop of the peer waits for [n] streams. *)
Definition example_fetcher (inc : list bytes) (n : Z) : FileServer :=
  let s := (FileServer.NewFileServer example_opts []).1 in
  with_peers s
    [(":3000", {| conn := Conn_with_incoming (example_conn ":3000" []) inc;
                  outbound := true; wg := n |})].

(** The request of the examples for ["picture_0.png"], as the stand-in for
    gob encodes it. *)
Definition example_request : bytes :=
  match @gob_Encode example_gob
          {| msg_Payload := MessageGetFile "node" (hashKey "picture_0.png") |} with
  | Ok buf => buf
  | Err _ => []
  end.

(** A reader limited to the bytes [d], which the connection of the peer
    holds as its next delivery; [later] is what it delivers after. *)
Definition limited (p : TCPPeer) (later : list bytes) (d : bytes)
  : io.LimitedReader TCPPeer :=
  {| io.lr_R := TCPPeer_with_conn p
                  (Conn_with_incoming (conn p)
                     match d with [] => later | _ => d :: later end);
     io.lr_N := Z.of_nat (length d) |}.

(** An open file as a writer that takes every write. *)
Definition file_open (ff : FS * os.File_) : Prop :=
  exists d, ff.1 !! os.Name ff.2 = Some (File d).

Definition file_appended (ff : FS * os.File_) (b : bytes) : FS * os.File_ :=
  ((os.File_Write ff.1 ff.2 b).1, ff.2).

(** What [copyEncrypt] makes of the bytes of the examples under the key of
    the examples, with the initialization value [test_rand]. *)
Definition example_blob : bytes :=
  test_rand
    ++ cipher.xor_from
         (cipher.NewCTR {| aes.Encrypt := @aes_encryptBlock fips197 (EncKey example_opts) |}
                        test_rand)
         0 some_bytes.

(** The server and the world of the examples once ["picture_0.png"] is
    stored. *)
Definition example_stored : FileServer * World :=
  match @FileServer.Store _ fips197 example_gob example_markers _
          23 (example_server []) example_world "picture_0.png" {| rest := some_bytes |} with
  | Some (_, s, w, _) => (s, w)
  | None => (example_server [], example_world)
  end.

(** A connection that delivers a marker byte and is then closed, and its
    task. *)
Definition example_cut_conn : Conn :=
  Conn_with_incoming (example_conn ":4000" []) [[1]].

Definition example_cut_task : Task FileServer :=
  TCPTransport.handleConn (transport example_node) (server example_node) []
    example_cut_conn false.

(** What the channel may hold. *)
Definition framed (addr : string) (rpc : RPC) : Prop :=
  From rpc = addr /\ Stream rpc = false /\ (length (Payload rpc) <= 1028)%nat.

(** The connection of the examples when it delivers a message, the marker
    of a stream and a stream of three bytes, and its task. *)
Definition example_framed_task : Task FileServer :=
  TCPTransport.handleConn (transport example_node) (server example_node) []
    (Conn_with_incoming (example_conn ":4000" []) [[1]; [7; 8]; [2]; [10; 20; 30]]) false.

(** The same bytes in one delivery. *)
Definition example_coalesced_task : Task FileServer :=
  TCPTransport.handleConn (transport example_node) (server example_node) []
    (Conn_with_incoming (example_conn ":4000" []) [[1; 7; 8; 2; 10; 20; 30]]) false.

(** The other end has closed the connection: nothing more arrives, and
    every read answers [io.EOF] at once. *)
Definition remote_closed (c : Conn) : Prop :=
  incoming c = [] /\ read_err c = EOF.

(** What [copyEncrypt] writes for the payload of [TestCopyEncryptDecrypt]. *)
Definition test_blob : bytes :=
  match copyEncrypt 12 test_rand test_key {| rest := test_payload |} {| unread := [] |} with
  | Some (_, _, _, dst) => unread dst
  | None => []
  end.

(** A connection on which [test_blob] arrives in two segments, of 10 and of
    17 bytes. *)
Definition example_segmented_conn : Conn :=
  Conn_with_incoming (example_conn ":3000" []) [firstn 10 test_blob; skipn 10 test_blob].

(** A connection that delivers the marker of a stream, three bytes of
    stream and then the message frame [1; 7; 8] in two segments, and its
    task. *)
Definition example_split_conn : Conn :=
  Conn_with_incoming (example_conn ":4000" []) [[2]; [10; 20; 30]; [1; 7]; [8]].

Definition example_split_task : Task FileServer :=
  TCPTransport.handleConn (transport example_node) (server example_node) []
    example_split_conn false.

(** * Properties *)

(** ** The models of the libraries agree with their test vectors, and the
    store runs *)

Example sha1_abc :
  hex.EncodeToString (sha1.Sum (bytes_of_string "abc"))
  = "a9993e364706816aba3e25717850c26c9cd0d89d".
Proof. vm_compute. reflexivity. Qed.

Example sha1_empty :
  hex.EncodeToString (sha1.Sum (bytes_of_string ""))
  = "da39a3ee5e6b4b0d3255bfef95601890afd80709".
Proof. vm_compute. reflexivity. Qed.

Example sha1_two_blocks :
  hex.EncodeToString (sha1.Sum (bytes_of_string
    "The quick brown fox jumps over the lazy dog, and then the dog chases the fox around the yard twice."))
  = "807710f45e74d8f73f04e53a6860bca29b341507".
Proof. vm_compute. reflexivity. Qed.

Example sha1_padding_spills :
  hex.EncodeToString (sha1.Sum (repeat 97 56))
  = "c2db330f6083854c99d4b5bfb6e8f29f201be699".
Proof. vm_compute. reflexivity. Qed.

Example cas_picture_0 :
  CASPathTransformFunc "picture_0.png"
  = {| PathName := "d44bb/d0bbd/a685d/5db90/f4195/68b53/1ab9a/fa97b";
       Filename := "d44bbd0bbda685d5db90f419568b531ab9afa97b" |}.
Proof. vm_compute. reflexivity. Qed.

Example write_then_has :
  Store.Has (casStore ":5000_network") fs_after_write "node" "picture_0.png" = true
  /\ Store.Has (casStore ":5000_network") fs_after_write "node" "picture_1.png" = false
  /\ Store.Has (casStore ":5000_network") fs_after_write "other" "picture_0.png" = false.
Proof. vm_compute. auto. Qed.

Example write_then_read :
  match Store.Read (casStore ":5000_network") fs_after_write "node" "picture_0.png" with
  | Ok (n, f) => n = 22 /\ os.File_contents fs_after_write f = Ok some_bytes
  | Err _ => False
  end.
Proof. vm_compute. auto. Qed.

Example write_then_delete :
  let s := casStore ":5000_network" in
  match Store.Delete s fs_after_write "node" "picture_0.png" with
  | (fs, err) => err = None /\ Store.Has s fs "node" "picture_0.png" = false
                 /\ fs !! [":5000_network"; "node"] = Some (Dir true)
  end.
Proof. vm_compute. auto. Qed.

Example md5_abc :
  hashKey "abc" = "900150983cd24fb0d6963f7d28e17f72"
  /\ hashKey "" = "d41d8cd98f00b204e9800998ecf8427e".
Proof. vm_compute. auto. Qed.

Example md5_two_blocks :
  hex.EncodeToString (md5.Sum (bytes_of_string
    "The quick brown fox jumps over the lazy dog, and then the dog chases the fox around the yard twice."))
  = "f7d81fe0307016c9a926c488d5a7caef".
Proof. vm_compute. reflexivity. Qed.

(** ** The content-addressed path (C2) *)

Lemma land_255_is_byte w : is_byte (Z.land w 255).
Proof.
  unfold is_byte. change 255 with (Z.ones 8). rewrite Z.land_ones by lia.
  apply Z.mod_pos_bound. lia.
Qed.

Lemma sha1_word_bytes_is_byte w : Forall is_byte (sha1.word_bytes w).
Proof. unfold sha1.word_bytes. repeat constructor; apply land_255_is_byte. Qed.

Lemma sha1_Sum_length msg : length (sha1.Sum msg) = 20%nat.
Proof.
  unfold sha1.Sum. destruct (sha1.digest msg) as [[[[h0 h1] h2] h3] h4].
  reflexivity.
Qed.

Lemma sha1_Sum_is_byte msg : Forall is_byte (sha1.Sum msg).
Proof.
  unfold sha1.Sum. destruct (sha1.digest msg) as [[[[h0 h1] h2] h3] h4].
  repeat (apply Forall_app; split); apply sha1_word_bytes_is_byte.
Qed.

Lemma hextable_NoDup : NoDup hex.hextable.
Proof. apply (bool_decide_unpack _). vm_compute. reflexivity. Qed.

Lemma digit_inj a b : 0 <= a < 16 -> 0 <= b < 16 -> hex.digit a = hex.digit b -> a = b.
Proof.
  intros Ha Hb Hd. unfold hex.digit in Hd.
  assert (Z.to_nat a = Z.to_nat b) as Hn; [|lia].
  eapply (proj1 (List.NoDup_nth hex.hextable "0"%char)); try exact Hd.
  - apply NoDup_ListNoDup, hextable_NoDup.
  - change (length hex.hextable) with 16%nat. lia.
  - change (length hex.hextable) with 16%nat. lia.
Qed.

Lemma byte_nibbles v : is_byte v ->
  0 <= Z.shiftr v 4 < 16 /\ 0 <= Z.land v 15 < 16 /\ v = 16 * Z.shiftr v 4 + Z.land v 15.
Proof.
  unfold is_byte. intros Hv.
  rewrite Z.shiftr_div_pow2 by lia. change (2 ^ 4) with 16.
  change 15 with (Z.ones 4). rewrite Z.land_ones by lia. change (2 ^ 4) with 16.
  pose proof (Z.div_mod v 16). pose proof (Z.mod_pos_bound v 16).
  assert (0 <= v / 16 < 16) by (split; [apply Z.div_pos; lia | apply Z.div_lt_upper_bound; lia]).
  lia.
Qed.

Lemma EncodeToString_inj l1 l2 :
  Forall is_byte l1 -> Forall is_byte l2 ->
  hex.EncodeToString l1 = hex.EncodeToString l2 -> l1 = l2.
Proof.
  intros H1. revert l2. induction H1 as [|v l1 Hv _ IH]; intros l2 H2 He.
  - destruct l2; [reflexivity | discriminate].
  - destruct H2 as [|v' l2 Hv' H2]; [discriminate|].
    simpl in He. injection He as Hhi Hlo Hrest.
    destruct (byte_nibbles v Hv) as (? & ? & Ev).
    destruct (byte_nibbles v' Hv') as (? & ? & Ev').
    apply digit_inj in Hhi; [|assumption..].
    apply digit_inj in Hlo; [|assumption..].
    f_equal; [lia | by apply IH].
Qed.

Lemma EncodeToString_length l : String.length (hex.EncodeToString l) = (2 * length l)%nat.
Proof. induction l as [|v l IH]; simpl; [reflexivity | rewrite IH; lia]. Qed.

Lemma segments_of_40 (s : string) :
  String.length s = 40%nat ->
  let segs := map (fun i => substring (i * 5) (i * 5 + 5 - i * 5) s) (seq 0 (String.length s / 5)) in
  length segs = 8%nat /\ Forall (fun x => String.length x = 5%nat) segs
  /\ String.concat "" segs = s.
Proof.
  intros Hlen. rewrite Hlen.
  do 40 (destruct s as [|? s]; [discriminate|]).
  destruct s; [|discriminate].
  cbv zeta. split; [reflexivity|]. split; [|reflexivity].
  repeat constructor.
Qed.

(** C2: the path of a key is a function of the key alone; its file name is
    the SHA1 digest of the key in hexadecimal, its directory part is that
    digest cut into 8 consecutive segments of 5 characters joined by "/";
    two keys get different file names exactly when their digests differ. *)
Theorem CASPathTransformFunc_spec (K : string) :
  let digest := hex.EncodeToString (sha1.Sum (bytes_of_string K)) in
  let pk := CASPathTransformFunc K in
  (forall K1 K2, K1 = K2 -> CASPathTransformFunc K1 = CASPathTransformFunc K2)
  /\ Filename pk = digest
  /\ (exists segs, length segs = 8%nat
        /\ Forall (fun x => String.length x = 5%nat) segs
        /\ String.concat "" segs = digest
        /\ PathName pk = strings.Join segs "/")
  /\ (forall K', Filename pk <> Filename (CASPathTransformFunc K')
                 <-> sha1.Sum (bytes_of_string K) <> sha1.Sum (bytes_of_string K')).
Proof.
  intros digest pk. split; [by intros ? ? ->|]. split; [reflexivity|]. split.
  - assert (String.length digest = 40%nat) as Hlen.
    { unfold digest. rewrite EncodeToString_length, sha1_Sum_length. reflexivity. }
    destruct (segments_of_40 digest Hlen) as (H8 & H5 & Hcat).
    eexists. split; [exact H8|]. split; [exact H5|]. split; [exact Hcat|].
    reflexivity.
  - intros K'. unfold pk, CASPathTransformFunc. cbn [Filename]. split.
    + intros Hne Heq. apply Hne. by rewrite Heq.
    + intros Hne Heq. apply Hne.
      apply EncodeToString_inj in Heq; auto using sha1_Sum_is_byte.
Qed.

(** ** Paths as strings *)

Lemma Split_nonnil s sep : strings.Split s sep <> [].
Proof.
  destruct s as [|c s]; simpl; [discriminate|].
  destruct (Ascii.eqb c sep); [discriminate|].
  destruct (strings.Split s sep); discriminate.
Qed.

Lemma Split_app a b sep :
  strings.Split (a ++ String sep b) sep = strings.Split a sep ++ strings.Split b sep.
Proof.
  induction a as [|c a IH]; simpl.
  - rewrite Ascii.eqb_refl. reflexivity.
  - destruct (Ascii.eqb c sep); [by rewrite IH|].
    rewrite IH. destruct (strings.Split a sep) eqn:E; [by apply Split_nonnil in E|].
    reflexivity.
Qed.

Lemma Split_no_sep s sep : no_sep sep s = true -> strings.Split s sep = [s].
Proof.
  unfold no_sep. induction s as [|c s IH]; simpl; [reflexivity|].
  intros [Hc Hs]%andb_prop. rewrite (negb_true_iff _) in Hc. rewrite Hc, IH by done.
  reflexivity.
Qed.

Lemma Split_Sprintf3 a b c :
  strings.Split (Sprintf3 a b c) "/"
  = strings.Split a "/" ++ strings.Split b "/" ++ strings.Split c "/".
Proof.
  unfold Sprintf3.
  change (a ++ "/" ++ b ++ "/" ++ c)%string with (a ++ String "/" (b ++ String "/" c))%string.
  by rewrite !Split_app.
Qed.

Lemma Sprintf3_nonempty a b c : String.eqb (Sprintf3 a b c) "" = false.
Proof. unfold Sprintf3. destruct a; reflexivity. Qed.

Lemma plain_spec c :
  plain c = true ->
  os.is_dot c = false /\ String.eqb c ".." = false /\ strings.Split c "/" = [c].
Proof.
  unfold plain. intros [[H1 H2]%andb_prop H3]%andb_prop.
  apply negb_true_iff in H1, H2. repeat split; try done.
  by apply Split_no_sep.
Qed.

Lemma digit_in_table n : In (hex.digit n) hex.hextable.
Proof.
  unfold hex.digit. destruct (Nat.lt_ge_cases (Z.to_nat n) (length hex.hextable)) as [Hlt|Hge].
  - by apply nth_In.
  - rewrite nth_overflow by done. left. reflexivity.
Qed.

Lemma EncodeToString_hexchars l : hexchars (hex.EncodeToString l).
Proof.
  unfold hexchars. induction l as [|v l IH]; simpl; [constructor|].
  constructor; [apply digit_in_table|]. constructor; [apply digit_in_table|]. exact IH.
Qed.

Lemma substring_hexchars s n m : hexchars s -> hexchars (substring n m s).
Proof.
  unfold hexchars. revert n m. induction s as [|c s IH]; intros n m Hs.
  - destruct n, m; simpl; constructor.
  - inversion Hs as [|? ? Hc Hs']; subst.
    destruct n as [|n]; destruct m as [|m]; simpl; try constructor; auto.
Qed.

Lemma hexchar_not_special a :
  In a hex.hextable -> Ascii.eqb a "/" = false /\ Ascii.eqb a "." = false.
Proof.
  unfold hex.hextable. simpl.
  intros H. repeat (destruct H as [<-|H]; [by split|]). destruct H.
Qed.

Lemma hexchars_plain s : s <> "" -> hexchars s -> plain s = true.
Proof.
  intros Hne Hs. unfold plain. rewrite !andb_true_iff. split; [split|].
  - destruct s as [|c s]; [done|]. inversion Hs as [|? ? Hc _]; subst.
    apply hexchar_not_special in Hc as [_ Hc].
    unfold os.is_dot. simpl. by rewrite Hc.
  - destruct s as [|c s]; [done|]. inversion Hs as [|? ? Hc _]; subst.
    apply hexchar_not_special in Hc as [_ Hc]. simpl. by rewrite Hc.
  - clear Hne. induction Hs as [|c l Hc _ IH]; simpl; [done|].
    apply hexchar_not_special in Hc as [Hc _]. by rewrite Hc, IH.
Qed.

Lemma Split_Join segs :
  segs <> [] -> Forall (fun x => plain x = true) segs ->
  strings.Split (strings.Join segs "/") "/" = segs.
Proof.
  intros Hne Hs. unfold strings.Join.
  induction Hs as [|x l Hx Hl IH]; [done|].
  destruct l as [|y l].
  - simpl. by apply plain_spec in Hx as (_ & _ & ->).
  - change (String.concat "/" (x :: y :: l)) with (x ++ String "/" (String.concat "/" (y :: l)))%string.
    rewrite Split_app, IH by done. by apply plain_spec in Hx as (_ & _ & ->).
Qed.

Lemma digest_length K :
  String.length (hex.EncodeToString (sha1.Sum (bytes_of_string K))) = 40%nat.
Proof. by rewrite EncodeToString_length, sha1_Sum_length. Qed.

Lemma CAS_PathName K :
  PathName (CASPathTransformFunc K) = strings.Join (cas_segments K) "/".
Proof.
  unfold CASPathTransformFunc, cas_segments. cbn [PathName].
  rewrite digest_length. reflexivity.
Qed.

Lemma cas_segments_spec K :
  length (cas_segments K) = 8%nat
  /\ Forall (fun x => String.length x = 5%nat) (cas_segments K)
  /\ String.concat "" (cas_segments K) = hex.EncodeToString (sha1.Sum (bytes_of_string K)).
Proof.
  pose proof (segments_of_40 _ (digest_length K)) as H.
  rewrite digest_length in H. exact H.
Qed.

Lemma cas_segments_plain K : Forall (fun x => plain x = true) (cas_segments K).
Proof.
  destruct (cas_segments_spec K) as (_ & H5 & _).
  assert (Forall hexchars (cas_segments K)) as Hh.
  { unfold cas_segments. apply Forall_map, Forall_forall. intros i _. simpl.
    apply substring_hexchars, EncodeToString_hexchars. }
  rewrite Forall_forall in H5, Hh. apply Forall_forall. intros x Hx.
  apply hexchars_plain; [|by apply Hh].
  intros ->. by specialize (H5 _ Hx).
Qed.

Lemma CAS_Filename_plain K : plain (Filename (CASPathTransformFunc K)) = true.
Proof.
  apply hexchars_plain; [|apply EncodeToString_hexchars].
  intros E. pose proof (digest_length K) as Hlen.
  unfold CASPathTransformFunc in E. cbn [Filename] in E. by rewrite E in Hlen.
Qed.

Lemma CAS_Split_PathName K :
  strings.Split (PathName (CASPathTransformFunc K)) "/" = cas_segments K.
Proof.
  rewrite CAS_PathName. apply Split_Join; [|apply cas_segments_plain].
  destruct (cas_segments_spec K) as (H8 & _). by destruct (cas_segments K).
Qed.

Lemma CAS_Split_FullPath K :
  strings.Split (FullPath (CASPathTransformFunc K)) "/"
  = cas_segments K ++ [Filename (CASPathTransformFunc K)].
Proof.
  unfold FullPath.
  change (?a ++ "/" ++ ?b)%string with (a ++ String "/" b)%string.
  rewrite Split_app, CAS_Split_PathName.
  by destruct (plain_spec _ (CAS_Filename_plain K)) as (_ & _ & ->).
Qed.

Lemma CAS_FirstPathName K :
  FirstPathName (CASPathTransformFunc K)
  = substring 0 5 (hex.EncodeToString (sha1.Sum (bytes_of_string K))).
Proof. unfold FirstPathName. rewrite CAS_Split_PathName. reflexivity. Qed.

Lemma CAS_FirstPathName_plain K : plain (FirstPathName (CASPathTransformFunc K)) = true.
Proof.
  pose proof (cas_segments_plain K) as H. unfold FirstPathName.
  rewrite CAS_Split_PathName. unfold cas_segments in *. simpl in *.
  by inversion H.
Qed.

(** ** Path resolution *)

Lemma walk_app fs cur xs ys :
  os.walk fs cur (xs ++ ys)
  = match os.walk fs cur xs with
    | Ok p => os.walk fs p ys
    | Err e => Err e
    end.
Proof.
  revert cur. induction xs as [|c xs IH]; intros cur; simpl.
  - reflexivity.
  - destruct (os.entry fs cur) as [[|[]]|]; try reflexivity.
    destruct (os.is_dot c); [apply IH|].
    destruct (String.eqb c ".."); [apply IH|].
    destruct (fs !! (cur ++ [c])); [apply IH | reflexivity].
Qed.

Lemma mkdir_walk_app fs cur xs ys :
  os.mkdir_walk fs cur (xs ++ ys)
  = match os.mkdir_walk fs cur xs with
    | (fs', Ok p) => os.mkdir_walk fs' p ys
    | (fs', Err e) => (fs', Err e)
    end.
Proof.
  revert fs cur. induction xs as [|c xs IH]; intros fs cur; simpl.
  - reflexivity.
  - destruct (os.entry fs cur) as [[|[]]|]; try reflexivity.
    destruct (os.is_dot c); [apply IH|].
    destruct (String.eqb c ".."); [apply IH|].
    destruct (fs !! (cur ++ [c])); apply IH.
Qed.

(** A step through a plain name. *)
Lemma walk_plain_cons fs cur c cs :
  plain c = true ->
  os.walk fs cur (c :: cs)
  = match os.entry fs cur with
    | None => Err (PathError ENOENT)
    | Some (File _) => Err (PathError ENOTDIR)
    | Some (Dir false) => Err (PathError EACCES)
    | Some (Dir true) =>
        match fs !! (cur ++ [c]) with
        | None => Err (PathError ENOENT)
        | Some _ => os.walk fs (cur ++ [c]) cs
        end
    end.
Proof.
  intros (Hd & Hdd & _)%plain_spec. simpl. by rewrite Hd, Hdd.
Qed.

Lemma entry_app_cons fs p c : os.entry fs (p ++ [c]) = fs !! (p ++ [c]).
Proof. by destruct p. Qed.

Lemma entry_nonnil fs p : p <> [] -> os.entry fs p = fs !! p.
Proof. by destruct p. Qed.

(** Where a walk without [".."] ends. *)
Lemma walk_position fs cur comps p :
  no_dotdot comps = true -> os.walk fs cur comps = Ok p -> p = cur ++ clean comps.
Proof.
  revert cur. induction comps as [|c cs IH]; intros cur Hnd Hw; simpl in *.
  - injection Hw as <-. by rewrite app_nil_r.
  - apply andb_prop in Hnd as [Hc Hnd]. apply negb_true_iff in Hc.
    destruct (os.entry fs cur) as [[|[]]|]; try discriminate.
    rewrite Hc in Hw. destruct (os.is_dot c) eqn:Hd; simpl.
    + by apply IH.
    + destruct (fs !! (cur ++ [c])); [|discriminate].
      apply IH in Hw; [|done]. by rewrite Hw, <- app_assoc.
Qed.

Lemma mkdir_walk_position fs cur comps fs' p :
  no_dotdot comps = true -> os.mkdir_walk fs cur comps = (fs', Ok p) ->
  p = cur ++ clean comps.
Proof.
  revert fs cur. induction comps as [|c cs IH]; intros fs cur Hnd Hw; simpl in *.
  - injection Hw as _ <-. by rewrite app_nil_r.
  - apply andb_prop in Hnd as [Hc Hnd]. apply negb_true_iff in Hc.
    destruct (os.entry fs cur) as [[|[]]|]; try discriminate.
    rewrite Hc in Hw. destruct (os.is_dot c) eqn:Hd; simpl.
    + by eapply IH.
    + destruct (fs !! (cur ++ [c])); apply IH in Hw; try done;
        by rewrite Hw, <- app_assoc.
Qed.

(** A walk that ends with a plain name ends on an entry. *)
Lemma walk_last_plain fs cur comps c p :
  plain c = true -> os.walk fs cur (comps ++ [c]) = Ok p ->
  p <> [] /\ is_Some (fs !! p).
Proof.
  intros Hc. rewrite walk_app. destruct (os.walk fs cur comps) as [q|]; [|done].
  rewrite walk_plain_cons by done.
  destruct (os.entry fs q) as [[|[]]|]; try done.
  destruct (fs !! (q ++ [c])) eqn:E; [|done]. simpl. intros [= <-].
  split; [by destruct q | by rewrite E].
Qed.

(** Only the entries between the start and the end of a walk matter. *)
Lemma walk_frame fs fs' cur comps :
  no_dotdot comps = true ->
  (forall p, cur `prefix_of` p -> p `prefix_of` cur ++ clean comps ->
             os.entry fs' p = os.entry fs p) ->
  os.walk fs' cur comps = os.walk fs cur comps.
Proof.
  revert cur. induction comps as [|c cs IH]; intros cur Hnd Hsame; simpl in *.
  - reflexivity.
  - apply andb_prop in Hnd as [Hc Hnd]. apply negb_true_iff in Hc.
    rewrite (Hsame cur) by (done || by apply prefix_app_r).
    destruct (os.entry fs cur) as [[|[]]|]; try reflexivity.
    rewrite Hc. destruct (os.is_dot c) eqn:Hd; simpl in Hsame.
    + by apply IH.
    + rewrite <- !entry_app_cons.
      rewrite (Hsame (cur ++ [c])).
      * destruct (os.entry fs (cur ++ [c])); [|done]. apply IH; [done|].
        intros p Hp1 Hp2. apply Hsame.
        -- etrans; [|exact Hp1]. by apply prefix_app_r.
        -- by rewrite <- app_assoc in Hp2.
      * by apply prefix_app_r.
      * apply prefix_app, prefix_cons, prefix_nil.
Qed.

(** ** Well-formed trees *)

Lemma fs_wf_spec (fs : FS) :
  fs_wf fs = true <->
  forall p n, fs !! p = Some n ->
              p <> [] /\ exists b, os.entry fs (removelast p) = Some (Dir b).
Proof.
  unfold fs_wf. rewrite forallb_forall. split.
  - intros H p n Hp.
    assert (In p (map fst (map_to_list fs))) as Hin.
    { apply in_map_iff. exists (p, n). split; [done|].
      apply list_elem_of_In. by apply elem_of_map_to_list. }
    specialize (H p Hin). destruct p as [|c p]; [done|]. split; [done|].
    destruct (os.entry fs (removelast (c :: p))) as [[|b]|]; try done. by exists b.
  - intros H p Hin. apply in_map_iff in Hin as ([p' n] & <- & Hin).
    apply list_elem_of_In, elem_of_map_to_list in Hin. simpl.
    destruct (H _ _ Hin) as [Hne [b Hb]]. destruct p' as [|c p']; [done|].
    by rewrite Hb.
Qed.

Lemma fs_wf_empty : fs_wf ∅ = true.
Proof. reflexivity. Qed.

Lemma removelast_snoc {A} (l : list A) x : removelast (l ++ [x]) = l.
Proof. by rewrite removelast_app, app_nil_r. Qed.

(** Below a missing entry there is nothing. *)
Lemma wf_descendants (fs : FS) p q :
  fs_wf fs = true -> p <> [] -> fs !! p = None -> fs !! (p ++ q) = None.
Proof.
  intros Hwf Hp Hnone. induction q as [|x q IH] using rev_ind.
  - by rewrite app_nil_r.
  - destruct (fs !! (p ++ q ++ [x])) as [n|] eqn:E; [|done].
    apply (proj1 (fs_wf_spec fs) Hwf) in E as [_ [b Hb]].
    rewrite app_assoc, removelast_snoc in Hb.
    rewrite entry_nonnil in Hb by (by destruct p). congruence.
Qed.

(** ** Making directories *)

(** [mkdir_walk] keeps what is there. *)
Lemma mkdir_walk_mono fs cur comps fs' r p n :
  os.mkdir_walk fs cur comps = (fs', r) -> fs !! p = Some n -> fs' !! p = Some n.
Proof.
  revert fs cur. induction comps as [|c cs IH]; intros fs cur Hw Hp; simpl in Hw.
  - by injection Hw as <- _.
  - destruct (os.entry fs cur) as [[|[]]|]; try by injection Hw as <- _.
    destruct (os.is_dot c); [by eapply IH|].
    destruct (String.eqb c ".."); [by eapply IH|].
    destruct (fs !! (cur ++ [c])) eqn:E; [by eapply IH|].
    eapply IH; [exact Hw|]. rewrite lookup_insert_ne; [done|]. congruence.
Qed.

Lemma mkdir_walk_entry_mono fs cur comps fs' r p n :
  os.mkdir_walk fs cur comps = (fs', r) -> os.entry fs p = Some n -> os.entry fs' p = Some n.
Proof. destruct p; [done|]. apply mkdir_walk_mono. Qed.

(** What [mkdir_walk] adds: accessible directories, at places where there
    was nothing, along the way. *)
Lemma mkdir_walk_changes fs cur comps fs' r p :
  no_dotdot comps = true ->
  os.mkdir_walk fs cur comps = (fs', r) ->
  fs' !! p = fs !! p
  \/ (fs !! p = None /\ fs' !! p = Some (Dir true)
      /\ exists k, (0 < k)%nat /\ p = cur ++ firstn k (clean comps)).
Proof.
  revert fs cur. induction comps as [|c cs IH]; intros fs cur Hnd Hw; simpl in *.
  - injection Hw as <- _. by left.
  - apply andb_prop in Hnd as [Hc Hnd]. apply negb_true_iff in Hc.
    destruct (os.entry fs cur) as [[|[]]|]; try (injection Hw as <- _; by left).
    rewrite Hc in Hw. destruct (os.is_dot c) eqn:Hd; simpl.
    { by eapply IH. }
    assert (forall fs0, os.mkdir_walk fs0 (cur ++ [c]) cs = (fs', r) ->
              fs' !! p = fs0 !! p
              \/ (fs0 !! p = None /\ fs' !! p = Some (Dir true)
                  /\ exists k, (0 < k)%nat /\ p = cur ++ firstn k (c :: clean cs))) as Hstep.
    { intros fs0 Hw0. destruct (IH _ _ Hnd Hw0) as [?|(? & ? & k & Hk & ->)]; [by left|].
      right. split; [done|]. split; [done|]. exists (S k). split; [lia|].
      by rewrite <- app_assoc. }
    destruct (fs !! (cur ++ [c])) eqn:E; [by apply Hstep|].
    destruct (Hstep _ Hw) as [Heq|(Hn & Hs & k & Hk & ->)].
    + destruct (decide (p = cur ++ [c])) as [->|Hne].
      * right. rewrite lookup_insert_eq in Heq. split; [done|]. split; [done|].
        exists 1%nat. split; [lia|]. reflexivity.
      * left. by rewrite lookup_insert_ne in Heq.
    + right. split; [|split; [done|by exists k]].
      destruct (decide (cur ++ firstn k (c :: clean cs) = cur ++ [c])) as [Heq|Hne].
      * by rewrite Heq.
      * by rewrite lookup_insert_ne in Hn.
Qed.

Lemma snoc_ne {A} (l : list A) x q : q <> [] -> l ++ x :: q <> l ++ [x].
Proof.
  intros Hq E. apply (f_equal length) in E. rewrite !length_app in E.
  destruct q; [done|]. simpl in E. lia.
Qed.

Lemma snoc_ne_self {A} (l : list A) x : l <> l ++ [x].
Proof.
  intros E. apply (f_equal length) in E. rewrite length_app in E. simpl in E. lia.
Qed.

Lemma entry_insert_ne (fs : FS) p q n :
  p <> q -> os.entry (<[q := n]> fs) p = os.entry fs p.
Proof. intros Hne. destruct p; [done|]. simpl. by rewrite lookup_insert_ne. Qed.

Lemma walk_cons_dot fs cur c cs :
  os.is_dot c = true -> os.entry fs cur = Some (Dir true) ->
  os.walk fs cur (c :: cs) = os.walk fs cur cs.
Proof. intros Hd Hcur. simpl. by rewrite Hcur, Hd. Qed.

Lemma walk_cons_name fs cur c cs n :
  os.is_dot c = false -> String.eqb c ".." = false ->
  os.entry fs cur = Some (Dir true) -> fs !! (cur ++ [c]) = Some n ->
  os.walk fs cur (c :: cs) = os.walk fs (cur ++ [c]) cs.
Proof. intros Hd Hc Hcur Hn. simpl. by rewrite Hcur, Hd, Hc, Hn. Qed.

(** In a fresh directory [mkdir_walk] succeeds, and ends in a fresh
    directory. *)
Lemma mkdir_walk_fresh comps : forall (fs : FS) cur,
  no_dotdot comps = true ->
  os.entry fs cur = Some (Dir true) ->
  (forall q, q <> [] -> fs !! (cur ++ q) = None) ->
  exists fs' p,
    os.mkdir_walk fs cur comps = (fs', Ok p)
    /\ os.walk fs' cur comps = Ok p
    /\ os.entry fs' p = Some (Dir true)
    /\ (forall q, q <> [] -> fs' !! (p ++ q) = None).
Proof.
  induction comps as [|c cs IH]; intros fs cur Hnd Hcur Hfresh.
  - by exists fs, cur.
  - apply andb_prop in Hnd as [Hc Hnd]. apply negb_true_iff in Hc.
    cbn [os.mkdir_walk]. rewrite Hcur, Hc. destruct (os.is_dot c) eqn:Hd.
    + destruct (IH fs cur Hnd Hcur Hfresh) as (fs' & p & Hm & Hw & Hp & Hq).
      exists fs', p. split; [done|]. split; [|done].
      rewrite walk_cons_dot; [done..|]. by eapply mkdir_walk_entry_mono.
    + rewrite (Hfresh [c]) by done.
      destruct (IH (<[cur ++ [c] := Dir true]> fs) (cur ++ [c]) Hnd)
        as (fs' & p & Hm & Hw & Hp & Hq).
      * by rewrite entry_app_cons, lookup_insert_eq.
      * intros q Hq. rewrite <- app_assoc. simpl.
        rewrite lookup_insert_ne by (symmetry; by apply snoc_ne).
        by apply Hfresh.
      * exists fs', p. split; [done|]. split; [|done].
        erewrite walk_cons_name; [done..| |].
        -- eapply mkdir_walk_entry_mono; [exact Hm|].
           rewrite entry_insert_ne; [exact Hcur | apply snoc_ne_self].
        -- eapply mkdir_walk_mono; [exact Hm | apply lookup_insert_eq].
Qed.

(** On a well-formed tree [mkdir_walk] either changes nothing, or succeeds
    and ends in a fresh directory. *)
Lemma mkdir_walk_wf comps : forall (fs : FS) cur fs' r,
  fs_wf fs = true ->
  no_dotdot comps = true ->
  os.mkdir_walk fs cur comps = (fs', r) ->
  fs' = fs
  \/ exists p, r = Ok p
       /\ os.walk fs' cur comps = Ok p
       /\ os.entry fs' p = Some (Dir true)
       /\ (forall q, q <> [] -> fs' !! (p ++ q) = None).
Proof.
  induction comps as [|c cs IH]; intros fs cur fs' r Hwf Hnd Hm.
  - injection Hm as <- _. by left.
  - apply andb_prop in Hnd as [Hc Hnd]. apply negb_true_iff in Hc.
    cbn [os.mkdir_walk] in Hm.
    destruct (os.entry fs cur) as [[|[]]|] eqn:Hcur; try (injection Hm as <- _; by left).
    rewrite Hc in Hm. destruct (os.is_dot c) eqn:Hd.
    + destruct (IH _ _ _ _ Hwf Hnd Hm) as [->|(p & -> & Hw & Hp & Hq)]; [by left|].
      right. exists p. split; [done|]. split; [|done].
      rewrite walk_cons_dot; [done..|]. by eapply mkdir_walk_entry_mono.
    + destruct (fs !! (cur ++ [c])) as [n|] eqn:E.
      * destruct (IH _ _ _ _ Hwf Hnd Hm) as [->|(p & -> & Hw & Hp & Hq)]; [by left|].
        right. exists p. split; [done|]. split; [|done].
        erewrite walk_cons_name; [done..| |].
        -- by eapply mkdir_walk_entry_mono.
        -- by eapply mkdir_walk_mono.
      * right.
        destruct (mkdir_walk_fresh cs (<[cur ++ [c] := Dir true]> fs) (cur ++ [c]) Hnd)
          as (fs'' & p & Hm' & Hw & Hp & Hq).
        -- by rewrite entry_app_cons, lookup_insert_eq.
        -- intros q Hq. rewrite <- app_assoc. simpl.
           rewrite lookup_insert_ne by (symmetry; by apply snoc_ne).
           change (cur ++ c :: q) with (cur ++ [c] ++ q). rewrite app_assoc.
           apply wf_descendants; [done| by destruct cur |done].
        -- rewrite Hm' in Hm. injection Hm as <- <-.
           exists p. split; [done|]. split; [|done].
           erewrite walk_cons_name; [done..| |].
           ++ eapply mkdir_walk_entry_mono; [exact Hm'|].
              rewrite entry_insert_ne; [exact Hcur | apply snoc_ne_self].
           ++ eapply mkdir_walk_mono; [exact Hm' | apply lookup_insert_eq].
Qed.

(** Making the directories of a root does not make a name appear below
    it: a walk through the root and a further plain name that found nothing
    finds nothing afterwards. *)
Lemma mkdir_walk_keeps_absent (fs : FS) rootc fs' r b more :
  fs_wf fs = true ->
  no_dotdot rootc = true ->
  plain b = true ->
  os.mkdir_walk fs [] rootc = (fs', r) ->
  os.walk fs [] (rootc ++ b :: more) = Err (PathError ENOENT) ->
  os.walk fs' [] (rootc ++ b :: more) = Err (PathError ENOENT).
Proof.
  intros Hwf Hnd Hb Hm Hw.
  destruct (mkdir_walk_wf _ _ _ _ _ Hwf Hnd Hm) as [->|(p & -> & Hw' & Hp & Hq)]; [done|].
  rewrite walk_app, Hw', walk_plain_cons, Hp by done.
  by rewrite (Hq [b]).
Qed.

(** ** Reading from the tree: [Stat] and [Open] *)

Lemma resolve_frame (fs fs' : FS) name :
  no_dotdot (strings.Split name "/") = true ->
  (forall p, p `prefix_of` clean (strings.Split name "/") ->
             os.entry fs' p = os.entry fs p) ->
  os.resolve fs' name = os.resolve fs name.
Proof.
  intros Hnd Hsame. unfold os.resolve. destruct (String.eqb name ""); [done|].
  apply walk_frame; [done|]. intros p _ Hp. by apply Hsame.
Qed.

Lemma resolve_position fs name p :
  no_dotdot (strings.Split name "/") = true ->
  os.resolve fs name = Ok p -> p = clean (strings.Split name "/").
Proof.
  unfold os.resolve. destruct (String.eqb name ""); [done|].
  intros Hnd Hw. by apply walk_position in Hw.
Qed.

Lemma Stat_frame (fs fs' : FS) name :
  no_dotdot (strings.Split name "/") = true ->
  (forall p, p `prefix_of` clean (strings.Split name "/") ->
             os.entry fs' p = os.entry fs p) ->
  os.Stat fs' name = os.Stat fs name.
Proof.
  intros Hnd Hsame. unfold os.Stat. rewrite (resolve_frame fs fs') by done.
  destruct (os.resolve fs name) as [p|] eqn:E; [|done].
  apply resolve_position in E as ->; [|done]. by rewrite Hsame.
Qed.

Lemma Open_frame (fs fs' : FS) name :
  no_dotdot (strings.Split name "/") = true ->
  (forall p, p `prefix_of` clean (strings.Split name "/") ->
             os.entry fs' p = os.entry fs p) ->
  os.Open fs' name = os.Open fs name
  /\ forall f, os.Open fs name = Ok f -> os.File_Stat fs' f = os.File_Stat fs f.
Proof.
  intros Hnd Hsame. unfold os.Open, os.File_Stat.
  rewrite (resolve_frame fs fs') by done.
  destruct (os.resolve fs name) as [p|] eqn:E; [|done].
  apply resolve_position in E as ->; [|done]. rewrite (Hsame _ (reflexivity _)).
  split; [done|]. intros f. destruct (os.entry fs _); [|done].
  intros [= <-]. simpl. by rewrite (Hsame _ (reflexivity _)).
Qed.

(** [Stat] and [Open] fail exactly as the walk does when the path ends with
    a plain name. *)
Lemma Stat_err_plain fs name comps c :
  strings.Split name "/" = comps ++ [c] -> plain c = true ->
  String.eqb name "" = false ->
  err_of (os.Stat fs name) = err_of (os.walk fs [] (comps ++ [c])).
Proof.
  intros Hs Hc Hne. unfold os.Stat, os.resolve. rewrite Hne, Hs.
  destruct (os.walk fs [] (comps ++ [c])) as [p|] eqn:E; [|done].
  apply walk_last_plain in E as [Hp [n Hn]]; [|done].
  by rewrite entry_nonnil, Hn.
Qed.

Lemma Open_err_plain fs name comps c :
  strings.Split name "/" = comps ++ [c] -> plain c = true ->
  String.eqb name "" = false ->
  err_of (os.Open fs name) = err_of (os.walk fs [] (comps ++ [c])).
Proof.
  intros Hs Hc Hne. unfold os.Open, os.resolve. rewrite Hne, Hs.
  destruct (os.walk fs [] (comps ++ [c])) as [p|] eqn:E; [|done].
  apply walk_last_plain in E as [Hp [n Hn]]; [|done].
  by rewrite entry_nonnil, Hn.
Qed.

(** ** The paths of a store that uses [CASPathTransformFunc] *)

Lemma Split_full_path s id key :
  is_cas s -> plain id = true ->
  strings.Split (Sprintf3 (store_Root s) id (FullPath (store_PathTransformFunc s key))) "/"
  = file_comps s id key.
Proof.
  intros -> Hid. rewrite Split_Sprintf3, CAS_Split_FullPath.
  by apply plain_spec in Hid as (_ & _ & ->).
Qed.

Lemma Split_dir_path s id key :
  is_cas s -> plain id = true ->
  strings.Split (Sprintf3 (store_Root s) id (PathName (store_PathTransformFunc s key))) "/"
  = strings.Split (store_Root s) "/" ++ [id] ++ cas_segments key.
Proof.
  intros -> Hid. rewrite Split_Sprintf3, CAS_Split_PathName.
  by apply plain_spec in Hid as (_ & _ & ->).
Qed.

Lemma Split_shard_path s id key :
  is_cas s -> plain id = true ->
  strings.Split (Sprintf3 (store_Root s) id (FirstPathName (store_PathTransformFunc s key))) "/"
  = strings.Split (store_Root s) "/" ++ [id] ++ [FirstPathName (CASPathTransformFunc key)].
Proof.
  intros -> Hid. rewrite Split_Sprintf3.
  apply plain_spec in Hid as (_ & _ & ->).
  by destruct (plain_spec _ (CAS_FirstPathName_plain key)) as (_ & _ & ->).
Qed.

Lemma file_comps_snoc s id key :
  file_comps s id key
  = (strings.Split (store_Root s) "/" ++ [id] ++ cas_segments key)
    ++ [Filename (CASPathTransformFunc key)].
Proof. unfold file_comps. by rewrite <- !app_assoc. Qed.

Lemma Has_walk s fs id key :
  is_cas s -> plain id = true ->
  Store.Has s fs id key
  = negb (errors.Is_ErrNotExist (err_of (os.walk fs [] (file_comps s id key)))).
Proof.
  intros Hs Hid. unfold Store.Has. f_equal. f_equal.
  pose proof (Split_full_path s id key Hs Hid) as E.
  rewrite file_comps_snoc in *.
  apply (Stat_err_plain _ _ _ _ E); [apply CAS_Filename_plain|apply Sprintf3_nonempty].
Qed.

Lemma Read_walk s fs id key :
  is_cas s -> plain id = true ->
  err_of (Store.Read s fs id key) = err_of (os.walk fs [] (file_comps s id key)).
Proof.
  intros Hs Hid. unfold Store.Read, Store.readStream.
  pose proof (Split_full_path s id key Hs Hid) as E.
  rewrite file_comps_snoc in *.
  rewrite <- (Open_err_plain fs _ _ _ E (CAS_Filename_plain key) (Sprintf3_nonempty _ _ _)).
  destruct (os.Open fs _) as [f|e] eqn:Hopen; [|done].
  unfold os.Open in Hopen.
  destruct (os.resolve fs _) as [p|]; [|done].
  destruct (os.entry fs p) as [n|] eqn:Hn; [|done].
  injection Hopen as <-. unfold os.File_Stat. simpl. by rewrite Hn.
Qed.

(** ** Writing to the tree *)

Lemma MkdirAll_cases (fs : FS) name fs' err :
  os.MkdirAll fs name = (fs', err) ->
  fs' = fs \/ exists r, os.mkdir_walk fs [] (strings.Split name "/") = (fs', r).
Proof.
  unfold os.MkdirAll. destruct (os.Stat fs name) as [fi|e].
  - destruct (os.IsDir fi); intros [= <- _]; by left.
  - destruct (String.eqb name ""); [intros [= <- _]; by left|].
    destruct (os.mkdir_walk fs [] (strings.Split name "/")) as [fs1 [p|e1]] eqn:E.
    + destruct (os.entry fs1 p) as [[|]|]; intros [= <- _]; right; by eexists.
    + intros [= <- _]. right; by eexists.
Qed.

Lemma last_snoc {A} (l : list A) x d : List.last (l ++ [x]) d = x.
Proof. apply last_last. Qed.

Lemma no_dotdot_app xs ys : no_dotdot (xs ++ ys) = no_dotdot xs && no_dotdot ys.
Proof. apply forallb_app. Qed.

Lemma clean_app xs ys : clean (xs ++ ys) = clean xs ++ clean ys.
Proof. apply List.filter_app. Qed.

Lemma plain_no_dotdot c : plain c = true -> no_dotdot [c] = true.
Proof. intros (_ & H & _)%plain_spec. simpl. by rewrite H. Qed.

Lemma plain_clean c : plain c = true -> clean [c] = [c].
Proof. intros (H & _ & _)%plain_spec. unfold clean. simpl. by rewrite H. Qed.

Lemma Forall_plain_no_dotdot cs :
  Forall (fun x => plain x = true) cs -> no_dotdot cs = true.
Proof.
  induction 1 as [|c cs Hc _ IH]; [done|]. simpl.
  apply plain_spec in Hc as (_ & -> & _). done.
Qed.

Lemma Forall_plain_clean cs :
  Forall (fun x => plain x = true) cs -> clean cs = cs.
Proof.
  induction 1 as [|c cs Hc _ IH]; [done|]. unfold clean in *. simpl.
  apply plain_spec in Hc as (-> & _ & _). simpl. by rewrite IH.
Qed.

(** [Create] touches the entry it names, and nothing else. *)
Lemma Create_changes (fs : FS) name comps c fs' r :
  strings.Split name "/" = comps ++ [c] ->
  no_dotdot comps = true -> plain c = true ->
  os.Create fs name = (fs', r) ->
  (forall p, p <> clean comps ++ [c] -> fs' !! p = fs !! p)
  /\ (forall f, r = Ok f -> os.Name f = clean comps ++ [c]).
Proof.
  intros Hs Hnd Hc. unfold os.Create. destruct (String.eqb name "").
  { intros [= <- <-]. by split. }
  rewrite Hs, removelast_snoc, last_snoc.
  destruct (os.walk fs [] comps) as [dir|e] eqn:Hw; [|intros [= <- <-]; by split].
  apply walk_position in Hw as ->; [|done]. simpl.
  destruct (os.entry fs (clean comps)) as [[|[]]|]; try (intros [= <- <-]; by split).
  apply plain_spec in Hc as (-> & -> & _). simpl.
  destruct (fs !! (clean comps ++ [c])) as [[|]|];
    intros [= <- <-]; (split; [|by intros f [= <-]]);
    try done; intros p Hp; by rewrite lookup_insert_ne.
Qed.

Lemma File_Write_changes (fs : FS) f b fs' res p :
  os.File_Write fs f b = (fs', res) -> p <> os.Name f -> fs' !! p = fs !! p.
Proof.
  unfold os.File_Write. destruct (fs !! os.Name f) as [[|]|];
    intros [= <- _] Hp; try done. by rewrite lookup_insert_ne.
Qed.

(** [io.Copy] into a file touches that file only. *)
Lemma Copy_file_frame {R} `{io.Reader R} fuel :
  forall written (fs : FS) f (r : R) res fs' f' r' p,
    io.Copy_from fuel written (fs, f) r = Some (res, (fs', f'), r') ->
    p <> os.Name f -> fs' !! p = fs !! p.
Proof.
  induction fuel as [|fuel IH]; intros written fs f r res fs' f' r' p Hc Hp; [done|].
  cbn [io.Copy_from] in Hc.
  destruct (io.Read r (32 * 1024)) as [[buf er] src'].
  destruct (0 <? Z.of_nat (length buf)).
  - unfold io.Write, os_File_Writer in Hc. cbn [fst snd] in Hc.
    destruct (os.File_Write fs f buf) as [fs1 [nw ew]] eqn:Hw.
    pose proof (File_Write_changes _ _ _ _ _ p Hw Hp) as E1.
    destruct ((nw <? 0) || (Z.of_nat (length buf) <? nw)).
    + destruct ew; injection Hc as _ <- _ _; done.
    + destruct ew as [e|]; [injection Hc as _ <- _ _; done|].
      destruct (negb (Z.of_nat (length buf) =? nw)); [injection Hc as _ <- _ _; done|].
      destruct er as [[]|]; try (injection Hc as _ <- _ _; done).
      rewrite <- E1. by eapply IH.
  - destruct er as [[]|]; try (injection Hc as _ <- _ _; done).
    by eapply IH.
Qed.

(** ** What [Store.Write] and [Store.Delete] change *)

Lemma ns_dir_prefix_snoc (s : Store) (id : string) more :
  ns_dir s id `prefix_of` clean (strings.Split (store_Root s) "/") ++ id :: more.
Proof. unfold ns_dir. apply prefix_app. apply prefix_cons, prefix_nil. Qed.

(** [Store.Write] first makes the directories of the root, and from then
    on works inside the directory of the namespace. *)
Lemma Write_effect {R} `{io.Reader R} (fuel : nat) (s : Store) (fs : FS)
    (id key : string) (r : R) res fs' r' :
  is_cas s -> plain id = true ->
  no_dotdot (strings.Split (store_Root s) "/") = true ->
  Store.Write fuel s fs id key r = Some (res, fs', r') ->
  exists fs0 r0,
    (fs0 = fs \/ os.mkdir_walk fs [] (strings.Split (store_Root s) "/") = (fs0, r0))
    /\ forall p, ~ ns_dir s id `prefix_of` p -> fs' !! p = fs0 !! p.
Proof.
  intros Hs Hid Hnd Hwr.
  unfold Store.Write, Store.writeStream, Store.openFileForWriting in Hwr.
  pose proof (cas_segments_plain key) as Hsegs.
  destruct (os.MkdirAll fs _) as [fs1 e] eqn:Hmk.
  assert (exists fs0 r0,
    (fs0 = fs \/ os.mkdir_walk fs [] (strings.Split (store_Root s) "/") = (fs0, r0))
    /\ forall p, ~ ns_dir s id `prefix_of` p -> fs1 !! p = fs0 !! p) as (fs0 & r0 & H0 & Hfs1).
  { apply MkdirAll_cases in Hmk as [->|[r1 Hmk]].
    { exists fs, (Ok []). split; [by left|done]. }
    rewrite (Split_dir_path s id key Hs Hid), mkdir_walk_app in Hmk.
    destruct (os.mkdir_walk fs [] (strings.Split (store_Root s) "/")) as [fs0 [p0|e0]] eqn:Hroot.
    - exists fs0, (Ok p0). split; [by right|]. intros p Hp.
      apply mkdir_walk_position in Hroot; [|done]. subst p0.
      eapply (mkdir_walk_changes _ _ _ _ _ p) in Hmk as [?|(_ & _ & k & Hk & ->)]; [done| |].
      + exfalso. apply Hp. rewrite app_nil_l.
        rewrite (Forall_plain_clean ([id] ++ cas_segments key))
          by (constructor; [exact Hid|exact Hsegs]).
        destruct k; [lia|]. simpl. apply ns_dir_prefix_snoc.
      + apply Forall_plain_no_dotdot. by constructor.
    - inversion Hmk; subst. exists fs1, (Err e0). split; [by right|done]. }
  exists fs0, r0. split; [exact H0|].
  destruct e as [e|]; [injection Hwr as _ <- _; exact Hfs1|].
  destruct (os.Create fs1 _) as [fs2 rf] eqn:Hcr.
  pose proof (Split_full_path s id key Hs Hid) as Hsplit. rewrite file_comps_snoc in Hsplit.
  apply (Create_changes _ _ _ _ _ _ Hsplit) in Hcr as [Hfs2 Hname];
    [| | apply CAS_Filename_plain].
  2:{ rewrite no_dotdot_app, Hnd. apply Forall_plain_no_dotdot. by constructor. }
  assert (forall p, ~ ns_dir s id `prefix_of` p ->
            p <> clean (strings.Split (store_Root s) "/" ++ [id] ++ cas_segments key)
                 ++ [Filename (CASPathTransformFunc key)]) as Hout.
  { intros p Hp ->. apply Hp. rewrite clean_app, <- app_assoc.
    rewrite (Forall_plain_clean ([id] ++ _)) by (constructor; [exact Hid|exact Hsegs]).
    simpl. apply ns_dir_prefix_snoc. }
  destruct rf as [f|e]; [|injection Hwr as _ <- _; intros p Hp; rewrite Hfs2; auto].
  unfold io.Copy in Hwr.
  destruct (io.Copy_from fuel 0 (fs2, f) r) as [[[res' [fs3 f3]] r3]|] eqn:Hcopy; [|done].
  injection Hwr as _ <- _. intros p Hp.
  rewrite (Copy_file_frame _ _ _ _ _ _ _ _ _ p Hcopy); [rewrite Hfs2; auto|].
  rewrite (Hname f eq_refl). auto.
Qed.

Lemma is_prefix_spec p q : os.is_prefix p q = true <-> p `prefix_of` q.
Proof. unfold os.is_prefix. apply bool_decide_eq_true. Qed.

Lemma remove_tree_outside (fs : FS) t keep p :
  ~ t `prefix_of` p -> os.remove_tree fs t keep !! p = fs !! p.
Proof.
  intros Hp. unfold os.remove_tree. rewrite map_lookup_filter.
  destruct (fs !! p) as [n|]; [|done]. simpl.
  rewrite option_guard_True; [done|]. simpl. unfold os.survives.
  destruct (os.is_prefix t p) eqn:E; [by apply is_prefix_spec in E|done].
Qed.

Lemma strip_trailing_empty_snoc comps c :
  String.eqb c "" = false -> os.strip_trailing_empty (comps ++ [c]) = comps ++ [c].
Proof.
  intros Hc. induction comps as [|x comps IH]; simpl.
  - by rewrite Hc.
  - rewrite IH. by destruct comps.
Qed.

Lemma plain_nonempty c : plain c = true -> String.eqb c "" = false.
Proof.
  intros (H & _ & _)%plain_spec. unfold os.is_dot in H.
  by apply orb_false_elim in H as [-> _].
Qed.

Lemma plain_not_dot c : plain c = true -> String.eqb c "." = false.
Proof.
  intros (H & _ & _)%plain_spec. unfold os.is_dot in H.
  by apply orb_false_elim in H as [_ ->].
Qed.

(** [Store.Delete] works inside the directory of the namespace. *)
Lemma Delete_effect (s : Store) (fs : FS) (id key : string) fs' err p :
  is_cas s -> plain id = true ->
  no_dotdot (strings.Split (store_Root s) "/") = true ->
  Store.Delete s fs id key = (fs', err) ->
  ~ ns_dir s id `prefix_of` p -> fs' !! p = fs !! p.
Proof.
  intros Hs Hid Hnd. unfold Store.Delete, os.RemoveAll.
  rewrite Sprintf3_nonempty, (Split_shard_path s id key Hs Hid).
  pose proof (CAS_FirstPathName_plain key) as Hfirst.
  rewrite !app_assoc, last_snoc, (plain_not_dot _ Hfirst).
  rewrite strip_trailing_empty_snoc by (by apply plain_nonempty).
  destruct (os.walk fs [] _) as [t|e] eqn:Hw.
  - apply walk_position in Hw.
    2:{ rewrite !no_dotdot_app, Hnd, !plain_no_dotdot; done. }
    intros [= <- _] Hp. apply remove_tree_outside. intros Ht. apply Hp.
    etrans; [|exact Ht]. rewrite Hw, !clean_app, plain_clean, plain_clean by done.
    simpl. rewrite <- app_assoc. apply ns_dir_prefix_snoc.
  - destruct e as [[]| | | | | | |]; by intros [= <- _].
Qed.

(** ** Namespaces (C3) *)

Lemma Is_ErrNotExist_false {A} (r : result A) :
  negb (errors.Is_ErrNotExist (err_of r)) = false <-> r = Err (PathError ENOENT).
Proof.
  destruct r as [a|[[]| | | | | | |]]; simpl; split; intros; congruence.
Qed.

Lemma file_comps_no_dotdot (s : Store) (id key : string) :
  no_dotdot (strings.Split (store_Root s) "/") = true -> plain id = true ->
  no_dotdot (file_comps s id key) = true.
Proof.
  intros Hnd Hid. unfold file_comps.
  rewrite !no_dotdot_app, Hnd, (plain_no_dotdot _ Hid).
  rewrite (Forall_plain_no_dotdot _ (cas_segments_plain key)).
  by rewrite (plain_no_dotdot _ (CAS_Filename_plain key)).
Qed.

Lemma file_comps_clean (s : Store) (id key : string) :
  plain id = true ->
  clean (file_comps s id key)
  = clean (strings.Split (store_Root s) "/")
    ++ id :: cas_segments key ++ [Filename (CASPathTransformFunc key)].
Proof.
  intros Hid. unfold file_comps.
  rewrite !clean_app, (plain_clean _ Hid).
  rewrite (Forall_plain_clean _ (cas_segments_plain key)).
  by rewrite (plain_clean _ (CAS_Filename_plain key)).
Qed.

(** What lies on the way to a file of namespace [B] is not inside the
    directory of another namespace [A]. *)
Lemma other_namespace_outside (s : Store) (A B : string) more p :
  A <> B ->
  p `prefix_of` clean (strings.Split (store_Root s) "/") ++ B :: more ->
  ~ ns_dir s A `prefix_of` p.
Proof.
  intros Hne Hp HA. unfold ns_dir in HA.
  assert (clean (strings.Split (store_Root s) "/") ++ [A]
          `prefix_of` clean (strings.Split (store_Root s) "/") ++ B :: more) as H
    by (by etrans).
  apply prefix_app_inv, prefix_cons_inv_1 in H. done.
Qed.

(** The operations of namespace [B] do not see what is inside the directory
    of another namespace [A]. *)
Lemma read_frame (s : Store) (fs fs2 : FS) (A B k : string) :
  is_cas s -> no_dotdot (strings.Split (store_Root s) "/") = true ->
  plain B = true -> A <> B ->
  (forall p, ~ ns_dir s A `prefix_of` p -> fs2 !! p = fs !! p) ->
  Store.Has s fs2 B k = Store.Has s fs B k
  /\ Store.Read s fs2 B k = Store.Read s fs B k.
Proof.
  intros Hs Hnd HB Hne Hsame.
  assert (forall p, p `prefix_of` clean (file_comps s B k) ->
                    os.entry fs2 p = os.entry fs p) as Hentry.
  { intros p Hp. destruct p as [|c p]; [done|]. simpl. apply Hsame.
    rewrite file_comps_clean in Hp by done.
    eapply other_namespace_outside; [exact Hne | exact Hp]. }
  pose proof (Split_full_path s B k Hs HB) as Hsplit.
  pose proof (file_comps_no_dotdot s B k Hnd HB) as Hnd'.
  rewrite <- Hsplit in Hentry, Hnd'. split.
  - unfold Store.Has. by rewrite (Stat_frame fs fs2).
  - unfold Store.Read, Store.readStream.
    destruct (Open_frame fs fs2 _ Hnd' Hentry) as [-> Hst].
    destruct (os.Open fs _) as [f|]; [|done]. by rewrite Hst.
Qed.

(** C3, as amended: for a store on [CASPathTransformFunc] whose root has no
    [".."] component, on a well-formed tree, and two different namespaces
    that are plain names: after a write of [K] under [A], [K] is still absent
    under [B] if it was before ([Has] is false and [Read] fails); the write
    changes nothing outside the directory of [A] but for making the
    directories of the root that were missing; a delete under [A] changes
    nothing outside the directory of [A]; and [Has] and [Read] under [B] do
    not depend on what is inside the directory of [A]. *)
Theorem namespace_isolation {R} `{io.Reader R} (fuel : nat) (s : Store) (fs : FS)
    (A B K : string) (r : R) res fs' r' :
  is_cas s ->
  no_dotdot (strings.Split (store_Root s) "/") = true ->
  fs_wf fs = true ->
  plain A = true -> plain B = true -> A <> B ->
  Store.Has s fs B K = false ->
  Store.Write fuel s fs A K r = Some (res, fs', r') ->
  (Store.Has s fs' B K = false /\ exists e, Store.Read s fs' B K = Err e)
  /\ (forall p, ~ ns_dir s A `prefix_of` p ->
        fs' !! p = fs !! p
        \/ (fs !! p = None /\ fs' !! p = Some (Dir true)
            /\ p `prefix_of` clean (strings.Split (store_Root s) "/")))
  /\ (forall k fs2 err p, Store.Delete s fs A k = (fs2, err) ->
        ~ ns_dir s A `prefix_of` p -> fs2 !! p = fs !! p)
  /\ (forall k fs2, (forall p, ~ ns_dir s A `prefix_of` p -> fs2 !! p = fs !! p) ->
        Store.Has s fs2 B k = Store.Has s fs B k
        /\ Store.Read s fs2 B k = Store.Read s fs B k).
Proof.
  intros Hs Hnd Hwf HA HB Hne Hhas Hwr.
  destruct (Write_effect _ _ _ _ _ _ _ _ _ Hs HA Hnd Hwr) as (fs0 & r0 & H0 & Hfs').
  split; [|split; [|split]].
  - rewrite Has_walk in Hhas by done. apply Is_ErrNotExist_false in Hhas.
    assert (os.walk fs0 [] (file_comps s B K) = Err (PathError ENOENT)) as Hw0.
    { destruct H0 as [->|Hm]; [done|].
      unfold file_comps in *. by eapply mkdir_walk_keeps_absent. }
    assert (os.walk fs' [] (file_comps s B K) = Err (PathError ENOENT)) as Hw'.
    { rewrite <- Hw0. apply walk_frame; [by apply file_comps_no_dotdot|].
      intros p _ Hp. destruct p as [|c p]; [done|]. simpl. apply Hfs'.
      rewrite app_nil_l, file_comps_clean in Hp by done.
      eapply other_namespace_outside; [exact Hne | exact Hp]. }
    split.
    + rewrite Has_walk by done. by apply Is_ErrNotExist_false.
    + pose proof (Read_walk s fs' B K Hs HB) as Hr. rewrite Hw' in Hr.
      destruct (Store.Read s fs' B K) as [|e]; [done|]. by exists e.
  - intros p Hp. rewrite (Hfs' p Hp). destruct H0 as [->|Hm]; [by left|].
    destruct (mkdir_walk_changes _ _ _ _ _ p Hnd Hm) as [?|(? & ? & k & _ & ->)];
      [by left|right].
    split; [done|]. split; [done|]. rewrite app_nil_l. apply prefix_take.
  - intros k fs2 err p Hd Hp. exact (Delete_effect _ _ _ _ _ _ _ Hs HA Hnd Hd Hp).
  - intros k fs2 Hsame. exact (read_frame s fs fs2 A B k Hs Hnd HB Hne Hsame).
Qed.

Lemma namespace_isolation_witness :
  let s := casStore ":5000_network" in
  let fs' := fs_written_A in
  (Store.Has s fs' "nodeB" "picture_0.png" = false
   /\ exists e, Store.Read s fs' "nodeB" "picture_0.png" = Err e)
  /\ (forall p, ~ ns_dir s "nodeA" `prefix_of` p ->
        fs' !! p = (∅ : FS) !! p
        \/ ((∅ : FS) !! p = None /\ fs' !! p = Some (Dir true)
            /\ p `prefix_of` clean (strings.Split (store_Root s) "/")))
  /\ (forall k fs2 err p, Store.Delete s ∅ "nodeA" k = (fs2, err) ->
        ~ ns_dir s "nodeA" `prefix_of` p -> fs2 !! p = (∅ : FS) !! p)
  /\ (forall k fs2, (forall p, ~ ns_dir s "nodeA" `prefix_of` p -> fs2 !! p = (∅ : FS) !! p) ->
        Store.Has s fs2 "nodeB" k = Store.Has s ∅ "nodeB" k
        /\ Store.Read s fs2 "nodeB" k = Store.Read s ∅ "nodeB" k).
Proof.
  apply (namespace_isolation 2 (casStore ":5000_network") ∅ "nodeA" "nodeB" "picture_0.png"
           {| rest := some_bytes |} (22, None) fs_written_A {| rest := [] |}).
  - reflexivity.
  - vm_compute; reflexivity.
  - vm_compute; reflexivity.
  - vm_compute; reflexivity.
  - vm_compute; reflexivity.
  - discriminate.
  - vm_compute; reflexivity.
  - vm_cast_no_check (@eq_refl _ (Some ((22, @None error), fs_written_A, {| rest := [] |}))).
Defined.

(** C3 as stated fails for a namespace that is not a plain name: ["a/."] and
    ["a"] are different namespaces with the same directory, and what is
    written under the one is found and read under the other. *)
Lemma namespace_isolation_counterexample :
  let s := casStore "ggnetwork" in
  "a/." <> "a"
  /\ Store.Has s ∅ "a" "picture_0.png" = false
  /\ match Store.Write 2 s ∅ "a/." "picture_0.png" {| rest := some_bytes |} with
     | Some (_, fs', _) =>
         Store.Has s fs' "a" "picture_0.png" = true
         /\ match Store.Read s fs' "a" "picture_0.png" with
            | Ok (n, f) => n = 22 /\ os.File_contents fs' f = Ok some_bytes
            | Err _ => False
            end
     | None => False
     end.
Proof.
  split; [discriminate|]. split; [vm_compute; reflexivity|].
  vm_compute. repeat split.
Qed.

(** ** [Has] and the errors of [Stat] (C10) *)

Lemma Stat_error_is_resolve_error (fs : FS) name e :
  os.Stat fs name = Err e -> e <> PathError ENOENT -> os.resolve fs name = Err e.
Proof.
  unfold os.Stat. destruct (os.resolve fs name) as [p|e0]; [|congruence].
  destruct (os.entry fs p); [done|congruence].
Qed.

(** C10: [Has] is false exactly when [Stat] on the path of the key fails
    with the not-exist error; on any other failure of [Stat] it is true, and
    the key cannot be read: [Read] fails with that error. *)
Theorem Has_false_only_when_not_exist (s : Store) (fs : FS) (id key : string) :
  let name := Sprintf3 (store_Root s) id (FullPath (store_PathTransformFunc s key)) in
  (Store.Has s fs id key = false <-> os.Stat fs name = Err (PathError ENOENT))
  /\ (forall e, os.Stat fs name = Err e -> e <> PathError ENOENT ->
        Store.Has s fs id key = true /\ Store.Read s fs id key = Err e).
Proof.
  intros name. split.
  - unfold Store.Has. fold name. apply Is_ErrNotExist_false.
  - intros e Hst He. split.
    + unfold Store.Has. fold name. rewrite Hst.
      destruct e as [[]| | | | | | |]; done.
    + unfold Store.Read, Store.readStream, os.Open. fold name.
      by rewrite (Stat_error_is_resolve_error _ _ _ Hst He).
Qed.

Example Has_on_permission_error :
  let s := casStore "" in
  os.Stat fs_locked
    (Sprintf3 (store_Root s) "node" (FullPath (store_PathTransformFunc s "picture_0.png")))
  = Err (PathError EACCES)
  /\ Store.Has s fs_locked "node" "picture_0.png" = true
  /\ Store.Read s fs_locked "node" "picture_0.png" = Err (PathError EACCES).
Proof. vm_compute. auto. Qed.

(** ** [Delete] removes the shard directory (C9) *)

Lemma removelast_prefix {A} (l : list A) : removelast l `prefix_of` l.
Proof.
  destruct l as [|x l] using rev_ind; [done|].
  rewrite removelast_snoc. by apply prefix_app_r.
Qed.

(** A walk that ends inside a removed tree finds nothing once the tree is
    gone. *)
Lemma walk_into_removed (fs fs' : FS) t :
  (forall p, t `prefix_of` p -> fs' !! p = None) ->
  (forall p, ~ t `prefix_of` p -> fs' !! p = fs !! p) ->
  forall comps cur t',
    ~ t `prefix_of` cur -> os.walk fs cur comps = Ok t' -> t `prefix_of` t' ->
    os.walk fs' cur comps = Err (PathError ENOENT).
Proof.
  intros Hin Hout. induction comps as [|c cs IH]; intros cur t' Hcur Hw Ht'.
  - injection Hw as <-. done.
  - cbn [os.walk] in *.
    assert (os.entry fs' cur = os.entry fs cur) as ->.
    { destruct cur; [done|]. simpl. by apply Hout. }
    destruct (os.entry fs cur) as [[|[]]|]; try done.
    destruct (os.is_dot c); [by eapply IH|].
    destruct (String.eqb c "..").
    + eapply IH; [|exact Hw|exact Ht']. intros H. apply Hcur.
      etrans; [exact H|apply removelast_prefix].
    + destruct (decide (t `prefix_of` cur ++ [c])) as [Hp|Hp].
      * by rewrite (Hin _ Hp).
      * rewrite (Hout _ Hp). destruct (fs !! (cur ++ [c])); [|done]. by eapply IH.
Qed.

Lemma remove_tree_inside (fs : FS) t p :
  os.obstacles fs t = [] -> t `prefix_of` p -> os.remove_tree fs t false !! p = None.
Proof.
  intros Hobs Hp. unfold os.remove_tree. apply map_lookup_filter_None. right.
  intros n _. simpl. unfold os.survives. rewrite Hobs. simpl.
  apply is_prefix_spec in Hp. rewrite Hp. done.
Qed.

(** What a successful [RemoveAll] of a path that ends with a plain name
    does: the path did not lead anywhere, or what it led to is gone. *)
Lemma RemoveAll_plain (fs : FS) name comps c fs' :
  strings.Split name "/" = comps ++ [c] -> plain c = true ->
  os.RemoveAll fs name = (fs', None) ->
  os.walk fs' [] (comps ++ [c]) = Err (PathError ENOENT).
Proof.
  intros Hs Hc. unfold os.RemoveAll. destruct (String.eqb name "") eqn:Hname.
  { apply String.eqb_eq in Hname. subst name. simpl in Hs.
    destruct comps as [|? []]; try done. injection Hs as <-. cbv in Hc. discriminate. }
  rewrite Hs, last_snoc, (plain_not_dot _ Hc).
  rewrite strip_trailing_empty_snoc by (by apply plain_nonempty).
  destruct (os.walk fs [] (comps ++ [c])) as [t|e] eqn:Hw.
  - rewrite last_snoc. destruct (plain_spec _ Hc) as (_ & -> & _).
    destruct (walk_last_plain _ _ _ _ _ Hc Hw) as [Ht _].
    rewrite bool_decide_eq_false_2 by done. simpl.
    destruct (os.obstacles fs t) eqn:Hobs; [|done]. intros [= <-].
    eapply (walk_into_removed fs _ t); [| |by intros ?%prefix_nil_inv|exact Hw|done].
    + intros p Hp. by apply remove_tree_inside.
    + intros p Hp. by apply remove_tree_outside.
  - destruct e as [[]| | | | | | |]; try done. by intros [= <-].
Qed.

Lemma cas_segments_first K :
  cas_segments K = FirstPathName (CASPathTransformFunc K) :: tl (cas_segments K).
Proof. rewrite CAS_FirstPathName. reflexivity. Qed.

(** After a successful [Delete] of a key, nothing is found any more for a
    key of the same shard. *)
Lemma Delete_then_walk (s : Store) (fs : FS) (ns K1 K2 : string) fs' :
  is_cas s ->
  FirstPathName (CASPathTransformFunc K1) = FirstPathName (CASPathTransformFunc K2) ->
  Store.Delete s fs ns K1 = (fs', None) ->
  os.walk fs' []
    ((strings.Split (store_Root s) "/" ++ strings.Split ns "/" ++ cas_segments K2)
       ++ [Filename (CASPathTransformFunc K2)])
  = Err (PathError ENOENT).
Proof.
  intros Hs Hfirst Hdel. unfold Store.Delete in Hdel. rewrite Hs in Hdel.
  pose proof (CAS_FirstPathName_plain K1) as Hplain.
  assert (strings.Split (Sprintf3 (store_Root s) ns (FirstPathName (CASPathTransformFunc K1))) "/"
          = (strings.Split (store_Root s) "/" ++ strings.Split ns "/")
            ++ [FirstPathName (CASPathTransformFunc K1)]) as Hsplit.
  { rewrite Split_Sprintf3, app_assoc. f_equal.
    by destruct (plain_spec _ Hplain) as (_ & _ & ->). }
  pose proof (RemoveAll_plain fs _ _ _ fs' Hsplit Hplain Hdel) as Hw.
  rewrite cas_segments_first, <- Hfirst.
  replace ((strings.Split (store_Root s) "/" ++ strings.Split ns "/"
             ++ FirstPathName (CASPathTransformFunc K1) :: tl (cas_segments K2))
           ++ [Filename (CASPathTransformFunc K2)])
    with (((strings.Split (store_Root s) "/" ++ strings.Split ns "/")
            ++ [FirstPathName (CASPathTransformFunc K1)])
          ++ tl (cas_segments K2) ++ [Filename (CASPathTransformFunc K2)])
    by (by rewrite <- !app_assoc).
  by rewrite walk_app, Hw.
Qed.

(** C9: for two different keys whose digests start with the same 5
    hexadecimal characters, a successful [Delete] of the one removes the
    shard directory they share, and with it the file of the other: [Has] is
    false for both afterwards, and [Read] of the other fails. *)
Theorem Delete_removes_the_shard (s : Store) (fs : FS) (ns K1 K2 : string) fs' :
  is_cas s ->
  K1 <> K2 ->
  substring 0 5 (hex.EncodeToString (sha1.Sum (bytes_of_string K1)))
  = substring 0 5 (hex.EncodeToString (sha1.Sum (bytes_of_string K2))) ->
  Store.Delete s fs ns K1 = (fs', None) ->
  Store.Has s fs' ns K2 = false
  /\ Store.Read s fs' ns K2 = Err (PathError ENOENT)
  /\ Store.Has s fs' ns K1 = false
  /\ os.Stat fs' (Sprintf3 (store_Root s) ns (FirstPathName (CASPathTransformFunc K1)))
     = Err (PathError ENOENT).
Proof.
  intros Hs _ Hfirst Hdel. rewrite <- !CAS_FirstPathName in Hfirst.
  assert (forall K, FirstPathName (CASPathTransformFunc K1) = FirstPathName (CASPathTransformFunc K) ->
            Store.Has s fs' ns K = false /\ Store.Read s fs' ns K = Err (PathError ENOENT)) as Hgone.
  { intros K HK. pose proof (Delete_then_walk s fs ns K1 K fs' Hs HK Hdel) as Hw.
    assert (strings.Split (Sprintf3 (store_Root s) ns (FullPath (store_PathTransformFunc s K))) "/"
            = (strings.Split (store_Root s) "/" ++ strings.Split ns "/" ++ cas_segments K)
              ++ [Filename (CASPathTransformFunc K)]) as Hsplit.
    { rewrite Hs, Split_Sprintf3, CAS_Split_FullPath. by rewrite <- !app_assoc. }
    split.
    - unfold Store.Has. apply Is_ErrNotExist_false.
      pose proof (Stat_err_plain fs' _ _ _ Hsplit (CAS_Filename_plain K) (Sprintf3_nonempty _ _ _)) as He.
      rewrite Hw in He. destruct (os.Stat fs' _) as [|e]; [done|]. simpl in He. congruence.
    - unfold Store.Read, Store.readStream.
      pose proof (Open_err_plain fs' _ _ _ Hsplit (CAS_Filename_plain K) (Sprintf3_nonempty _ _ _)) as He.
      rewrite Hw in He. destruct (os.Open fs' _) as [|e]; [done|]. simpl in He. congruence. }
  destruct (Hgone K2 Hfirst) as [H2 R2]. destruct (Hgone K1 eq_refl) as [H1 _].
  repeat split; try done.
  pose proof (CAS_FirstPathName_plain K1) as Hplain.
  unfold Store.Delete in Hdel. rewrite Hs in Hdel.
  assert (strings.Split (Sprintf3 (store_Root s) ns (FirstPathName (CASPathTransformFunc K1))) "/"
          = (strings.Split (store_Root s) "/" ++ strings.Split ns "/")
            ++ [FirstPathName (CASPathTransformFunc K1)]) as Hsplit.
  { rewrite Split_Sprintf3, app_assoc. f_equal.
    by destruct (plain_spec _ Hplain) as (_ & _ & ->). }
  pose proof (RemoveAll_plain fs _ _ _ fs' Hsplit Hplain Hdel) as Hw.
  pose proof (Stat_err_plain fs' _ _ _ Hsplit Hplain (Sprintf3_nonempty _ _ _)) as He.
  rewrite Hw in He. destruct (os.Stat fs' _) as [|e]; [done|]. simpl in He. congruence.
Qed.

Lemma Delete_removes_the_shard_witness :
  let s := casStore ":5000_network" in
  Store.Has s fs_two_keys "node" "picture_1475.png" = true
  /\ (Store.Has s fs_after_delete "node" "picture_1475.png" = false
      /\ Store.Read s fs_after_delete "node" "picture_1475.png" = Err (PathError ENOENT)
      /\ Store.Has s fs_after_delete "node" "picture_75.png" = false
      /\ os.Stat fs_after_delete
           (Sprintf3 (store_Root s) "node" (FirstPathName (CASPathTransformFunc "picture_75.png")))
         = Err (PathError ENOENT)).
Proof.
  split; [vm_compute; reflexivity|].
  apply (Delete_removes_the_shard (casStore ":5000_network") fs_two_keys "node"
           "picture_75.png" "picture_1475.png" fs_after_delete).
  - reflexivity.
  - discriminate.
  - vm_compute; reflexivity.
  - vm_cast_no_check (@eq_refl _ (fs_after_delete, @None error)).
Defined.

(** FIPS 197, appendix C: the example vectors for the three key sizes. *)
Example aes_fips197_vectors :
  let pt := [0x00; 0x11; 0x22; 0x33; 0x44; 0x55; 0x66; 0x77;
             0x88; 0x99; 0xaa; 0xbb; 0xcc; 0xdd; 0xee; 0xff] in
  hex.EncodeToString (aes_encryptBlock (map Z.of_nat (seq 0 16)) pt)
  = "69c4e0d86a7b0430d8cdb78070b4c55a"
  /\ hex.EncodeToString (aes_encryptBlock (map Z.of_nat (seq 0 24)) pt)
     = "dda97ca4864cdfe06eaf70a0ec0d7191"
  /\ hex.EncodeToString (aes_encryptBlock (map Z.of_nat (seq 0 32)) pt)
     = "8ea2b7ca516745bfeafc49904b496089".
Proof. vm_compute. auto. Qed.

(** ** The stream cipher codec (C1) *)

Lemma xor_from_same_keystream (s s' : cipher.CTR) i src :
  cipher.block s' = cipher.block s -> cipher.iv s' = cipher.iv s ->
  cipher.xor_from s' i src = cipher.xor_from s i src.
Proof.
  intros Hb Hi. revert i. induction src as [|x src IH]; intros i; simpl; [done|].
  rewrite IH. unfold cipher.keystream, cipher.counter_block. by rewrite Hb, Hi.
Qed.

Lemma xor_from_app (s : cipher.CTR) i a b :
  cipher.xor_from s i (a ++ b)
  = cipher.xor_from s i a ++ cipher.xor_from s (i + length a) b.
Proof.
  revert i. induction a as [|x a IH]; intros i; simpl.
  - by rewrite Nat.add_0_r.
  - rewrite IH. do 3 f_equal. lia.
Qed.

Lemma xor_from_length (s : cipher.CTR) i src :
  length (cipher.xor_from s i src) = length src.
Proof. revert i. induction src as [|x src IH]; intros i; simpl; [done|]. by rewrite IH. Qed.

(** Applying the key stream twice gives the input back. *)
Lemma xor_from_involutive (s : cipher.CTR) i src :
  cipher.xor_from s i (cipher.xor_from s i src) = src.
Proof.
  revert i. induction src as [|x src IH]; intros i; simpl; [done|].
  rewrite IH. f_equal.
  by rewrite Z.lxor_assoc, Z.lxor_nilpotent, Z.lxor_0_r.
Qed.

Lemma bytes_Reader_holds : holds_bytes Build_bytes_Reader.
Proof. intros [|x data] n Hn; reflexivity. Qed.

Lemma bytes_Buffer_holds : holds_bytes Build_bytes_Buffer.
Proof.
  intros [|x data] n Hn; [|reflexivity].
  unfold io.Read, bytes_Buffer_Reader. simpl. by destruct n; [lia|].
Qed.

Lemma buffer_size_pos : (0 < 32 * 1024)%nat.
Proof. apply Nat.mul_pos_pos; apply Nat.lt_0_succ. Qed.

Lemma skipn_shorter {A} (l : list A) n :
  (0 < n)%nat -> l <> [] -> (length (skipn n l) < length l)%nat.
Proof. intros Hn Hl. rewrite length_skipn. destruct l; [done|]. simpl. lia. Qed.

(** [copyStream] from a reader that holds [data] into a buffer: with fuel
    for one round per byte and one more, it writes [data] xored with the key
    stream and returns the count it started from plus the length. *)
Lemma copyStream_from_bytes {R} `{io.Reader R} (mk : bytes -> R) :
  holds_bytes mk ->
  forall fuel data nw (stream : cipher.CTR) out,
    (length data < fuel)%nat ->
    copyStream_from fuel nw stream (mk data) {| unread := out |}
    = Some ((nw + Z.of_nat (length data), None), mk [],
            {| unread := out ++ cipher.xor_from stream (cipher.pos stream) data |}).
Proof.
  intros Hmk. induction fuel as [|fuel IH]; intros data nw stream out Hfuel; [lia|].
  cbn [copyStream_from]. pose proof buffer_size_pos as Hn.
  rewrite (Hmk data _ Hn). revert Hn. generalize (32 * 1024)%nat. intros n Hn.
  destruct data as [|x data].
  - simpl. by rewrite Z.add_0_r, app_nil_r.
  - remember (x :: data) as d eqn:Hd.
    assert (d <> []) as Hne by (by subst).
    assert ((0 <? length (take n d))%nat = true) as ->.
    { apply Nat.ltb_lt. rewrite length_take. destruct d; [done|]. simpl. lia. }
    unfold cipher.XORKeyStream, io.Write, bytes_Buffer_Writer. cbn [unread].
    rewrite IH by (pose proof (skipn_shorter d n Hn Hne); lia).
    cbn [cipher.pos]. rewrite xor_from_length.
    rewrite (xor_from_same_keystream stream (cipher.Build_CTR _ _ _)) by done.
    rewrite <- app_assoc, <- xor_from_app, take_drop.
    rewrite <- Z.add_assoc, <- Nat2Z.inj_add, <- length_app, take_drop.
    by destruct d.
Qed.

(** The key stream is that of AES in counter mode: two ciphertexts computed
    by OpenSSL ([aes-256-ctr]); the counter of the first one wraps around. *)
Example ctr_matches_openssl :
  let key := map Z.of_nat (seq 0 32) in
  let s iv := cipher.NewCTR {| aes.Encrypt := aes_encryptBlock key |} iv in
  hex.EncodeToString
    (cipher.XORKeyStream (s (repeat 255 15 ++ [254]))
       (bytes_of_string
          "Foo not bar, and a longer text that spans more than two blocks of the cipher.")).1
  = "258adb22db713cfd988c8bf2b9ad4920c9f8c47123c917bf21a7651e25fb779a9af174965939febedad3f705af4b57f4983c188e3ecef0c5c49af45223b11652689cc1b6d00ce0d478c0cc4736"
  /\ hex.EncodeToString
       (cipher.XORKeyStream (s (map Z.of_nat (seq 240 16))) (bytes_of_string "Foo not bar")).1
     = "d46fa2ad4df9f4eb380894".
Proof. vm_compute. auto. Qed.

Lemma NewCipher_valid `{AES} (key : bytes) :
  (length key = 16 \/ length key = 24 \/ length key = 32)%nat ->
  aes.NewCipher key = Ok {| aes.Encrypt := aes_encryptBlock key |}.
Proof. unfold aes.NewCipher. by intros [-> | [-> | ->]]. Qed.

(** X26: the round trip through buffers.  For a key of a valid length and
    an initialization value from the random source, encrypting a payload [M]
    into a [bytes.Buffer] writes a blob of 16 bytes more than [M] (and
    returns that length), and decrypting the blob from a [bytes.Buffer],
    whose first read hands over the whole initialization value, with the
    same key writes [M] again.  The fuel counts the rounds of the copy
    loops: more than the length of [M] is enough. *)
Theorem copyDecrypt_copyEncrypt `{AES} (key M rand : bytes) (fuel : nat) :
  (length key = 16 \/ length key = 24 \/ length key = 32)%nat ->
  (16 <= length rand)%nat ->
  (length M < fuel)%nat ->
  exists C,
    copyEncrypt fuel rand key {| rest := M |} {| unread := [] |}
    = Some ((16 + Z.of_nat (length M), None), skipn 16 rand,
            {| rest := [] |}, {| unread := C |})
    /\ length C = (16 + length M)%nat
    /\ copyDecrypt fuel key {| unread := C |} {| unread := [] |}
       = Some ((16 + Z.of_nat (length M), None), {| unread := [] |}, {| unread := M |}).
Proof.
  intros Hkey Hrand Hfuel.
  set (iv := firstn 16 rand).
  assert (length iv = 16%nat) as Hiv by (unfold iv; rewrite length_take; lia).
  set (stream := cipher.NewCTR {| aes.Encrypt := aes_encryptBlock key |} iv).
  exists (iv ++ cipher.xor_from stream 0 M). split; [|split].
  - unfold copyEncrypt. rewrite (NewCipher_valid key Hkey).
    unfold io.ReadFull, aes.BlockSize.
    rewrite (proj2 (Nat.leb_le 16 (length rand)) Hrand).
    unfold io.Write at 1, bytes_Buffer_Writer. cbn [unread app].
    unfold copyStream.
    rewrite (copyStream_from_bytes Build_bytes_Reader bytes_Reader_holds) by done.
    reflexivity.
  - rewrite length_app, xor_from_length. lia.
  - unfold copyDecrypt. rewrite (NewCipher_valid key Hkey). unfold aes.BlockSize.
    change {| unread := iv ++ cipher.xor_from stream 0 M |}
      with (Build_bytes_Buffer (iv ++ cipher.xor_from stream 0 M)).
    rewrite (bytes_Buffer_holds _ 16%nat) by lia.
    assert (take 16%nat (iv ++ cipher.xor_from stream 0 M) = iv) as Htake
      by (by rewrite take_app_length').
    assert (drop 16%nat (iv ++ cipher.xor_from stream 0 M) = cipher.xor_from stream 0 M) as Hdrop
      by (by rewrite drop_app_length').
    destruct (iv ++ cipher.xor_from stream 0 M) as [|x l] eqn:E.
    { destruct iv; [done|discriminate]. }
    rewrite Htake, Hdrop.
    assert (take 16%nat (iv ++ repeat 0 16%nat) = iv) as -> by (by rewrite take_app_length').
    unfold copyStream. fold stream.
    rewrite (copyStream_from_bytes Build_bytes_Buffer bytes_Buffer_holds)
      by (by rewrite xor_from_length).
    rewrite xor_from_length. cbn [app cipher.pos stream cipher.NewCTR].
    by rewrite xor_from_involutive.
Qed.

Lemma copyDecrypt_copyEncrypt_witness :
  exists C,
    copyEncrypt 12 test_rand test_key {| rest := test_payload |} {| unread := [] |}
    = Some ((16 + Z.of_nat (length test_payload), None), skipn 16 test_rand,
            {| rest := [] |}, {| unread := C |})
    /\ length C = (16 + length test_payload)%nat
    /\ copyDecrypt 12 test_key {| unread := C |} {| unread := [] |}
       = Some ((16 + Z.of_nat (length test_payload), None),
               {| unread := [] |}, {| unread := test_payload |}).
Proof.
  apply (copyDecrypt_copyEncrypt test_key test_payload test_rand 12).
  - right; right; reflexivity.
  - vm_compute; lia.
  - vm_compute; lia.
Defined.

(** [TestCopyEncryptDecrypt], run: the blob is the initialization value and
    the ciphertext OpenSSL computes, and decryption gives the payload. *)
Example TestCopyEncryptDecrypt :
  match copyEncrypt 12 test_rand test_key {| rest := test_payload |} {| unread := [] |} with
  | Some ((n, None), _, _, dst) =>
      n = 27
      /\ hex.EncodeToString (unread dst)
         = "f0f1f2f3f4f5f6f7f8f9fafbfcfdfeffd46fa2ad4df9f4eb380894"
      /\ match copyDecrypt 12 test_key dst {| unread := [] |} with
         | Some ((nw, None), _, out) => nw = 16 + 11 /\ unread out = test_payload
         | _ => False
         end
  | _ => False
  end.
Proof. vm_compute. auto. Qed.

(** C1: the round trip fails when the blob reaches [copyDecrypt] in
    segments.  The blob of [TestCopyEncryptDecrypt] decrypts to the payload
    from a buffer; from a connection on which its first 10 bytes arrive
    first, read directly or through [io.LimitReader] as [Get] does,
    [copyDecrypt] takes these 10 bytes and six zeros for the initialization
    value, and returns no error, the count 33 and 17 bytes that are not the
    payload. *)
Theorem copyDecrypt_short_first_read :
  concat (incoming example_segmented_conn) = test_blob
  /\ copyDecrypt 12 test_key {| unread := test_blob |} {| unread := [] |}
     = Some ((27, None), {| unread := [] |}, {| unread := test_payload |})
  /\ match copyDecrypt 12 test_key example_segmented_conn {| unread := [] |} with
     | Some ((n, err), _, out) =>
         n = 33 /\ err = None /\ length (unread out) = 17%nat
         /\ unread out <> test_payload
     | None => False
     end
  /\ match copyDecrypt 12 test_key (io.LimitReader example_segmented_conn 27)
             {| unread := [] |} with
     | Some ((n, err), _, out) =>
         n = 33 /\ err = None /\ length (unread out) = 17%nat
         /\ unread out <> test_payload
     | None => False
     end.
Proof. vm_compute. repeat split; discriminate. Qed.

(** ** The local write of [FileServer.Store] *)

Lemma Create_ok (fs : FS) name fs' f :
  os.Create fs name = (fs', Ok f) -> fs' !! os.Name f = Some (File []).
Proof.
  unfold os.Create. destruct (String.eqb name ""); [done|].
  destruct (os.walk fs [] _) as [dir|]; [|done].
  destruct (os.entry fs dir) as [[|[]]|]; try done.
  destruct (_ || _); [done|].
  destruct (fs !! (dir ++ [_])) as [[|]|]; try done;
    intros [= <- <-]; simpl; apply lookup_insert_eq.
Qed.

Lemma openFileForWriting_ok (s : Store) (fs : FS) (id key : string) fs' f :
  Store.openFileForWriting s fs id key = (fs', Ok f) ->
  fs' !! os.Name f = Some (File []).
Proof.
  unfold Store.openFileForWriting. destruct (os.MkdirAll fs _) as [fs1 [e|]]; [done|].
  apply Create_ok.
Qed.

(** [io.Copy] from a tee over a reader that holds [data] into an open file:
    the file gets [data] appended, the buffer of the tee too, and the count
    is the length of [data]. *)
Lemma Copy_tee_to_file {R} `{io.Reader R} (mk : bytes -> R) :
  holds_bytes mk ->
  forall fuel data written (fs : FS) f d0 b0,
    (length data < fuel)%nat ->
    fs !! os.Name f = Some (File d0) ->
    exists fs',
      io.Copy_from fuel written (fs, f)
        {| io.tee_r := mk data; io.tee_w := {| unread := b0 |} |}
      = Some ((written + Z.of_nat (length data), None), (fs', f),
              {| io.tee_r := mk []; io.tee_w := {| unread := b0 ++ data |} |})
      /\ fs' !! os.Name f = Some (File (d0 ++ data))
      /\ forall p, p <> os.Name f -> fs' !! p = fs !! p.
Proof.
  intros Hmk. induction fuel as [|fuel IH]; intros data written fs f d0 b0 Hfuel Hf; [lia|].
  cbn [io.Copy_from]. unfold io.Read at 1. unfold io.TeeReader_Reader at 1.
  cbn [io.tee_r io.tee_w].
  pose proof buffer_size_pos as Hn. rewrite (Hmk data _ Hn).
  revert Hn. generalize (32 * 1024)%nat. intros n Hn.
  destruct data as [|x data].
  - exists fs. simpl. rewrite Z.add_0_r, !app_nil_r. done.
  - remember (x :: data) as d eqn:Hd.
    assert (d <> []) as Hne by (by subst).
    assert ((0 <? length (take n d))%nat = true) as Hpos.
    { apply Nat.ltb_lt. rewrite length_take. destruct d; [done|]. simpl. lia. }
    replace (match d with
             | [] => ([], Some EOF, mk [])
             | _ :: _ => (take n d, None, mk (drop n d))
             end) with (take n d, @None error, mk (drop n d)) by (by destruct d).
    rewrite Hpos. unfold io.Write at 1. unfold bytes_Buffer_Writer at 1. cbn [unread].
    assert ((0 <? Z.of_nat (length (take n d))) = true) as ->
      by (apply Z.ltb_lt; apply Nat.ltb_lt in Hpos; lia).
    unfold io.Write at 1. unfold os_File_Writer at 1. unfold os.File_Write.
    cbn [fst snd]. rewrite Hf.
    assert ((Z.of_nat (length (take n d)) <? 0) = false) as -> by (apply Z.ltb_ge; lia).
    rewrite Z.ltb_irrefl. cbn [orb]. rewrite Z.eqb_refl. cbn [negb].
    destruct (IH (drop n d) (written + Z.of_nat (length (take n d)))
                (<[os.Name f := File (d0 ++ take n d)]> fs) f (d0 ++ take n d) (b0 ++ take n d))
      as (fs' & Hcopy & Hfile & Hother).
    { pose proof (skipn_shorter d n Hn Hne). lia. }
    { apply lookup_insert_eq. }
    exists fs'. rewrite Hcopy. split; [|split].
    + rewrite <- !app_assoc, take_drop, <- Z.add_assoc, <- Nat2Z.inj_add, <- length_app, take_drop.
      done.
    + by rewrite Hfile, <- app_assoc, take_drop.
    + intros p Hp. rewrite Hother by done. by rewrite lookup_insert_ne.
Qed.

(** ** Peers that accept what is written to them *)

Lemma received_healthy p l : healthy p -> healthy (received p l).
Proof. done. Qed.

Lemma received_received p l1 l2 : received (received p l1) l2 = received p (l1 ++ l2).
Proof. unfold received, TCPPeer_with_conn. simpl. by rewrite app_assoc. Qed.

Lemma received_nil p : received p [] = p.
Proof. destruct p as [[] ? ?]. unfold received, TCPPeer_with_conn. simpl. by rewrite app_nil_r. Qed.

Lemma healthy_Write p b :
  healthy p -> io.Write p b = ((Z.of_nat (length b), None), received p [b]).
Proof.
  unfold healthy. intros Hp. unfold io.Write, TCPPeer_Writer, io.Write, Conn_Writer.
  rewrite Hp. simpl. unfold received. by rewrite Hp.
Qed.

Lemma healthy_Send p b : healthy p -> TCPPeer.Send p b = (None, received p [b]).
Proof. intros Hp. unfold TCPPeer.Send. by rewrite healthy_Write. Qed.

Lemma peer_accepting : accepting healthy (fun p b => received p [b]).
Proof. intros p b Hp. by rewrite healthy_Write. Qed.

Lemma broadcast_to_healthy `{FrameMarkers} (ps : list (string * TCPPeer)) buf :
  Forall (fun ap => healthy ap.2) ps ->
  FileServer.broadcast_to ps buf
  = (None, map (fun ap => (ap.1, received ap.2 [[IncomingMessage]; buf])) ps).
Proof.
  induction 1 as [|[addr p] ps Hp _ IH]; [done|]. cbn [FileServer.broadcast_to].
  simpl in Hp. rewrite healthy_Send by done.
  rewrite healthy_Send by (by apply received_healthy).
  by rewrite IH, received_received.
Qed.

Lemma MultiWriter_write_healthy (ws : list TCPPeer) b :
  Forall healthy ws ->
  MultiWriter_write ws b = ((Z.of_nat (length b), None), map (fun p => received p [b]) ws)
  /\ Forall healthy (map (fun p => received p [b]) ws).
Proof.
  induction 1 as [|p ws Hp _ [IH1 IH2]]; [done|]. cbn [MultiWriter_write map].
  rewrite healthy_Write by done. rewrite Z.eqb_refl. cbn [negb]. rewrite IH1.
  split; [done|]. constructor; [by apply received_healthy|done].
Qed.

Lemma MultiWriter_accepting :
  accepting (fun m : MultiWriter TCPPeer => Forall healthy (writers m))
            (fun m b => {| writers := map (fun p => received p [b]) (writers m) |}).
Proof.
  intros m b Hm. unfold io.Write, MultiWriter_Writer.
  destruct (MultiWriter_write_healthy (writers m) b Hm) as [-> H']. done.
Qed.

Lemma fold_received (ws : list TCPPeer) (chunks : list bytes) :
  fold_left (fun (m : MultiWriter TCPPeer) b =>
               {| writers := map (fun p => received p [b]) (writers m) |})
            chunks {| writers := ws |}
  = {| writers := map (fun p => received p chunks) ws |}.
Proof.
  revert ws. induction chunks as [|b chunks IH]; intros ws; simpl.
  - f_equal. rewrite <- (map_id ws) at 1. apply map_ext. intros p. by rewrite received_nil.
  - rewrite IH, map_map. f_equal. apply map_ext. intros p. by rewrite received_received.
Qed.

(** [copyStream] from a reader that holds [data] into a writer that takes
    every write: the writes are pieces of [data] xored with the key stream. *)
Lemma copyStream_from_accepting {R W} `{io.Reader R} `{io.Writer W}
    (mk : bytes -> R) (ok : W -> Prop) (after : W -> bytes -> W) :
  holds_bytes mk -> accepting ok after ->
  forall fuel data nw (stream : cipher.CTR) (w : W),
    (length data < fuel)%nat -> ok w ->
    exists chunks,
      concat chunks = cipher.xor_from stream (cipher.pos stream) data
      /\ copyStream_from fuel nw stream (mk data) w
         = Some ((nw + Z.of_nat (length data), None), mk [], fold_left after chunks w)
      /\ ok (fold_left after chunks w).
Proof.
  intros Hmk Hacc. induction fuel as [|fuel IH]; intros data nw stream w Hfuel Hw; [lia|].
  cbn [copyStream_from]. pose proof buffer_size_pos as Hn.
  rewrite (Hmk data _ Hn). revert Hn. generalize (32 * 1024)%nat. intros n Hn.
  destruct data as [|x data].
  - exists []. simpl. by rewrite Z.add_0_r.
  - remember (x :: data) as d eqn:Hd.
    assert (d <> []) as Hne by (by subst).
    replace (match d with
             | [] => ([], Some EOF, mk [])
             | _ :: _ => (take n d, None, mk (drop n d))
             end) with (take n d, @None error, mk (drop n d)) by (by destruct d).
    assert ((0 <? length (take n d))%nat = true) as ->.
    { apply Nat.ltb_lt. rewrite length_take. destruct d; [done|]. simpl. lia. }
    unfold cipher.XORKeyStream.
    destruct (Hacc w (cipher.xor_from stream (cipher.pos stream) (take n d)) Hw) as [-> Hw'].
    destruct (IH (drop n d) (nw + Z.of_nat (length (cipher.xor_from stream (cipher.pos stream) (take n d))))
                {| cipher.block := cipher.block stream; cipher.iv := cipher.iv stream;
                   cipher.pos := (cipher.pos stream + length (take n d))%nat |}
                (after w (cipher.xor_from stream (cipher.pos stream) (take n d))))
      as (chunks & Hcat & Hcopy & Hok); [|done|].
    { pose proof (skipn_shorter d n Hn Hne). lia. }
    exists (cipher.xor_from stream (cipher.pos stream) (take n d) :: chunks).
    split; [|split; [|done]].
    + simpl. rewrite Hcat. cbn [cipher.pos].
      rewrite (xor_from_same_keystream stream (cipher.Build_CTR _ _ _)) by done.
      by rewrite <- xor_from_app, take_drop.
    + rewrite Hcopy. simpl. rewrite xor_from_length.
      rewrite <- Z.add_assoc, <- Nat2Z.inj_add, <- length_app, take_drop. done.
Qed.

(** ** [FileServer.Store] (C4) *)

Lemma combine_fst_map {A B C} (g : B -> C) (l : list (A * B)) :
  combine (map fst l) (map g (map snd l)) = map (fun ab => (ab.1, g ab.2)) l.
Proof. induction l as [|[a b] l IH]; simpl; [done|]. by rewrite IH. Qed.

Lemma md5_Sum_length msg : length (md5.Sum msg) = 16%nat.
Proof.
  unfold md5.Sum. destruct (md5.digest msg) as [[[a b] c] d]. reflexivity.
Qed.

Lemma hashKey_length key : String.length (hashKey key) = 32%nat.
Proof. unfold hashKey. by rewrite EncodeToString_length, md5_Sum_length. Qed.

Lemma openFileForWriting_name (s : Store) (fs : FS) (id key : string) fs' f :
  Store.openFileForWriting s fs id key = (fs', Ok f) -> os.Name f <> [].
Proof.
  unfold Store.openFileForWriting. destruct (os.MkdirAll fs _) as [fs1 [e|]]; [done|].
  unfold os.Create. destruct (String.eqb _ ""); [done|].
  destruct (os.walk fs1 [] _) as [dir|]; [|done].
  destruct (os.entry fs1 dir) as [[|[]]|]; try done.
  destruct (_ || _); [done|].
  destruct (fs1 !! (dir ++ [_])) as [[|]|]; try done;
    intros [= <- <-]; simpl; by destruct dir.
Qed.

(** Every run of [Store] that gets past the local write calls [broadcast]
    with the message [MessageStoreFile{ID, hashKey(key), size + 16}], where
    [size] is the count the local write returned; an error of the local write
    or of [broadcast] is the result of [Store]. *)
Lemma Store_broadcast_call `{AES} `{Gob} `{FrameMarkers} {R} `{io.Reader R}
    (fuel : nat) (s : FileServer) (w : World) (key : string) (r : R) err s' w' r' :
  FileServer.Store fuel s w key r = Some (err, s', w', r') ->
  exists size ew fs' tee',
    Store.Write fuel (store s) (disk w) (ID (opts s)) key
      {| io.tee_r := r; io.tee_w := {| unread := [] |} |}
    = Some ((size, ew), fs', tee')
    /\ match ew with
       | Some e => err = Some e /\ s' = s
       | None =>
           exists e1 s1,
             FileServer.broadcast s
               {| msg_Payload := MessageStoreFile (ID (opts s)) (hashKey key) (size + 16) |}
             = (e1, s1)
             /\ forall e, e1 = Some e -> err = Some e /\ s' = s1
       end.
Proof.
  unfold FileServer.Store.
  destruct (Store.Write fuel _ _ _ _ _) as [[[[size ew] fs'] tee']|]; [|done].
  intros Hst. exists size, ew, fs', tee'. split; [done|].
  destruct ew as [e|]; [by injection Hst as <- <- _ _|].
  destruct (FileServer.broadcast s _) as [e1 s1]. exists e1, s1. split; [done|].
  intros e ->. by injection Hst as <- <- _ _.
Qed.




(** ** Errors of the sends in [Store] (C7) *)

(** The error of a send is returned when it is the send of the encoded
    message that fails. *)
Lemma broadcast_returns_payload_error `{Gob} `{FrameMarkers}
    (s : FileServer) (msg : Message) buf addr p later e p1 p2 :
  gob_Encode msg = Ok buf ->
  peers s = (addr, p) :: later ->
  TCPPeer.Send p [IncomingMessage] = (None, p1) ->
  TCPPeer.Send p1 buf = (Some e, p2) ->
  FileServer.broadcast s msg = (Some e, with_peers s ((addr, p2) :: later)).
Proof.
  intros Hgob Hps H1 H2. unfold FileServer.broadcast. rewrite Hgob, Hps.
  cbn [FileServer.broadcast_to]. by rewrite H1, H2.
Qed.


(** ** [Start] and the bootstrap nodes (C8) *)

(** [Start] listens, and does nothing else: the server and its peers are
    what they were, and no address is dialed. *)
Lemma Start_only_listens (n : Node) (net : Network) :
  match Start n net with
  | (_, n', net') =>
      server n' = server n
      /\ events net'
         = events net ++ [Listened (ListenAddr (transport_opts (transport n)))]
  end.
Proof.
  unfold Start, TCPTransport.ListenAndAccept.
  by destruct (bool_decide _).
Qed.

(** C8 fails on the code: the node made by
    [makeServer(":5000", ":3000", ":7000")] is started while both bootstrap
    nodes listen; it starts without error, has dialed nobody and has no
    peer. *)
Lemma Start_does_not_dial :
  BootstrapNodes (opts (server example_node)) = [":3000"; ":7000"]
  /\ match Start example_node example_network with
     | (err, n', net') =>
         err = None
         /\ events net' = [Listened ":5000"]
         /\ peers (server n') = []
     end.
Proof. vm_compute. repeat split. Qed.

(** Dialing is what makes a peer: had the address been dialed, the
    [OnPeer] callback of the node would have registered the connection. *)
Lemma Dial_registers_the_peer :
  match TCPTransport.Dial (transport example_node) (server example_node) []
          example_network ":3000" (example_conn ":3000" []) with
  | (err, net', Some task) =>
      err = None
      /\ events net' = [Dialed ":3000"]
      /\ map fst (peers (owner task)) = [":3000"]
      /\ pc task = Reading
  | _ => False
  end.
Proof. vm_compute. repeat split. Qed.

(** ** The read loop of a connection (C5, C6) *)

Lemma Read_one_byte (c : Conn) (m : Z) (b : bytes) (more : list bytes) :
  incoming c = (m :: b) :: more ->
  io.Read c 1 = (([m], None), Conn_with_incoming c (after_byte b more)).
Proof.
  intros Hinc. unfold io.Read, Conn_Reader. rewrite Hinc.
  by destruct b.
Qed.

Lemma Decode_stream `{FrameMarkers} (c : Conn) (msg : RPC) (b : bytes) (more : list bytes) :
  incoming c = (IncomingStream :: b) :: more ->
  DefaultDecoder.Decode c msg
  = ((None, {| From := From msg; Payload := Payload msg; Stream := true |}),
     Conn_with_incoming c (after_byte b more)).
Proof.
  intros Hinc. unfold DefaultDecoder.Decode.
  rewrite (Read_one_byte _ _ _ _ Hinc). cbn [nth].
  by rewrite Z.eqb_refl.
Qed.

Lemma Decode_message `{FrameMarkers} (c : Conn) (msg : RPC) (payload : bytes)
    (later : list bytes) :
  IncomingMessage <> IncomingStream ->
  payload <> [] -> (length payload <= 1028)%nat ->
  incoming c = (IncomingMessage :: payload) :: later
  \/ incoming c = [IncomingMessage] :: payload :: later ->
  DefaultDecoder.Decode c msg
  = ((None, {| From := From msg; Payload := payload; Stream := Stream msg |}),
     Conn_with_incoming c later).
Proof.
  intros Hne Hpay Hlen Hinc. unfold DefaultDecoder.Decode.
  assert (io.Read c 1
          = (([IncomingMessage], None), Conn_with_incoming c (payload :: later))) as ->.
  { destruct Hinc as [Hinc | Hinc]; rewrite (Read_one_byte _ _ _ _ Hinc); [|done].
    by destruct payload. }
  cbn [nth]. apply Z.eqb_neq in Hne. rewrite Hne.
  unfold io.Read, Conn_Reader. cbn [incoming Conn_with_incoming].
  apply Nat.leb_le in Hlen. by rewrite Hlen.
Qed.

(** A failed read of the marker byte is no error of [Decode]. *)
Lemma Decode_marker_read_fails `{FrameMarkers} (c : Conn) (msg : RPC) :
  incoming c = [] ->
  DefaultDecoder.Decode c msg = ((None, msg), c).
Proof.
  intros Hinc. unfold DefaultDecoder.Decode, io.Read, Conn_Reader.
  by rewrite Hinc.
Qed.

(** A failed read of the payload is. *)
Lemma Decode_payload_read_fails `{FrameMarkers} (c : Conn) (msg : RPC) (m : Z) :
  m <> IncomingStream ->
  incoming c = [[m]] ->
  DefaultDecoder.Decode c msg
  = ((Some (read_err c), msg), Conn_with_incoming c []).
Proof.
  intros Hne Hinc. unfold DefaultDecoder.Decode.
  rewrite (Read_one_byte _ _ _ _ Hinc). cbn [nth].
  apply Z.eqb_neq in Hne. by rewrite Hne.
Qed.

(** An error of [Decode] ends the loop, and the connection is closed. *)
Lemma loop_step_payload_read_fails {S} `{FrameMarkers} (t : TCPTransport S)
    (k : Task S) (m : Z) :
  Decoder (transport_opts t) = DefaultDecoder.Decode ->
  pc k = Reading ->
  m <> IncomingStream ->
  incoming (conn (peer k)) = [[m]] ->
  let k' := TCPTransport.loop_step t k in
  pc k' = Dropped (Some (read_err (conn (peer k))))
  /\ conn_closed (conn (peer k')) = true
  /\ rpcch k' = rpcch k.
Proof.
  intros Hdec Hpc Hne Hinc. unfold TCPTransport.loop_step.
  rewrite Hpc, Hdec, (Decode_payload_read_fails _ _ _ Hne Hinc). done.
Qed.

(** A dropped task is at its end. *)
Lemma run_Dropped {S} (t : TCPTransport S) (n : nat) (k : Task S) (e : option error) :
  pc k = Dropped e ->
  run t k (repeat LoopStep n) = k.
Proof.
  intros Hpc. induction n as [|n IH]; [done|].
  cbn [repeat run fold_left act]. unfold TCPTransport.loop_step. rewrite Hpc.
  exact IH.
Qed.

(** When the read of the marker byte fails the loop goes on: it sends an
    empty RPC to the channel and reads again. *)
Lemma loop_step_marker_read_fails {S} `{FrameMarkers} (t : TCPTransport S) (k : Task S) :
  Decoder (transport_opts t) = DefaultDecoder.Decode ->
  pc k = Reading ->
  incoming (conn (peer k)) = [] ->
  (length (rpcch k) < rpcch_capacity)%nat ->
  let k' := run t k [LoopStep; LoopStep] in
  pc k' = Reading
  /\ rpcch k'
     = rpcch k ++ [{| From := RemoteAddr (conn (peer k)); Payload := []; Stream := false |}]
  /\ conn (peer k') = conn (peer k)
  /\ decoded k' = Datatypes.S (decoded k).
Proof.
  intros Hdec Hpc Hinc Hlen k'.
  assert (TCPTransport.loop_step t k
          = {| owner := owner k; peer := TCPPeer_with_conn (peer k) (conn (peer k));
               pc := Sending {| From := RemoteAddr (conn (peer k)); Payload := [];
                                Stream := false |};
               rpcch := rpcch k; decoded := Datatypes.S (decoded k);
               panicked := panicked k |}) as E1.
  { unfold TCPTransport.loop_step.
    by rewrite Hpc, Hdec, (Decode_marker_read_fails _ _ Hinc). }
  subst k'. cbn [run fold_left act]. rewrite E1.
  unfold TCPTransport.loop_step. cbn [pc rpcch].
  apply Nat.ltb_lt in Hlen. by rewrite Hlen.
Qed.

Lemma marker_read_fails_forever {S} `{FrameMarkers} (t : TCPTransport S) (n : nat)
    (k : Task S) :
  Decoder (transport_opts t) = DefaultDecoder.Decode ->
  pc k = Reading ->
  incoming (conn (peer k)) = [] ->
  (length (rpcch k) + n <= rpcch_capacity)%nat ->
  let k' := run t k (repeat LoopStep (2 * n)) in
  pc k' = Reading
  /\ rpcch k'
     = rpcch k
       ++ repeat {| From := RemoteAddr (conn (peer k)); Payload := []; Stream := false |} n
  /\ conn (peer k') = conn (peer k)
  /\ decoded k' = (decoded k + n)%nat.
Proof.
  intros Hdec. revert k. induction n as [|n IH]; intros k Hpc Hinc Hlen.
  { cbn. rewrite app_nil_r. repeat split; [done|lia]. }
  replace (2 * Datatypes.S n)%nat with (2 + 2 * n)%nat by lia.
  rewrite repeat_app. unfold run. rewrite fold_left_app.
  destruct (loop_step_marker_read_fails t k Hdec Hpc Hinc) as (Hpc' & Hch & Hconn & Hn);
    [lia|].
  unfold run in *. cbn [repeat] in *.
  set (k1 := fold_left (act t) [LoopStep; LoopStep] k) in *.
  destruct (IH k1 Hpc') as (H1 & H2 & H3 & H4).
  { by rewrite Hconn. }
  { rewrite Hch, length_app. cbn [length]. lia. }
  rewrite H1, H2, H3, H4, Hch, Hconn, Hn, <- app_assoc. cbn [app repeat].
  repeat split; first [done | lia].
Qed.

(** C6 fails on the code: on a connection whose every read fails with
    [io.EOF], the read of the marker byte fails, and the loop is not
    terminated: after three rounds the task is at the top of the loop, it has
    sent three empty RPCs to the channel, and the connection is not closed. *)
Lemma read_loop_survives_a_failed_marker_read :
  let t := transport example_node in
  let k := TCPTransport.handleConn t (server example_node) [] example_closed_conn false in
  let k' := run t k (repeat LoopStep 6) in
  pc k = Reading
  /\ pc k' = Reading
  /\ rpcch k' = repeat {| From := ":4000"; Payload := []; Stream := false |} 3
  /\ decoded k' = 3%nat
  /\ conn_closed (conn (peer k')) = false.
Proof. vm_compute. repeat split. Qed.

(** The steps of the loop, one by one. *)
Lemma loop_step_stream {S} `{FrameMarkers} (t : TCPTransport S) (k : Task S)
    (b : bytes) (more : list bytes) :
  Decoder (transport_opts t) = DefaultDecoder.Decode ->
  pc k = Reading ->
  incoming (conn (peer k)) = (IncomingStream :: b) :: more ->
  TCPTransport.loop_step t k
  = {| owner := owner k;
       peer := {| conn := Conn_with_incoming (conn (peer k)) (after_byte b more);
                  outbound := outbound (peer k); wg := wg (peer k) + 1 |};
       pc := Waiting; rpcch := rpcch k; decoded := Datatypes.S (decoded k);
       panicked := panicked k |}.
Proof.
  intros Hdec Hpc Hinc. unfold TCPTransport.loop_step.
  by rewrite Hpc, Hdec, (Decode_stream _ _ _ _ Hinc).
Qed.

Lemma loop_step_message {S} `{FrameMarkers} (t : TCPTransport S) (k : Task S)
    (payload : bytes) (later : list bytes) :
  Decoder (transport_opts t) = DefaultDecoder.Decode ->
  pc k = Reading ->
  IncomingMessage <> IncomingStream ->
  payload <> [] -> (length payload <= 1028)%nat ->
  incoming (conn (peer k)) = (IncomingMessage :: payload) :: later
  \/ incoming (conn (peer k)) = [IncomingMessage] :: payload :: later ->
  TCPTransport.loop_step t k
  = {| owner := owner k;
       peer := TCPPeer_with_conn (peer k) (Conn_with_incoming (conn (peer k)) later);
       pc := Sending {| From := RemoteAddr (conn (peer k)); Payload := payload;
                        Stream := false |};
       rpcch := rpcch k; decoded := Datatypes.S (decoded k);
       panicked := panicked k |}.
Proof.
  intros Hdec Hpc Hne Hpay Hlen Hinc. unfold TCPTransport.loop_step.
  by rewrite Hpc, Hdec, (Decode_message _ RPC_zero payload later Hne Hpay Hlen Hinc).
Qed.

Lemma loop_step_gate_open {S} (t : TCPTransport S) (k : Task S) :
  pc k = Waiting ->
  wg (peer k) = 0 ->
  TCPTransport.loop_step t k
  = {| owner := owner k; peer := peer k; pc := Reading; rpcch := rpcch k;
       decoded := decoded k; panicked := panicked k |}.
Proof.
  intros Hpc Hwg. unfold TCPTransport.loop_step. by rewrite Hpc, Hwg.
Qed.

Lemma loop_step_send {S} (t : TCPTransport S) (k : Task S) (rpc : RPC) :
  pc k = Sending rpc ->
  (length (rpcch k) < rpcch_capacity)%nat ->
  TCPTransport.loop_step t k
  = {| owner := owner k; peer := peer k; pc := Reading; rpcch := rpcch k ++ [rpc];
       decoded := decoded k; panicked := panicked k |}.
Proof.
  intros Hpc Hlen. unfold TCPTransport.loop_step. rewrite Hpc.
  apply Nat.ltb_lt in Hlen. by rewrite Hlen.
Qed.

(** While the task waits for the stream, nothing but [CloseStream] moves
    it: it decodes nothing and sends nothing to the channel. *)
Lemma waiting_blocks {S} (t : TCPTransport S) (acts : list action) (k : Task S) :
  Forall (fun a => a <> CloseStream) acts ->
  pc k = Waiting ->
  wg (peer k) <> 0 ->
  let k' := run t k acts in
  pc k' = Waiting
  /\ wg (peer k') = wg (peer k)
  /\ decoded k' = decoded k
  /\ panicked k' = panicked k
  /\ RemoteAddr (conn (peer k')) = RemoteAddr (conn (peer k))
  /\ exists n, rpcch k' = skipn n (rpcch k).
Proof.
  intros Hacts. revert k. induction Hacts as [|a acts Ha _ IH]; intros k Hpc Hwg.
  { cbn. repeat split; first [done | by exists 0%nat]. }
  cbn [run fold_left].
  assert (pc (act t k a) = Waiting /\ wg (peer (act t k a)) = wg (peer k)
          /\ decoded (act t k a) = decoded k /\ panicked (act t k a) = panicked k
          /\ RemoteAddr (conn (peer (act t k a))) = RemoteAddr (conn (peer k))
          /\ exists n, rpcch (act t k a) = skipn n (rpcch k))
    as (H1 & H2 & H3 & H4 & H5 & n & H6).
  { destruct a; [| |done|].
    - cbn [act]. unfold TCPTransport.loop_step. rewrite Hpc.
      apply Z.eqb_neq in Hwg. rewrite Hwg.
      repeat split; first [done | by exists 0%nat].
    - cbn. repeat split; first [done | by exists 0%nat].
    - cbn. repeat split; first [done | exists 1%nat; by destruct (rpcch k)]. }
  assert (wg (peer (act t k a)) <> 0) as Hwg' by (by rewrite H2).
  destruct (IH (act t k a) H1 Hwg') as (G1 & G2 & G3 & G4 & G5 & n' & G6).
  unfold run in *. rewrite G1, G2, G3, G4, G5, G6, H2, H3, H4, H5, H6.
  repeat split. exists (n' + n)%nat. by rewrite skipn_skipn.
Qed.

(** C5: the read loop decodes the marker of a stream and waits: whatever
    the loop, the consumer of the stream and the consumer of the channel do
    before [CloseStream], nothing more is decoded from the connection and
    nothing is sent to the channel.  When the consumer has read [N] more
    bytes and closed the stream, and what follows exactly these bytes is a
    message frame whose payload (not empty, at most 1028 bytes) comes as one
    delivery with nothing else in it, the loop decodes that frame: its
    payload and the remote address are sent to the channel. *)
Theorem stream_gate {S} `{FrameMarkers} (t : TCPTransport S) (k : Task S)
    (b : bytes) (more : list bytes) (acts : list action) :
  Decoder (transport_opts t) = DefaultDecoder.Decode ->
  pc k = Reading ->
  wg (peer k) = 0 ->
  incoming (conn (peer k)) = (IncomingStream :: b) :: more ->
  Forall (fun a => a <> CloseStream) acts ->
  let k1 := run t k [LoopStep] in
  let k2 := run t k (LoopStep :: acts) in
  (pc k1 = Waiting
   /\ decoded k1 = Datatypes.S (decoded k)
   /\ incoming (conn (peer k1)) = after_byte b more
   /\ rpcch k1 = rpcch k)
  /\ (pc k2 = Waiting
      /\ decoded k2 = Datatypes.S (decoded k)
      /\ exists n, rpcch k2 = skipn n (rpcch k))
  /\ (forall (N : nat) (payload : bytes) (later : list bytes),
        IncomingMessage <> IncomingStream ->
        (length (rpcch k) < rpcch_capacity)%nat ->
        payload <> [] ->
        (length payload <= 1028)%nat ->
        (let left := read_exactly N (incoming (conn (peer k2))) in
         left = (IncomingMessage :: payload) :: later
         \/ left = [IncomingMessage] :: payload :: later) ->
        let k3 := run t k (LoopStep :: acts
                             ++ [ConsumerRead N; CloseStream;
                                 LoopStep; LoopStep; LoopStep]) in
        pc k3 = Reading
        /\ decoded k3 = Datatypes.S (Datatypes.S (decoded k))
        /\ rpcch k3
           = rpcch k2 ++ [{| From := RemoteAddr (conn (peer k)); Payload := payload;
                             Stream := false |}]
        /\ incoming (conn (peer k3)) = later
        /\ panicked k3 = panicked k).
Proof.
  intros Hdec Hpc Hwg Hinc Hacts k1 k2.
  assert (k1 = TCPTransport.loop_step t k) as Hk1 by done.
  rewrite (loop_step_stream t k b more Hdec Hpc Hinc), Hwg in Hk1.
  assert (k2 = run t k1 acts) as Hk2 by done.
  assert (forall N, run t k (LoopStep :: acts
                               ++ [ConsumerRead N; CloseStream; LoopStep; LoopStep; LoopStep])
                    = TCPTransport.loop_step t
                        (TCPTransport.loop_step t
                           (TCPTransport.loop_step t
                              (act t (act t k2 (ConsumerRead N)) CloseStream)))) as Hk3.
  { intros N. subst k2. unfold run. cbn [fold_left]. by rewrite fold_left_app. }
  clearbody k1 k2.
  assert (pc k1 = Waiting) as A1 by (by rewrite Hk1).
  assert (wg (peer k1) <> 0) as A2 by (by rewrite Hk1).
  destruct (waiting_blocks t acts k1 Hacts A1 A2) as (B1 & B2 & B3 & B4 & B5 & n & B6).
  rewrite <- Hk2 in B1, B2, B3, B4, B5, B6.
  split; [by rewrite Hk1|]. split.
  { rewrite B1, B3, B6, Hk1. eauto. }
  intros N payload later Hne Hlen Hpay Hplen Hleft k3.
  cbv zeta in Hleft. subst k3. rewrite Hk3.
  assert (length (rpcch k2) < rpcch_capacity)%nat as Hlen2.
  { rewrite B6, length_skipn, Hk1. cbn [rpcch]. lia. }
  remember (act t (act t k2 (ConsumerRead N)) CloseStream) as kB eqn:HkB.
  remember (TCPTransport.loop_step t kB) as kC eqn:HkC.
  remember (TCPTransport.loop_step t kC) as kD eqn:HkD.
  cbn [act TCPPeer.CloseStream] in HkB.
  rewrite (loop_step_gate_open t kB) in HkC; cycle 1.
  { by rewrite HkB. }
  { rewrite HkB. cbn. rewrite B2, Hk1. done. }
  rewrite (loop_step_message t kC payload later Hdec) in HkD; cycle 1.
  { by rewrite HkC. }
  { exact Hne. }
  { exact Hpay. }
  { exact Hplen. }
  { by rewrite HkC, HkB. }
  rewrite (loop_step_send t kD
             {| From := RemoteAddr (conn (peer kC)); Payload := payload;
                Stream := false |}); cycle 1.
  { by rewrite HkD. }
  { by rewrite HkD, HkC, HkB. }
  rewrite HkD, HkC, HkB. cbn. rewrite B3, B4, B5, B2, Hk1. cbn.
  by rewrite orb_false_r.
Qed.

Lemma stream_gate_witness :
  let t := transport example_node in
  let acts := [LoopStep; ConsumerRead 1; Consume; LoopStep] in
  let k1 := run t example_task [LoopStep] in
  let k2 := run t example_task (LoopStep :: acts) in
  let k3 := run t example_task
              (LoopStep :: acts
                 ++ [ConsumerRead 2; CloseStream; LoopStep; LoopStep; LoopStep]) in
  (pc k1 = Waiting
   /\ decoded k1 = Datatypes.S (decoded example_task)
   /\ incoming (conn (peer k1)) = after_byte [] [[10; 20; 30]; [1; 7; 8]]
   /\ rpcch k1 = rpcch example_task)
  /\ (pc k2 = Waiting
      /\ decoded k2 = Datatypes.S (decoded example_task)
      /\ exists n, rpcch k2 = skipn n (rpcch example_task))
  /\ (pc k3 = Reading
      /\ decoded k3 = Datatypes.S (Datatypes.S (decoded example_task))
      /\ rpcch k3
         = rpcch k2 ++ [{| From := RemoteAddr (conn (peer example_task));
                           Payload := [7; 8]; Stream := false |}]
      /\ incoming (conn (peer k3)) = []
      /\ panicked k3 = panicked example_task).
Proof.
  destruct (@stream_gate FileServer example_markers (transport example_node) example_task
              [] [[10; 20; 30]; [1; 7; 8]] [LoopStep; ConsumerRead 1; Consume; LoopStep])
    as (P1 & P2 & P3).
  - reflexivity.
  - reflexivity.
  - reflexivity.
  - reflexivity.
  - repeat constructor; discriminate.
  - split; [exact P1|]. split; [exact P2|].
    apply (P3 2%nat [7; 8] []).
    + discriminate.
    + vm_compute. lia.
    + discriminate.
    + vm_compute. lia.
    + left. reflexivity.
Defined.

(** C5 as stated fails for a frame that the network delivers in two
    segments.  The message frame [1; 7; 8] follows exactly the three bytes of
    the stream; once the consumer has read them and closed the stream, the
    loop sends the payload [7], not [7; 8], to the channel, takes the byte
    [8] for the marker of a next frame, and drops the connection when the
    other end closes it. *)
Lemma stream_gate_counterexample :
  let t := transport example_node in
  let k2 := run t example_split_task [LoopStep; ConsumerRead 3; CloseStream] in
  let k3 := run t k2 [LoopStep; LoopStep; LoopStep] in
  let k4 := run t k3 [LoopStep] in
  pc k2 = Waiting
  /\ concat (incoming (conn (peer k2))) = @IncomingMessage example_markers :: [7; 8]
  /\ pc k3 = Reading
  /\ rpcch k3 = [{| From := ":4000"; Payload := [7]; Stream := false |}]
  /\ ~ (exists rpc, rpc ∈ rpcch k3 /\ Payload rpc = [7; 8])
  /\ pc k4 = Dropped (Some EOF)
  /\ rpcch k4 = rpcch k3
  /\ conn_closed (conn (peer k4)) = true.
Proof.
  vm_compute. repeat split.
  intros (rpc & Hin & Hpay).
  apply list_elem_of_singleton in Hin. subst rpc. discriminate.
Qed.

(** ** What is written to the store is read back *)

(** [io.Copy] from a reader that holds [data] into an open file: when it
    returns, all of [data] is appended to the file. *)
Lemma Copy_to_file {R} `{io.Reader R} (mk : bytes -> R) :
  holds_bytes mk ->
  forall fuel data written (fs : FS) f d0 res fs' f' r',
    fs !! os.Name f = Some (File d0) ->
    io.Copy_from fuel written (fs, f) (mk data) = Some (res, (fs', f'), r') ->
    res = (written + Z.of_nat (length data), None) /\ f' = f /\ r' = mk []
    /\ fs' !! os.Name f = Some (File (d0 ++ data)).
Proof.
  intros Hmk. induction fuel as [|fuel IH];
    intros data written fs f d0 res fs' f' r' Hf Hc; [done|].
  cbn [io.Copy_from] in Hc.
  pose proof buffer_size_pos as Hn. rewrite (Hmk data _ Hn) in Hc.
  revert Hn Hc. generalize (32 * 1024)%nat. intros n Hn Hc.
  destruct data as [|x data].
  - simpl in Hc. injection Hc as <- <- <- <-.
    by rewrite Z.add_0_r, app_nil_r.
  - remember (x :: data) as d eqn:Hd.
    assert (d <> []) as Hne by (by subst).
    replace (match d with
             | [] => ([], Some EOF, mk [])
             | _ :: _ => (take n d, None, mk (drop n d))
             end) with (take n d, @None error, mk (drop n d)) in Hc by (by destruct d).
    assert (0 < length (take n d))%nat as Hpos.
    { rewrite length_take. destruct d; [done|]. simpl. lia. }
    assert ((0 <? Z.of_nat (length (take n d))) = true) as E1 by (apply Z.ltb_lt; lia).
    rewrite E1 in Hc.
    unfold io.Write at 1 in Hc. unfold os_File_Writer at 1 in Hc.
    unfold os.File_Write in Hc. cbn [fst snd] in Hc. rewrite Hf in Hc.
    assert ((Z.of_nat (length (take n d)) <? 0) = false) as E2 by (apply Z.ltb_ge; lia).
    rewrite E2, Z.ltb_irrefl in Hc. cbn [orb] in Hc.
    rewrite Z.eqb_refl in Hc. cbn [negb] in Hc.
    apply (IH _ _ _ _ (d0 ++ take n d)) in Hc as (-> & -> & -> & Hfile);
      [|apply lookup_insert_eq].
    repeat split; try done.
    + f_equal. rewrite <- Z.add_assoc, <- Nat2Z.inj_add, <- length_app, take_drop. done.
    + by rewrite Hfile, <- app_assoc, take_drop.
Qed.

(** Where [Create] makes the file. *)
Lemma Create_at (fs : FS) name comps c fs' f :
  strings.Split name "/" = comps ++ [c] ->
  no_dotdot comps = true -> plain c = true ->
  os.Create fs name = (fs', Ok f) ->
  os.walk fs [] comps = Ok (clean comps)
  /\ os.entry fs (clean comps) = Some (Dir true)
  /\ os.Name f = clean comps ++ [c]
  /\ fs' = <[clean comps ++ [c] := File []]> fs.
Proof.
  intros Hs Hnd Hc. unfold os.Create. destruct (String.eqb name ""); [done|].
  rewrite Hs, removelast_snoc, last_snoc.
  destruct (os.walk fs [] comps) as [dir|e] eqn:Hw; [|done].
  pose proof (walk_position _ _ _ _ Hnd Hw) as ->. simpl.
  destruct (os.entry fs (clean comps)) as [[|[]]|]; try done.
  apply plain_spec in Hc as (-> & -> & _). simpl.
  destruct (fs !! (clean comps ++ [c])) as [[|]|]; intros [= <- <-]; done.
Qed.

(** The walk to an entry below a directory that the walk reaches. *)
Lemma walk_to_entry (fs fs' : FS) comps c n :
  no_dotdot comps = true -> plain c = true ->
  os.walk fs [] comps = Ok (clean comps) ->
  os.entry fs (clean comps) = Some (Dir true) ->
  (forall p, p <> clean comps ++ [c] -> fs' !! p = fs !! p) ->
  fs' !! (clean comps ++ [c]) = Some n ->
  os.walk fs' [] (comps ++ [c]) = Ok (clean comps ++ [c]).
Proof.
  intros Hnd Hc Hw Hdir Hsame Hn.
  assert (forall p, p `prefix_of` clean comps -> os.entry fs' p = os.entry fs p) as Hent.
  { intros p Hp. destruct p as [|x p]; [done|]. cbn [os.entry]. apply Hsame.
    intros E. apply prefix_length in Hp. rewrite E, length_app in Hp. simpl in Hp. lia. }
  rewrite walk_app, (walk_frame fs fs' [] comps Hnd), Hw.
  2: { intros p _ Hp. by apply Hent. }
  apply plain_spec in Hc as (Hdot & Hdd & _).
  rewrite (walk_cons_name fs' _ c [] n Hdot Hdd); [done| |done].
  by rewrite Hent.
Qed.

(** [Read] and [Has] when the walk along the path of the key ends at a
    file. *)
Lemma Read_at (s : Store) (fs : FS) (id key : string) p data :
  is_cas s -> plain id = true ->
  os.walk fs [] (file_comps s id key) = Ok p ->
  p <> [] ->
  fs !! p = Some (File data) ->
  Store.Has s fs id key = true
  /\ Store.Read s fs id key = Ok (Z.of_nat (length data), {| os.Name := p |})
  /\ os.File_contents fs {| os.Name := p |} = Ok data.
Proof.
  intros Hs Hid Hw Hp Hf. split; [|split].
  - by rewrite (Has_walk s fs id key Hs Hid), Hw.
  - unfold Store.Read, Store.readStream, os.Open, os.resolve.
    rewrite Sprintf3_nonempty, (Split_full_path s id key Hs Hid), Hw.
    rewrite (entry_nonnil fs p Hp), Hf. unfold os.File_Stat. cbn [os.Name].
    by rewrite (entry_nonnil fs p Hp), Hf.
  - unfold os.File_contents. cbn [os.Name]. by rewrite (entry_nonnil fs p Hp), Hf.
Qed.

Lemma dir_comps_no_dotdot (s : Store) (id key : string) :
  no_dotdot (strings.Split (store_Root s) "/") = true -> plain id = true ->
  no_dotdot (strings.Split (store_Root s) "/" ++ [id] ++ cas_segments key) = true.
Proof.
  intros Hnd Hid. rewrite !no_dotdot_app, Hnd, (plain_no_dotdot id Hid).
  by rewrite (Forall_plain_no_dotdot _ (cas_segments_plain key)).
Qed.

(** X1: what [Write] has stored without error, [Read] returns: the key is
    there, [Read] reports the length of the data and opens a file that holds
    the data, whatever was stored under the key before. *)
Theorem Write_then_Read {R} `{io.Reader R} (mk : bytes -> R) (fuel : nat)
    (s : Store) (fs : FS) (id key : string) (data : bytes) n fs' r' :
  holds_bytes mk ->
  is_cas s -> plain id = true ->
  no_dotdot (strings.Split (store_Root s) "/") = true ->
  Store.Write fuel s fs id key (mk data) = Some ((n, None), fs', r') ->
  n = Z.of_nat (length data)
  /\ Store.Has s fs' id key = true
  /\ exists f, Store.Read s fs' id key = Ok (Z.of_nat (length data), f)
               /\ os.File_contents fs' f = Ok data.
Proof.
  intros Hmk Hs Hid Hnd Hwr.
  unfold Store.Write, Store.writeStream in Hwr.
  destruct (Store.openFileForWriting s fs id key) as [fs1 [f|e]] eqn:Hop; [|done].
  pose proof (openFileForWriting_ok _ _ _ _ _ _ Hop) as Hf1.
  unfold Store.openFileForWriting in Hop.
  destruct (os.MkdirAll fs _) as [fs0 [e|]]; [done|].
  pose proof (Split_full_path s id key Hs Hid) as Hsplit.
  rewrite file_comps_snoc in Hsplit.
  pose proof (dir_comps_no_dotdot s id key Hnd Hid) as Hnd'.
  destruct (Create_at _ _ _ _ _ _ Hsplit Hnd' (CAS_Filename_plain key) Hop)
    as (Hw & Hdir & Hname & ->).
  unfold io.Copy in Hwr.
  destruct (io.Copy_from fuel 0 _ (mk data)) as [[[res [fs2 f2]] r2]|] eqn:Hcopy; [|done].
  injection Hwr as -> -> ->.
  pose proof (fun p => Copy_file_frame _ _ _ _ _ _ _ _ _ p Hcopy) as Hframe.
  apply (Copy_to_file mk Hmk _ _ _ _ _ [] _ _ _ _ Hf1) in Hcopy as (Hres & _ & _ & Hfile).
  injection Hres as ->. rewrite Hname in *. simpl in Hfile.
  assert (os.walk fs' [] (file_comps s id key)
          = Ok (clean (strings.Split (store_Root s) "/" ++ [id] ++ cas_segments key)
                ++ [Filename (CASPathTransformFunc key)])) as Hwalk.
  { rewrite file_comps_snoc.
    eapply (walk_to_entry fs0 fs'); try done; [apply CAS_Filename_plain|].
    intros p Hp. rewrite (Hframe p Hp). by rewrite lookup_insert_ne. }
  destruct (Read_at s fs' id key _ data Hs Hid Hwalk) as (HH & HR & HC); [|done|].
  { intros E. apply (f_equal (@length _)) in E. rewrite length_app in E. simpl in E. lia. }
  split; [lia|]. eauto.
Qed.

Lemma Write_then_Read_witness :
  let s := casStore ":5000_network" in
  22 = Z.of_nat (length some_bytes)
  /\ Store.Has s fs_after_write "node" "picture_0.png" = true
  /\ exists f, Store.Read s fs_after_write "node" "picture_0.png"
               = Ok (Z.of_nat (length some_bytes), f)
               /\ os.File_contents fs_after_write f = Ok some_bytes.
Proof.
  apply (Write_then_Read Build_bytes_Reader 5 (casStore ":5000_network") ∅ "node"
           "picture_0.png" some_bytes 22 fs_after_write {| rest := [] |}).
  - exact bytes_Reader_holds.
  - reflexivity.
  - vm_compute; reflexivity.
  - vm_compute; reflexivity.
  - vm_cast_no_check (@eq_refl _ (Some ((22, @None error), fs_after_write, {| rest := [] |}))).
Defined.

(** ** When [Write] succeeds *)

(** Making directories along a way on which nothing but accessible
    directories is met. *)
Lemma mkdir_walk_free comps :
  forall (fs : FS) cur,
    no_dotdot comps = true ->
    os.entry fs cur = Some (Dir true) ->
    (forall k, os.entry fs (cur ++ take k (clean comps)) = None
               \/ os.entry fs (cur ++ take k (clean comps)) = Some (Dir true)) ->
    exists fs',
      os.mkdir_walk fs cur comps = (fs', Ok (cur ++ clean comps))
      /\ os.walk fs' cur comps = Ok (cur ++ clean comps)
      /\ os.entry fs' (cur ++ clean comps) = Some (Dir true).
Proof.
  induction comps as [|c cs IH]; intros fs cur Hnd Hcur Hway.
  { exists fs. cbn. by rewrite app_nil_r. }
  cbn [no_dotdot forallb] in Hnd. apply andb_prop in Hnd as [Hc Hnd].
  apply negb_true_iff in Hc. change (forallb _ cs) with (no_dotdot cs) in Hnd.
  cbn [os.mkdir_walk os.walk]. rewrite Hcur.
  destruct (os.is_dot c) eqn:Hdot.
  { assert (clean (c :: cs) = clean cs) as E by (unfold clean; simpl; by rewrite Hdot).
    rewrite E in *. destruct (IH fs cur Hnd Hcur Hway) as (fs' & Hmk & Hw & He).
    exists fs'. by rewrite (mkdir_walk_entry_mono _ _ _ _ _ _ _ Hmk Hcur). }
  assert (clean (c :: cs) = c :: clean cs) as E by (unfold clean; simpl; by rewrite Hdot).
  rewrite E in *. rewrite Hc.
  assert (forall fs1 : FS,
            os.entry fs1 (cur ++ [c]) = Some (Dir true) ->
            (forall p n, fs !! p = Some n -> fs1 !! p = Some n) ->
            (forall p, p <> cur ++ [c] -> fs1 !! p = fs !! p) ->
            exists fs',
              os.mkdir_walk fs1 (cur ++ [c]) cs = (fs', Ok (cur ++ c :: clean cs))
              /\ os.walk fs' (cur ++ [c]) cs = Ok (cur ++ c :: clean cs)
              /\ os.entry fs' (cur ++ c :: clean cs) = Some (Dir true)
              /\ os.entry fs' cur = Some (Dir true)
              /\ is_Some (fs' !! (cur ++ [c]))) as Hgo.
  { intros fs1 H1 Hmono Hsame.
    destruct (IH fs1 (cur ++ [c]) Hnd H1) as (fs' & Hmk & Hw & He).
    { intros k. rewrite <- app_assoc. cbn [app].
      destruct k as [|k]; [rewrite take_0; by right|].
      destruct (clean cs) as [|x l] eqn:Ecs; [rewrite take_nil; by right|].
      assert (os.entry fs1 (cur ++ c :: take (S k) (x :: l))
              = os.entry fs (cur ++ c :: take (S k) (x :: l))) as ->.
      { rewrite !entry_nonnil by (by destruct cur). apply Hsame.
        intros E'. apply (f_equal (@length _)) in E'.
        rewrite !length_app in E'. simpl in E'. lia. }
      pose proof (Hway (S (S k))) as Hk. rewrite ?Ecs in Hk. exact Hk. }
    rewrite <- app_assoc in Hmk, Hw, He. cbn [app] in Hmk, Hw, He.
    exists fs'. repeat split; try done.
    - apply (mkdir_walk_entry_mono _ _ _ _ _ _ _ Hmk).
      destruct cur as [|x cur]; [done|]. cbn [os.entry] in *.
      destruct (fs !! (x :: cur)) as [n|] eqn:En; [|done].
      rewrite (Hmono _ _ En). done.
    - rewrite entry_app_cons in H1.
      exists (Dir true). by apply (mkdir_walk_mono _ _ _ _ _ _ _ Hmk). }
  pose proof (Hway 1%nat) as H1. cbn [take] in H1. rewrite take_0 in H1.
  rewrite entry_app_cons in H1.
  destruct (fs !! (cur ++ [c])) as [n|] eqn:En.
  - destruct H1 as [|H1]; [done|]. injection H1 as ->.
    destruct (Hgo fs) as (fs' & Hmk & Hw & He & Hcur' & [n Hn]); try done.
    { by rewrite entry_app_cons. }
    exists fs'. rewrite Hmk, Hcur', Hn. done.
  - destruct (Hgo (<[cur ++ [c] := Dir true]> fs)) as (fs' & Hmk & Hw & He & Hcur' & [n Hn]).
    { by rewrite entry_app_cons, lookup_insert_eq. }
    { intros p n Hp. rewrite lookup_insert_ne; [done|]. intros <-. congruence. }
    { intros p Hp. by rewrite lookup_insert_ne. }
    exists fs'. rewrite Hmk, Hcur', Hn. done.
Qed.

(** [MkdirAll] on such a way. *)
Lemma MkdirAll_free (fs : FS) name :
  String.eqb name "" = false ->
  no_dotdot (strings.Split name "/") = true ->
  (forall p, p `prefix_of` clean (strings.Split name "/") ->
     os.entry fs p = None \/ os.entry fs p = Some (Dir true)) ->
  exists fs',
    os.MkdirAll fs name = (fs', None)
    /\ os.walk fs' [] (strings.Split name "/") = Ok (clean (strings.Split name "/"))
    /\ os.entry fs' (clean (strings.Split name "/")) = Some (Dir true)
    /\ forall p, ~ p `prefix_of` clean (strings.Split name "/") -> fs' !! p = fs !! p.
Proof.
  intros Hname Hnd Hway. unfold os.MkdirAll.
  destruct (os.Stat fs name) as [fi|e] eqn:Hstat.
  - unfold os.Stat, os.resolve in Hstat. rewrite Hname in Hstat.
    destruct (os.walk fs [] _) as [p|] eqn:Hw; [|done].
    pose proof (walk_position _ _ _ _ Hnd Hw) as ->. cbn [app] in *.
    destruct (Hway (clean (strings.Split name "/"))) as [E|E]; [done| |];
      rewrite E in Hstat; [done|]. injection Hstat as <-. cbn.
    exists fs. done.
  - rewrite Hname.
    destruct (mkdir_walk_free (strings.Split name "/") fs [] Hnd eq_refl)
      as (fs' & Hmk & Hw & He).
    { intros k. apply Hway. cbn [app]. apply prefix_take. }
    cbn [app] in *. rewrite Hmk, He. exists fs'. repeat split; try done.
    intros p Hp.
    destruct (mkdir_walk_changes _ _ _ _ _ p Hnd Hmk) as [E|(_ & _ & k & _ & ->)]; [done|].
    destruct Hp. cbn [app]. apply prefix_take.
Qed.

(** With fuel for it, [io.Copy] runs to its end. *)
Lemma Copy_to_file_runs {R} `{io.Reader R} (mk : bytes -> R) :
  holds_bytes mk ->
  forall fuel data written (fs : FS) f d0,
    (length data < fuel)%nat ->
    fs !! os.Name f = Some (File d0) ->
    is_Some (io.Copy_from fuel written (fs, f) (mk data)).
Proof.
  intros Hmk. induction fuel as [|fuel IH]; intros data written fs f d0 Hfuel Hf; [lia|].
  cbn [io.Copy_from].
  pose proof buffer_size_pos as Hn. rewrite (Hmk data _ Hn).
  revert Hn. generalize (32 * 1024)%nat. intros n Hn.
  destruct data as [|x data]; [by eexists|].
  remember (x :: data) as d eqn:Hd.
  assert (d <> []) as Hne by (by subst).
  replace (match d with
           | [] => ([], Some EOF, mk [])
           | _ :: _ => (take n d, None, mk (drop n d))
           end) with (take n d, @None error, mk (drop n d)) by (by destruct d).
  assert (0 < length (take n d))%nat as Hpos.
  { rewrite length_take. destruct d; [done|]. simpl. lia. }
  assert ((0 <? Z.of_nat (length (take n d))) = true) as -> by (apply Z.ltb_lt; lia).
  unfold io.Write at 1. unfold os_File_Writer at 1.
  unfold os.File_Write. cbn [fst snd]. rewrite Hf.
  assert ((Z.of_nat (length (take n d)) <? 0) = false) as -> by (apply Z.ltb_ge; lia).
  rewrite Z.ltb_irrefl. cbn [orb]. rewrite Z.eqb_refl. cbn [negb].
  apply (IH _ _ _ _ (d0 ++ take n d)); [|apply lookup_insert_eq].
  pose proof (skipn_shorter d n Hn Hne). lia.
Qed.

(** X2: [Write] succeeds whenever the path of the key is free: it returns
    the length of the data and no error, the file of the key holds the data,
    and nothing is changed but the file and the directories that lead to
    it. *)
Theorem Write_succeeds {R} `{io.Reader R} (mk : bytes -> R) (fuel : nat)
    (s : Store) (fs : FS) (id key : string) (data : bytes) :
  holds_bytes mk ->
  is_cas s -> plain id = true ->
  no_dotdot (strings.Split (store_Root s) "/") = true ->
  (length data < fuel)%nat ->
  free_path fs (clean (file_comps s id key)) ->
  exists fs',
    Store.Write fuel s fs id key (mk data)
    = Some ((Z.of_nat (length data), None), fs', mk [])
    /\ fs' !! clean (file_comps s id key) = Some (File data)
    /\ forall p, ~ p `prefix_of` clean (file_comps s id key) -> fs' !! p = fs !! p.
Proof.
  intros Hmk Hs Hid Hnd Hfuel [Hway Htarget].
  pose proof (Split_dir_path s id key Hs Hid) as Hdsplit.
  pose proof (Split_full_path s id key Hs Hid) as Hfsplit.
  pose proof (dir_comps_no_dotdot s id key Hnd Hid) as Hnd'.
  pose proof (CAS_Filename_plain key) as Hplain.
  rewrite file_comps_snoc in *. rewrite clean_app, (plain_clean _ Hplain) in *.
  set (dir := strings.Split (store_Root s) "/" ++ [id] ++ cas_segments key) in *.
  set (c := Filename (CASPathTransformFunc key)) in *.
  assert (forall p, p `prefix_of` clean dir -> p <> clean dir ++ [c]) as Hshort.
  { intros p Hp E. apply prefix_length in Hp. rewrite E, length_app in Hp. simpl in Hp. lia. }
  destruct (MkdirAll_free fs (Sprintf3 (store_Root s) id (PathName (store_PathTransformFunc s key))))
    as (fs0 & Hmk0 & Hw0 & He0 & Hsame0).
  { apply Sprintf3_nonempty. }
  { by rewrite Hdsplit. }
  { rewrite Hdsplit. intros p Hp. apply Hway; [|by apply Hshort].
    by apply prefix_app_r. }
  rewrite Hdsplit in Hw0, He0, Hsame0.
  unfold Store.Write, Store.writeStream, Store.openFileForWriting. rewrite Hmk0.
  assert (fs0 !! (clean dir ++ [c]) = fs !! (clean dir ++ [c])) as Htarget0.
  { apply Hsame0. intros Hp. by apply (Hshort _ Hp). }
  assert (os.Create fs0 (Sprintf3 (store_Root s) id (FullPath (store_PathTransformFunc s key)))
          = (<[clean dir ++ [c] := File []]> fs0, Ok {| os.Name := clean dir ++ [c] |})) as ->.
  { unfold os.Create. rewrite Sprintf3_nonempty, Hfsplit, removelast_snoc, last_snoc, Hw0, He0.
    destruct (plain_spec _ Hplain) as (-> & -> & _). cbn [orb].
    rewrite Htarget0. by destruct Htarget as [->|[d ->]]. }
  set (f := {| os.Name := clean dir ++ [c] |}).
  set (fs1 := <[clean dir ++ [c] := File []]> fs0).
  assert (fs1 !! os.Name f = Some (File [])) as Hf1 by apply lookup_insert_eq.
  unfold io.Copy.
  destruct (Copy_to_file_runs mk Hmk fuel data 0 fs1 f [] Hfuel Hf1) as [[[res [fs2 f2]] r2] Hcopy].
  rewrite Hcopy.
  pose proof (fun p => Copy_file_frame _ _ _ _ _ _ _ _ _ p Hcopy) as Hframe.
  apply (Copy_to_file mk Hmk _ _ _ _ _ [] _ _ _ _ Hf1) in Hcopy as (-> & _ & -> & Hfile).
  exists fs2. repeat split; try done.
  intros p Hp. rewrite Hframe.
  - unfold fs1. rewrite lookup_insert_ne.
    + apply Hsame0. intros Hp'. apply Hp. by apply prefix_app_r.
    + intros <-. by apply Hp.
  - intros ->. by apply Hp.
Qed.

Lemma Write_succeeds_witness :
  exists fs',
    Store.Write 23 (casStore ":5000_network") ∅ "node" "picture_0.png" {| rest := some_bytes |}
    = Some ((Z.of_nat (length some_bytes), None), fs', {| rest := [] |})
    /\ fs' !! clean (file_comps (casStore ":5000_network") "node" "picture_0.png")
       = Some (File some_bytes)
    /\ forall p, ~ p `prefix_of` clean (file_comps (casStore ":5000_network") "node"
                                        "picture_0.png") ->
                 fs' !! p = (∅ : FS) !! p.
Proof.
  apply (Write_succeeds Build_bytes_Reader 23 (casStore ":5000_network") ∅ "node"
           "picture_0.png" some_bytes).
  - exact bytes_Reader_holds.
  - reflexivity.
  - vm_compute; reflexivity.
  - vm_compute; reflexivity.
  - vm_compute; lia.
  - split.
    + intros p _ _. destruct p; [by right|by left].
    + by left.
Defined.

(** ** [Delete] and [Clear] *)

(** [RemoveAll] of what is not there. *)
Lemma RemoveAll_absent (fs : FS) name comps c :
  strings.Split name "/" = comps ++ [c] -> plain c = true ->
  os.walk fs [] (comps ++ [c]) = Err (PathError ENOENT) ->
  os.RemoveAll fs name = (fs, None).
Proof.
  intros Hs Hc Hw. unfold os.RemoveAll. destruct (String.eqb name ""); [done|].
  rewrite Hs, last_snoc, (plain_not_dot _ Hc).
  rewrite strip_trailing_empty_snoc by (by apply plain_nonempty).
  by rewrite Hw.
Qed.

Lemma Split_shard (s : Store) (id key : string) :
  is_cas s ->
  strings.Split (Sprintf3 (store_Root s) id (FirstPathName (store_PathTransformFunc s key))) "/"
  = (strings.Split (store_Root s) "/" ++ strings.Split id "/")
      ++ [FirstPathName (CASPathTransformFunc key)].
Proof.
  intros Hs. rewrite Hs, Split_Sprintf3, app_assoc. f_equal.
  by destruct (plain_spec _ (CAS_FirstPathName_plain key)) as (_ & _ & ->).
Qed.

(** X3: after a [Delete] that returned no error the key cannot be read,
    and a second [Delete] of the key returns no error and changes
    nothing. *)
Theorem Delete_twice (s : Store) (fs : FS) (id key : string) fs' :
  is_cas s ->
  Store.Delete s fs id key = (fs', None) ->
  Store.Read s fs' id key = Err (PathError ENOENT)
  /\ Store.Delete s fs' id key = (fs', None).
Proof.
  intros Hs Hdel. split.
  - pose proof (Delete_then_walk s fs id key key fs' Hs eq_refl Hdel) as Hw.
    assert (strings.Split (Sprintf3 (store_Root s) id (FullPath (store_PathTransformFunc s key))) "/"
            = (strings.Split (store_Root s) "/" ++ strings.Split id "/" ++ cas_segments key)
              ++ [Filename (CASPathTransformFunc key)]) as Hsplit.
    { rewrite Hs, Split_Sprintf3, CAS_Split_FullPath. by rewrite <- !app_assoc. }
    unfold Store.Read, Store.readStream.
    pose proof (Open_err_plain fs' _ _ _ Hsplit (CAS_Filename_plain key)
                  (Sprintf3_nonempty _ _ _)) as He.
    rewrite Hw in He. destruct (os.Open fs' _) as [|e]; [done|]. simpl in He. congruence.
  - unfold Store.Delete in *.
    pose proof (Split_shard s id key Hs) as Hsplit.
    pose proof (CAS_FirstPathName_plain key) as Hplain.
    apply (RemoveAll_absent fs' _ _ _ Hsplit Hplain).
    exact (RemoveAll_plain fs _ _ _ fs' Hsplit Hplain Hdel).
Qed.

Lemma Delete_twice_witness :
  let s := casStore ":5000_network" in
  Store.Read s fs_after_delete "node" "picture_75.png" = Err (PathError ENOENT)
  /\ Store.Delete s fs_after_delete "node" "picture_75.png" = (fs_after_delete, None).
Proof.
  apply (Delete_twice (casStore ":5000_network") fs_two_keys "node" "picture_75.png").
  - reflexivity.
  - vm_cast_no_check (@eq_refl _ (fs_after_delete, @None error)).
Defined.

(** X4: after a [Clear] that returned no error nothing is found in the
    store, whatever its path function: for every namespace and key [Has] is
    false and [Read] fails with the not-exist error. *)
Theorem Clear_then_absent (s : Store) (fs : FS) fs' (id key : string) :
  plain (List.last (strings.Split (store_Root s) "/") "") = true ->
  Store.Clear s fs = (fs', None) ->
  Store.Has s fs' id key = false
  /\ Store.Read s fs' id key = Err (PathError ENOENT).
Proof.
  intros Hplain Hclear. unfold Store.Clear in Hclear.
  pose proof (app_removelast_last "" (Split_nonnil (store_Root s) "/")) as Hsplit.
  pose proof (RemoveAll_plain fs _ _ _ fs' Hsplit Hplain Hclear) as Hw.
  rewrite <- Hsplit in Hw.
  assert (os.resolve fs' (Sprintf3 (store_Root s) id (FullPath (store_PathTransformFunc s key)))
          = Err (PathError ENOENT)) as Hres.
  { unfold os.resolve. by rewrite Sprintf3_nonempty, Split_Sprintf3, walk_app, Hw. }
  unfold Store.Has, Store.Read, Store.readStream, os.Stat, os.Open.
  by rewrite Hres.
Qed.

Lemma Clear_then_absent_witness :
  let s := casStore ":5000_network" in
  Store.Has s fs_after_clear "node" "picture_0.png" = false
  /\ Store.Read s fs_after_clear "node" "picture_0.png" = Err (PathError ENOENT).
Proof.
  apply (Clear_then_absent (casStore ":5000_network") fs_after_write).
  - vm_compute; reflexivity.
  - vm_cast_no_check (@eq_refl _ (fs_after_clear, @None error)).
Defined.

(** ** Keys and paths *)

(** X5: two keys are stored under the same path exactly when their SHA-1
    digests are the same. *)
Theorem CAS_same_path_iff (k1 k2 : string) :
  FullPath (CASPathTransformFunc k1) = FullPath (CASPathTransformFunc k2)
  <-> sha1.Sum (bytes_of_string k1) = sha1.Sum (bytes_of_string k2).
Proof.
  split.
  - intros E. apply (f_equal (fun p => strings.Split p "/")) in E.
    rewrite !CAS_Split_FullPath in E.
    apply (f_equal (fun l => List.last l "")) in E. rewrite !last_snoc in E.
    apply EncodeToString_inj in E; [done|apply sha1_Sum_is_byte..].
  - intros E. unfold CASPathTransformFunc. by rewrite E.
Qed.

(** ** [copyDecrypt] on any input *)

(** X6: [copyDecrypt] checks nothing: of an empty blob it fails with
    [io.EOF]; of any other blob it takes the first 16 bytes as the
    initialization value (filled up with zeros when the blob is shorter),
    writes the rest xored with the key stream, and returns 16 plus the number
    of bytes written, with no error. *)
Theorem copyDecrypt_any_blob `{AES} (key blob : bytes) (fuel : nat) :
  (length key = 16 \/ length key = 24 \/ length key = 32)%nat ->
  (length blob < fuel)%nat ->
  let iv := firstn 16 (blob ++ repeat 0 16%nat) in
  let stream := cipher.NewCTR {| aes.Encrypt := aes_encryptBlock key |} iv in
  let out := cipher.xor_from stream 0 (skipn 16 blob) in
  copyDecrypt fuel key {| unread := blob |} {| unread := [] |}
  = match blob with
    | [] => Some ((0, Some EOF), {| unread := [] |}, {| unread := [] |})
    | _ => Some ((16 + Z.of_nat (length out), None), {| unread := [] |}, {| unread := out |})
    end
  /\ length out = (length blob - 16)%nat.
Proof.
  intros Hkey Hfuel iv stream out. split.
  2:{ unfold out. by rewrite xor_from_length, length_drop. }
  subst out stream iv.
  unfold copyDecrypt. rewrite (NewCipher_valid key Hkey). unfold aes.BlockSize.
  change {| unread := blob |} with (Build_bytes_Buffer blob).
  rewrite (bytes_Buffer_holds blob 16%nat) by lia.
  destruct blob as [|x l] eqn:E; [done|]. rewrite <- E in *.
  assert (take 16 (take 16 blob ++ repeat 0 16%nat) = take 16 (blob ++ repeat 0 16%nat)) as ->.
  { destruct (decide (16 <= length blob)%nat).
    - rewrite (take_app_le blob) by lia.
      rewrite take_app_le by (rewrite length_take; lia). by rewrite take_take.
    - by rewrite (take_ge blob) by lia. }
  unfold copyStream.
  rewrite (copyStream_from_bytes Build_bytes_Buffer bytes_Buffer_holds).
  2:{ rewrite length_drop. lia. }
  by rewrite xor_from_length.
Qed.

Lemma copyDecrypt_any_blob_witness :
  let blob := [1; 2; 3] in
  let iv := firstn 16 (blob ++ repeat 0 16%nat) in
  let stream := cipher.NewCTR {| aes.Encrypt := aes_encryptBlock test_key |} iv in
  let out := cipher.xor_from stream 0 (skipn 16 blob) in
  copyDecrypt 4 test_key {| unread := blob |} {| unread := [] |}
  = Some ((16 + Z.of_nat (length out), None), {| unread := [] |}, {| unread := out |})
  /\ length out = (length blob - 16)%nat.
Proof.
  apply (copyDecrypt_any_blob test_key [1; 2; 3] 4).
  - right; right; reflexivity.
  - simpl; lia.
Defined.

Lemma xor_from_xor_bytes (s : cipher.CTR) i c d :
  length d = length c ->
  cipher.xor_from s i (rijndael.xor_bytes c d)
  = rijndael.xor_bytes (cipher.xor_from s i c) d.
Proof.
  unfold rijndael.xor_bytes. revert i d.
  induction c as [|x c IH]; intros i [|y d] Hlen; try done.
  cbn [combine map cipher.xor_from fst snd]. rewrite IH by (simpl in Hlen; lia).
  f_equal. rewrite !Z.lxor_assoc. f_equal. apply Z.lxor_comm.
Qed.

(** X7: the cipher text is malleable: when the bytes after the
    initialization value are xored with [d], [copyDecrypt] writes the plain
    text xored with [d], and reports no error. *)
Theorem copyDecrypt_malleable `{AES} (key iv c d : bytes) (fuel : nat) :
  (length key = 16 \/ length key = 24 \/ length key = 32)%nat ->
  length iv = 16%nat ->
  length d = length c ->
  (16 + length c < fuel)%nat ->
  exists m,
    copyDecrypt fuel key {| unread := iv ++ c |} {| unread := [] |}
    = Some ((16 + Z.of_nat (length c), None), {| unread := [] |}, {| unread := m |})
    /\ copyDecrypt fuel key {| unread := iv ++ rijndael.xor_bytes c d |} {| unread := [] |}
       = Some ((16 + Z.of_nat (length c), None), {| unread := [] |},
               {| unread := rijndael.xor_bytes m d |}).
Proof.
  intros Hkey Hiv Hd Hfuel.
  set (stream := cipher.NewCTR {| aes.Encrypt := aes_encryptBlock key |} iv).
  assert (forall c', length c' = length c ->
            copyDecrypt fuel key {| unread := iv ++ c' |} {| unread := [] |}
            = Some ((16 + Z.of_nat (length c), None), {| unread := [] |},
                    {| unread := cipher.xor_from stream 0 c' |})) as Hdec.
  { intros c' Hc'. unfold copyDecrypt. rewrite (NewCipher_valid key Hkey).
    unfold aes.BlockSize.
    change {| unread := iv ++ c' |} with (Build_bytes_Buffer (iv ++ c')).
    rewrite (bytes_Buffer_holds _ 16%nat) by lia.
    assert (take 16%nat (iv ++ c') = iv) as Htake by (by rewrite take_app_length').
    assert (drop 16%nat (iv ++ c') = c') as Hdrop by (by rewrite drop_app_length').
    destruct (iv ++ c') as [|x l] eqn:E.
    { destruct iv; [done|discriminate]. }
    rewrite Htake, Hdrop.
    assert (take 16%nat (iv ++ repeat 0 16%nat) = iv) as -> by (by rewrite take_app_length').
    unfold copyStream. fold stream.
    rewrite (copyStream_from_bytes Build_bytes_Buffer bytes_Buffer_holds) by lia.
    by rewrite Hc'. }
  exists (cipher.xor_from stream 0 c). split; [by apply Hdec|].
  rewrite Hdec, xor_from_xor_bytes; [done|done|].
  unfold rijndael.xor_bytes. rewrite length_map, length_combine. lia.
Qed.

Lemma copyDecrypt_malleable_witness :
  exists m,
    copyDecrypt 20 test_key {| unread := test_rand ++ [10; 20; 30] |} {| unread := [] |}
    = Some ((16 + Z.of_nat (length [10; 20; 30]), None), {| unread := [] |},
            {| unread := m |})
    /\ copyDecrypt 20 test_key
         {| unread := test_rand ++ rijndael.xor_bytes [10; 20; 30] [1; 0; 255] |}
         {| unread := [] |}
       = Some ((16 + Z.of_nat (length [10; 20; 30]), None), {| unread := [] |},
               {| unread := rijndael.xor_bytes m [1; 0; 255] |}).
Proof.
  apply (copyDecrypt_malleable test_key test_rand [10; 20; 30] [1; 0; 255] 20).
  - right; right; reflexivity.
  - reflexivity.
  - reflexivity.
  - simpl; lia.
Defined.

(** ** [broadcast] and the peers *)

Lemma broadcast_to_app `{FrameMarkers} (before after : list (string * TCPPeer)) buf :
  Forall (fun ap => healthy ap.2) before ->
  FileServer.broadcast_to (before ++ after) buf
  = let '(err, after') := FileServer.broadcast_to after buf in
    (err, map (fun ap => (ap.1, received ap.2 [[IncomingMessage]; buf])) before ++ after').
Proof.
  induction 1 as [|[addr p] ps Hp _ IH].
  { cbn [app map]. by destruct (FileServer.broadcast_to after buf). }
  cbn [app FileServer.broadcast_to map]. simpl in Hp.
  rewrite healthy_Send by done. rewrite healthy_Send by (by apply received_healthy).
  rewrite IH, received_received. by destruct (FileServer.broadcast_to after buf).
Qed.

(** X8: [broadcast] stops at the first peer to which the message cannot be
    sent: it returns the error of that send, the peers visited before have
    the marker and the message, and the peers after it are sent nothing. *)
Theorem broadcast_stops_at_failure `{Gob} `{FrameMarkers} (s : FileServer) (msg : Message)
    (buf : bytes) (before after : list (string * TCPPeer)) addr p p1 p2 e1 e :
  gob_Encode msg = Ok buf ->
  peers s = before ++ (addr, p) :: after ->
  Forall (fun ap => healthy ap.2) before ->
  TCPPeer.Send p [IncomingMessage] = (e1, p1) ->
  TCPPeer.Send p1 buf = (Some e, p2) ->
  FileServer.broadcast s msg
  = (Some e,
     with_peers s
       (map (fun ap => (ap.1, received ap.2 [[IncomingMessage]; buf])) before
          ++ (addr, p2) :: after)).
Proof.
  intros Hgob Hps Hbefore H1 H2. unfold FileServer.broadcast.
  rewrite Hgob, Hps, (broadcast_to_app before _ buf Hbefore).
  cbn [FileServer.broadcast_to]. by rewrite H1, H2.
Qed.

Lemma broadcast_stops_at_failure_witness :
  let p := NewTCPPeer (example_conn ":7000" [None; Some (NetError "broken pipe")]) true in
  let p1 := (@TCPPeer.Send p [@IncomingMessage example_markers]).2 in
  let p2 := (TCPPeer.Send p1 example_buf).2 in
  let before := [(":3000", NewTCPPeer (example_conn ":3000" []) true)] in
  let after := [(":9000", NewTCPPeer (example_conn ":9000" []) true)] in
  @FileServer.broadcast example_gob example_markers example_three_peers example_message
  = (Some (NetError "broken pipe"),
     with_peers example_three_peers
       (map (fun ap => (ap.1, received ap.2 [[@IncomingMessage example_markers]; example_buf]))
            before ++ (":7000", p2) :: after)).
Proof.
  apply (@broadcast_stops_at_failure example_gob example_markers example_three_peers
           example_message example_buf
           [(":3000", NewTCPPeer (example_conn ":3000" []) true)]
           [(":9000", NewTCPPeer (example_conn ":9000" []) true)]
           ":7000" (NewTCPPeer (example_conn ":7000" [None; Some (NetError "broken pipe")]) true)
           (@TCPPeer.Send
              (NewTCPPeer (example_conn ":7000" [None; Some (NetError "broken pipe")]) true)
              [@IncomingMessage example_markers]).2
           (TCPPeer.Send
              (@TCPPeer.Send
                 (NewTCPPeer (example_conn ":7000" [None; Some (NetError "broken pipe")]) true)
                 [@IncomingMessage example_markers]).2 example_buf).2
           None (NetError "broken pipe")).
  - reflexivity.
  - reflexivity.
  - repeat constructor.
  - reflexivity.
  - reflexivity.
Defined.

(** [OnPeer] keeps a map: the addresses stay distinct. *)
Lemma OnPeer_fst (s : FileServer) (p : TCPPeer) :
  map fst (peers (FileServer.OnPeer s p).2)
  = if existsb (fun ap => String.eqb ap.1 (RemoteAddr (conn p))) (peers s)
    then map fst (peers s)
    else map fst (peers s) ++ [RemoteAddr (conn p)].
Proof.
  unfold FileServer.OnPeer. cbn [snd peers with_peers].
  destruct (existsb _ (peers s)); [|by rewrite map_app].
  induction (peers s) as [|[a q] ps IH]; [done|]. cbn [map fst].
  rewrite IH. f_equal. destruct (String.eqb a _) eqn:E; [|done].
  by apply String.eqb_eq in E.
Qed.

(** X9: [OnPeer] never fails, and it registers the peer as in a map keyed
    by the remote address: the peer is found under its address, a peer that
    was registered under that address is replaced, every other peer stays,
    and no address comes to be registered twice. *)
Theorem OnPeer_registers (s : FileServer) (p : TCPPeer) :
  let s' := (FileServer.OnPeer s p).2 in
  let addr := RemoteAddr (conn p) in
  (FileServer.OnPeer s p).1 = None
  /\ (addr, p) ∈ peers s'
  /\ (forall a q, a <> addr -> (a, q) ∈ peers s' <-> (a, q) ∈ peers s)
  /\ (forall q, (addr, q) ∈ peers s' -> q = p)
  /\ (List.NoDup (map fst (peers s)) -> List.NoDup (map fst (peers s')))
  /\ opts s' = opts s /\ store s' = store s.
Proof.
  intros s' addr. subst s'. split; [done|].
  split; [|split; [|split; [|split; [|done]]]].
  - unfold FileServer.OnPeer. cbn [snd peers with_peers]. fold addr.
    destruct (existsb _ (peers s)) eqn:E.
    + apply existsb_exists in E as ([a q] & Hin & Ha). apply String.eqb_eq in Ha.
      simpl in Ha. subst a. apply list_elem_of_In, in_map_iff.
      exists (addr, q). split; [|done]. cbn [fst]. by rewrite String.eqb_refl.
    + apply elem_of_app. right. by apply list_elem_of_singleton.
  - intros a q Ha. unfold FileServer.OnPeer. cbn [snd peers with_peers]. fold addr.
    destruct (existsb _ (peers s)).
    + rewrite !list_elem_of_In, in_map_iff. split.
      * intros ([a' q'] & E & Hin). cbn [fst] in E.
        destruct (String.eqb a' addr); [congruence|]. by injection E as -> ->.
      * intros Hin. exists (a, q). split; [|done]. cbn [fst].
        by rewrite (proj2 (String.eqb_neq a addr) Ha).
    + rewrite elem_of_app, list_elem_of_singleton. split; [|by left].
      intros [|[= -> _]]; done.
  - intros q. unfold FileServer.OnPeer. cbn [snd peers with_peers]. fold addr.
    destruct (existsb _ (peers s)) eqn:E.
    + rewrite list_elem_of_In, in_map_iff. intros ([a' q'] & E' & Hin). cbn [fst] in E'.
      destruct (String.eqb a' addr) eqn:Ea; [congruence|].
      injection E' as -> ->. by rewrite String.eqb_refl in Ea.
    + rewrite elem_of_app, list_elem_of_singleton. intros [Hin|[= ->]]; [|done].
      assert (existsb (fun ap => String.eqb ap.1 addr) (peers s) = true) as E'; [|congruence].
      apply existsb_exists. exists (addr, q). split; [by apply list_elem_of_In|].
      apply String.eqb_refl.
  - intros Hnd. rewrite OnPeer_fst. fold addr.
    destruct (existsb _ (peers s)) eqn:E; [done|].
    apply NoDup_ListNoDup, NoDup_app. split; [by apply NoDup_ListNoDup|].
    split; [|apply NoDup_singleton].
    intros a Ha Ha'%list_elem_of_singleton. rewrite Ha' in Ha.
    apply list_elem_of_In, in_map_iff in Ha as ([a' q] & Ea & Hin). cbn [fst] in Ea.
    assert (existsb (fun ap => String.eqb ap.1 addr) (peers s) = true) as E'; [|congruence].
    apply existsb_exists. exists (a', q). split; [done|]. cbn [fst]. rewrite Ea.
    apply String.eqb_refl.
Qed.

(** ** [Store] with a key that is no AES key *)



(** ** [Get] *)

(** The file [openFileForWriting] has opened is the file [Read] finds. *)
Lemma opened_file_read (s : Store) (fs fs1 fs' : FS) (id key : string) f d :
  is_cas s -> plain id = true ->
  no_dotdot (strings.Split (store_Root s) "/") = true ->
  Store.openFileForWriting s fs id key = (fs1, Ok f) ->
  (forall p, p <> os.Name f -> fs' !! p = fs1 !! p) ->
  fs' !! os.Name f = Some (File d) ->
  Store.Has s fs' id key = true
  /\ Store.Read s fs' id key = Ok (Z.of_nat (length d), f)
  /\ os.File_contents fs' f = Ok d.
Proof.
  intros Hs Hid Hnd Hop Hsame Hfile. unfold Store.openFileForWriting in Hop.
  destruct (os.MkdirAll fs _) as [fs0 [e|]]; [by injection Hop|].
  pose proof (Split_full_path s id key Hs Hid) as Hsplit.
  rewrite file_comps_snoc in Hsplit.
  pose proof (dir_comps_no_dotdot s id key Hnd Hid) as Hnd'.
  destruct (Create_at _ _ _ _ _ _ Hsplit Hnd' (CAS_Filename_plain key) Hop)
    as (Hw & Hdir & Hname & ->).
  destruct f as [name]. cbn [os.Name] in *. subst name.
  assert (os.walk fs' [] (file_comps s id key)
          = Ok (clean (strings.Split (store_Root s) "/" ++ [id] ++ cas_segments key)
                ++ [Filename (CASPathTransformFunc key)])) as Hwalk.
  { rewrite file_comps_snoc.
    eapply (walk_to_entry fs0 fs'); try done; [apply CAS_Filename_plain|].
    intros p Hp. rewrite (Hsame p Hp). by rewrite lookup_insert_ne. }
  apply (Read_at s fs' id key _ d Hs Hid Hwalk); [|done].
  intros E. apply (f_equal (@length _)) in E. rewrite length_app in E. simpl in E. lia.
Qed.

(** A key [Has] does not find cannot be read. *)
Lemma Has_false_Read (s : Store) (fs : FS) (id key : string) :
  Store.Has s fs id key = false ->
  Store.Read s fs id key = Err (PathError ENOENT).
Proof.
  unfold Store.Has, Store.Read, Store.readStream, os.Stat, os.Open.
  destruct (os.resolve fs _) as [p|e]; [destruct (os.entry fs p); done|].
  destruct e as [[]| | | | | | |]; done.
Qed.

Lemma with_peers_id (s : FileServer) : with_peers s (peers s) = s.
Proof. by destruct s. Qed.

(** X11: [Get] of a key that is not in the store, on a server without
    peers, fails: with the error of the encoder when the request cannot be
    encoded, with the not-exist error otherwise; nothing is changed. *)
Theorem Get_missing_without_peers `{AES} `{Gob} `{FrameMarkers}
    (fuel : nat) (s : FileServer) (w : World) (key : string) :
  peers s = [] ->
  Store.Has (store s) (disk w) (ID (opts s)) key = false ->
  FileServer.Get fuel s w key
  = Some (Returned
            (Err match gob_Encode {| msg_Payload :=
                                       MessageGetFile (ID (opts s)) (hashKey key) |} with
                 | Err e => e
                 | Ok _ => PathError ENOENT
                 end), s, w).
Proof.
  intros Hps Hhas. unfold FileServer.Get, FileServer.broadcast. rewrite Hhas.
  destruct (gob_Encode _) as [buf|e]; [|done].
  rewrite Hps. cbn [FileServer.broadcast_to FileServer.Get_from peers with_peers].
  cbn [store opts disk]. rewrite (Has_false_Read _ _ _ _ Hhas).
  rewrite <- Hps, !with_peers_id. by destruct w.
Qed.

Lemma Get_missing_without_peers_witness :
  let s := (FileServer.NewFileServer example_opts []).1 in
  @FileServer.Get fips197 example_gob example_markers 1 s example_world "picture_0.png"
  = Some (Returned
            (Err match @gob_Encode example_gob
                         {| msg_Payload :=
                              MessageGetFile (ID (opts s)) (hashKey "picture_0.png") |} with
                 | Err e => e
                 | Ok _ => PathError ENOENT
                 end), s, example_world).
Proof.
  apply (@Get_missing_without_peers fips197 example_gob example_markers 1
           (FileServer.NewFileServer example_opts []).1 example_world "picture_0.png").
  - reflexivity.
  - vm_compute; reflexivity.
Defined.



Lemma ReadAtLeast_from_done {R} `{io.Reader R} fuel (r : R) len min got :
  (min <= length got)%nat ->
  io.ReadAtLeast_from fuel r len min got = Some ((got, None), r).
Proof. intros Hmin. apply Nat.leb_le in Hmin. destruct fuel; simpl; by rewrite Hmin. Qed.

(** [io.ReadFull] from a peer whose next delivery fills the buffer. *)
Lemma ReadFull_of_chunk (p : TCPPeer) chunk more fuel n :
  incoming (conn p) = chunk :: more ->
  length chunk = n -> (0 < n)%nat -> (0 < fuel)%nat ->
  io.ReadFull_of fuel p n
  = Some ((chunk, None), TCPPeer_with_conn p (Conn_with_incoming (conn p) more)).
Proof.
  intros Hinc Hlen Hn Hfuel. unfold io.ReadFull_of.
  destruct fuel as [|fuel]; [lia|]. cbn [io.ReadAtLeast_from length].
  assert ((n <=? 0)%nat = false) as -> by (apply Nat.leb_gt; lia).
  rewrite Nat.sub_0_r.
  unfold io.Read at 1. unfold TCPPeer_Reader at 1.
  unfold io.Read at 1. unfold Conn_Reader at 1. rewrite Hinc.
  assert ((length chunk <=? n)%nat = true) as -> by (apply Nat.leb_le; lia).
  cbn [app]. apply ReadAtLeast_from_done. lia.
Qed.

Lemma limited_holds (p : TCPPeer) (later : list bytes) : holds_bytes (limited p later).
Proof.
  intros data n Hn. unfold io.Read, io.LimitedReader_Reader, limited.
  cbn [io.lr_N io.lr_R].
  destruct data as [|x d]; [done|].
  remember (x :: d) as chunk eqn:Hc.
  assert (0 < length chunk)%nat as Hpos by (subst; simpl; lia).
  assert ((Z.of_nat (length chunk) <=? 0) = false) as -> by (apply Z.leb_gt; lia).
  unfold TCPPeer_Reader, io.Read, Conn_Reader.
  cbn [conn TCPPeer_with_conn Conn_with_incoming incoming].
  replace (match chunk with [] => later | _ :: _ => chunk :: later end)
    with (chunk :: later) by (by subst).
  destruct (decide (length chunk <= n)%nat) as [Hle|Hgt].
  - assert ((length chunk <=?
             (if (Z.of_nat (length chunk) <? Z.of_nat n)%Z
              then Z.to_nat (Z.of_nat (length chunk)) else n))%nat = true) as ->.
    { apply Nat.leb_le. destruct (Z.ltb_spec (Z.of_nat (length chunk)) (Z.of_nat n)); lia. }
    rewrite take_ge, drop_ge by lia. cbn [length]. rewrite Z.sub_diag. by subst.
  - assert ((Z.of_nat (length chunk) <? Z.of_nat n) = false) as -> by (apply Z.ltb_ge; lia).
    assert ((length chunk <=? n)%nat = false) as -> by (apply Nat.leb_gt; lia).
    assert (drop n chunk <> []) as Hne.
    { intros E. apply (f_equal (@length _)) in E. rewrite length_drop in E. simpl in E. lia. }
    subst chunk. destruct (drop n (x :: d)) as [|y l] eqn:Ed; [done|].
    rewrite <- Ed. repeat f_equal.
    rewrite length_take, length_drop. lia.
Qed.

Lemma file_accepting : accepting file_open file_appended.
Proof.
  intros [fs f] b [d Hd]. cbn [fst snd] in Hd.
  unfold io.Write, os_File_Writer, file_appended, file_open, os.File_Write.
  cbn [fst snd]. rewrite Hd. cbn [fst snd]. split; [done|].
  exists (d ++ b). apply lookup_insert_eq.
Qed.

Lemma fold_file_appended (chunks : list bytes) :
  forall (fs : FS) f d0,
    fs !! os.Name f = Some (File d0) ->
    (fold_left file_appended chunks (fs, f)).2 = f
    /\ (fold_left file_appended chunks (fs, f)).1 !! os.Name f
       = Some (File (d0 ++ concat chunks))
    /\ forall p, p <> os.Name f ->
         (fold_left file_appended chunks (fs, f)).1 !! p = fs !! p.
Proof.
  induction chunks as [|b chunks IH]; intros fs f d0 Hf.
  { cbn. by rewrite app_nil_r. }
  cbn [fold_left concat]. unfold file_appended at 2 4 6. unfold os.File_Write.
  cbn [fst snd]. rewrite Hf. cbn [fst snd].
  destruct (IH (<[os.Name f := File (d0 ++ b)]> fs) f (d0 ++ b)) as (H1 & H2 & H3).
  { apply lookup_insert_eq. }
  rewrite H1, H2, <- app_assoc. repeat split.
  intros p Hp. rewrite H3 by done. by rewrite lookup_insert_ne.
Qed.

(** [copyDecrypt] from a reader that holds the initialization value and
    the cipher text, into a writer that takes every write. *)
Lemma copyDecrypt_accepting {R W} `{AES} `{io.Reader R} `{io.Writer W}
    (mk : bytes -> R) (ok : W -> Prop) (after : W -> bytes -> W) :
  holds_bytes mk -> accepting ok after ->
  forall fuel key iv c (w : W),
    (length key = 16 \/ length key = 24 \/ length key = 32)%nat ->
    length iv = 16%nat ->
    (length c < fuel)%nat ->
    ok w ->
    exists chunks,
      concat chunks
      = cipher.xor_from (cipher.NewCTR {| aes.Encrypt := aes_encryptBlock key |} iv) 0 c
      /\ copyDecrypt fuel key (mk (iv ++ c)) w
         = Some ((16 + Z.of_nat (length c), None), mk [], fold_left after chunks w).
Proof.
  intros Hmk Hacc fuel key iv c w Hkey Hiv Hfuel Hw.
  set (stream := cipher.NewCTR {| aes.Encrypt := aes_encryptBlock key |} iv).
  destruct (copyStream_from_accepting mk ok after Hmk Hacc fuel c 16 stream w Hfuel Hw)
    as (chunks & Hcat & Hstream & _).
  exists chunks. split; [done|].
  unfold copyDecrypt. rewrite (NewCipher_valid key Hkey). unfold aes.BlockSize.
  rewrite (Hmk _ 16%nat) by lia.
  assert (take 16%nat (iv ++ c) = iv) as Htake by (by rewrite take_app_length').
  assert (drop 16%nat (iv ++ c) = c) as Hdrop by (by rewrite drop_app_length').
  destruct (iv ++ c) as [|x l] eqn:E.
  { destruct iv; [done|discriminate]. }
  rewrite Htake, Hdrop.
  assert (take 16%nat (iv ++ repeat 0 16%nat) = iv) as -> by (by rewrite take_app_length').
  unfold copyStream. fold stream. change (Z.of_nat 16) with 16. by rewrite Hstream.
Qed.



(** What [Store] leaves when it returns no error: the disk is the one
    [Store.Write] has made, the options and the store are the same. *)
Lemma Store_result `{AES} `{Gob} `{FrameMarkers} {R} `{io.Reader R}
    (fuel : nat) (s : FileServer) (w : World) (key : string) (r : R) s' w' r' :
  FileServer.Store fuel s w key r = Some (None, s', w', r') ->
  exists size tee',
    Store.Write fuel (store s) (disk w) (ID (opts s)) key
      {| io.tee_r := r; io.tee_w := {| unread := [] |} |}
    = Some ((size, None), disk w', tee')
    /\ opts s' = opts s /\ store s' = store s.
Proof.
  unfold FileServer.Store.
  destruct (Store.Write _ _ _ _ _ _) as [[[[size [e|]] fs] tee]|]; [done| |done].
  unfold FileServer.broadcast. destruct (gob_Encode _) as [buf|e]; [|done].
  destruct (FileServer.broadcast_to (peers s) buf) as [[e|] ps]; [done|].
  cbn [peers with_peers].
  destruct (io.Write _ [IncomingStream]) as [? mw].
  destruct (copyEncrypt _ _ _ _ _) as [[[[[n [e|]] rand] ?] mw']|]; [done| |done].
  intros [= <- <- <-]. by eexists _, _.
Qed.



(** ** The task of a connection, whatever runs next to it *)

Lemma act_pc_Dropped {S} (t : TCPTransport S) (k : Task S) (a : action) e :
  pc k = Dropped e ->
  pc (act t k a) = Dropped e
  /\ decoded (act t k a) = decoded k
  /\ conn_closed (conn (peer (act t k a))) = conn_closed (conn (peer k))
  /\ exists n, rpcch (act t k a) = skipn n (rpcch k).
Proof.
  intros Hpc. destruct a; cbn [act].
  - unfold TCPTransport.loop_step. rewrite Hpc. repeat split; [done|]. by exists 0%nat.
  - cbn. repeat split; [done|]. by exists 0%nat.
  - cbn. repeat split; [done|]. by exists 0%nat.
  - cbn. repeat split; [done|]. exists 1%nat. by destruct (rpcch k).
Qed.

Lemma act_closed_if_dropped {S} (t : TCPTransport S) (k : Task S) (a : action) :
  (forall e, pc k = Dropped e -> conn_closed (conn (peer k)) = true) ->
  forall e, pc (act t k a) = Dropped e -> conn_closed (conn (peer (act t k a))) = true.
Proof.
  intros Hk e. destruct a; cbn [act]; try (cbn; by apply Hk).
  unfold TCPTransport.loop_step. destruct (pc k) as [| |rpc|e'] eqn:Hpc.
  - destruct (Decoder _ _ _) as [[[err|] rpc] c]; [done|].
    by destruct (Stream rpc).
  - by destruct (wg (peer k) =? 0); [|rewrite Hpc].
  - by destruct (length (rpcch k) <? rpcch_capacity)%nat; [|rewrite Hpc].
  - intros _. by apply (Hk e').
Qed.

(** X15: the deferred close of [handleConn].  Whatever the read loop, the
    consumer of a stream and the consumer of the channel do, a task that has
    left its loop has closed the connection; from then on it stays where it
    is: nothing more is decoded, nothing is added to the channel, and the
    connection stays closed. *)
Theorem dropped_task {S} (t : TCPTransport S) (own : S) (ch : list RPC) (c : Conn)
    (outbound : bool) (acts more : list action) e :
  let k := run t (TCPTransport.handleConn t own ch c outbound) acts in
  pc k = Dropped e ->
  conn_closed (conn (peer k)) = true
  /\ pc (run t k more) = Dropped e
  /\ decoded (run t k more) = decoded k
  /\ conn_closed (conn (peer (run t k more))) = true
  /\ exists n, rpcch (run t k more) = skipn n (rpcch k).
Proof.
  intros k Hpc.
  assert (conn_closed (conn (peer k)) = true) as Hclosed.
  { revert e Hpc. subst k. induction acts as [|a acts IH] using rev_ind.
    - cbn [run fold_left]. unfold TCPTransport.handleConn. intros e.
      destruct (HandshakeFunc _ _); [done|].
      destruct (match OnPeer (transport_opts t) with
                | Some f => f own (NewTCPPeer c outbound)
                | None => (None, own)
                end) as [[err|] own']; done.
    - unfold run in *. rewrite fold_left_app. cbn [fold_left].
      by apply act_closed_if_dropped. }
  split; [done|]. clearbody k. revert k Hpc Hclosed.
  induction more as [|a more IH]; intros k Hpc Hclosed.
  { cbn. repeat split; try done. by exists 0%nat. }
  destruct (act_pc_Dropped t k a e Hpc) as (A1 & A2 & A3 & n & A4).
  cbn [run fold_left]. rewrite Hclosed in A3.
  destruct (IH (act t k a) A1 A3) as (B1 & B2 & B3 & m & B4).
  unfold run in *. rewrite B1, B2, B3, B4, A2, A4. repeat split.
  exists (m + n)%nat. by rewrite skipn_skipn.
Qed.

Lemma dropped_task_witness :
  let t := transport example_node in
  let k := run t example_cut_task [LoopStep] in
  let more := [LoopStep; Consume; LoopStep] in
  conn_closed (conn (peer k)) = true
  /\ pc (run t k more) = Dropped (Some EOF)
  /\ decoded (run t k more) = decoded k
  /\ conn_closed (conn (peer (run t k more))) = true
  /\ exists n, rpcch (run t k more) = skipn n (rpcch k).
Proof.
  apply (dropped_task (transport example_node) (server example_node) [] example_cut_conn
           false [LoopStep] [LoopStep; Consume; LoopStep] (Some EOF)).
  reflexivity.
Defined.

(** What [Decode] does to the connection and how much it returns. *)
Lemma Decode_facts `{FrameMarkers} (c : Conn) :
  RemoteAddr (DefaultDecoder.Decode c RPC_zero).2 = RemoteAddr c
  /\ (length (Payload (DefaultDecoder.Decode c RPC_zero).1.2) <= 1028)%nat.
Proof.
  unfold DefaultDecoder.Decode, io.Read, Conn_Reader.
  destruct (incoming c) as [|chunk more]; [cbn; split; [done|lia]|].
  destruct (length chunk <=? 1)%nat; cbn [fst snd];
    (destruct (nth 0 _ 0 =? IncomingStream); [cbn; split; [done|lia]|]);
    cbn [incoming Conn_with_incoming].
  - destruct more as [|chunk' more']; [cbn; split; [done|lia]|].
    destruct (length chunk' <=? 1028)%nat eqn:E; cbn; (split; [done|]).
    + by apply Nat.leb_le.
    + rewrite length_take. lia.
  - destruct (length (skipn 1 chunk) <=? 1028)%nat eqn:E; cbn; (split; [done|]).
    + by apply Nat.leb_le in E.
    + rewrite length_take. lia.
Qed.

Lemma act_framed `{FrameMarkers} {S} (t : TCPTransport S) (k : Task S) (a : action) addr :
  Decoder (transport_opts t) = DefaultDecoder.Decode ->
  RemoteAddr (conn (peer k)) = addr ->
  Forall (framed addr) (rpcch k) ->
  (forall rpc, pc k = Sending rpc -> framed addr rpc) ->
  (length (rpcch k) <= rpcch_capacity)%nat ->
  RemoteAddr (conn (peer (act t k a))) = addr
  /\ Forall (framed addr) (rpcch (act t k a))
  /\ (forall rpc, pc (act t k a) = Sending rpc -> framed addr rpc)
  /\ (length (rpcch (act t k a)) <= rpcch_capacity)%nat.
Proof.
  intros Hdec Haddr Hch Hpc Hlen. destruct a; cbn [act].
  - unfold TCPTransport.loop_step. destruct (pc k) as [| |rpc|e] eqn:Epc.
    + rewrite Hdec. destruct (Decode_facts (conn (peer k))) as [Ha Hp].
      destruct (DefaultDecoder.Decode (conn (peer k)) RPC_zero) as [[[e|] rpc] c'];
        cbn [fst snd] in *.
      * cbn. by rewrite Ha.
      * destruct (Stream rpc) eqn:Es; cbn; repeat split; try done; try congruence.
        all: match goal with E : Sending _ = Sending _ |- _ => injection E as <- end;
          cbn; first [congruence | done].
    + destruct (wg (peer k) =? 0); [cbn; by (split; [|split; [|split]])|].
      split; [done|split; [done|split; [|done]]].
      intros rpc0 E. rewrite Epc in E. discriminate.
    + destruct (length (rpcch k) <? rpcch_capacity)%nat eqn:El.
      * cbn. apply Nat.ltb_lt in El. split; [done|split; [|split; [done|]]].
        -- apply Forall_app. split; [done|]. constructor; [by apply Hpc|done].
        -- rewrite length_app. simpl. lia.
      * split; [done|split; [done|split; [|done]]]. intros rpc0 E. rewrite Epc in E.
        injection E as <-. by apply Hpc.
    + split; [done|split; [done|split; [|done]]].
      intros rpc0 E. rewrite Epc in E. discriminate.
  - cbn. by (split; [|split; [|split]]).
  - cbn. by (split; [|split; [|split]]).
  - cbn. split; [done|split; [|split; [done|]]].
    + destruct (rpcch k); [done|]. by inversion Hch.
    + destruct (rpcch k); simpl in *; lia.
Qed.

(** X16: what reaches the channel.  With the default decoder, whatever the
    read loop and the consumers do, every RPC in the channel of a connection
    carries the remote address of the connection, is no stream, and has a
    payload of at most 1028 bytes; and the channel never holds more than its
    capacity. *)
Theorem channel_content `{FrameMarkers} {S} (t : TCPTransport S) (own : S) (c : Conn)
    (outbound : bool) (acts : list action) :
  Decoder (transport_opts t) = DefaultDecoder.Decode ->
  let k := run t (TCPTransport.handleConn t own [] c outbound) acts in
  Forall (framed (RemoteAddr c)) (rpcch k)
  /\ (length (rpcch k) <= rpcch_capacity)%nat.
Proof.
  intros Hdec k.
  assert (RemoteAddr (conn (peer k)) = RemoteAddr c
          /\ Forall (framed (RemoteAddr c)) (rpcch k)
          /\ (forall rpc, pc k = Sending rpc -> framed (RemoteAddr c) rpc)
          /\ (length (rpcch k) <= rpcch_capacity)%nat) as (_ & H1 & _ & H2); [|done].
  subst k. induction acts as [|a acts IH] using rev_ind.
  - cbn [run fold_left]. unfold TCPTransport.handleConn.
    destruct (HandshakeFunc _ _); [cbn; repeat split; try done; unfold rpcch_capacity; lia|].
    destruct (match OnPeer (transport_opts t) with
              | Some f => f own (NewTCPPeer c outbound)
              | None => (None, own)
              end) as [[err|] own'];
      cbn; repeat split; try done; unfold rpcch_capacity; lia.
  - unfold run in *. rewrite fold_left_app. cbn [fold_left].
    destruct IH as (I1 & I2 & I3 & I4). by apply act_framed.
Qed.

Lemma channel_content_witness :
  let k := run (transport example_node) example_task
             [LoopStep; ConsumerRead 3; CloseStream; LoopStep; LoopStep; LoopStep] in
  Forall (framed (RemoteAddr example_stream_conn)) (rpcch k)
  /\ (length (rpcch k) <= rpcch_capacity)%nat.
Proof.
  apply (@channel_content example_markers FileServer (transport example_node)
           (server example_node) example_stream_conn false
           [LoopStep; ConsumerRead 3; CloseStream; LoopStep; LoopStep; LoopStep]).
  reflexivity.
Defined.

(** X17: a message of more than 1028 bytes is cut.  When the marker of a
    message and a payload of more than 1028 bytes arrive in one delivery,
    [Decode] returns the first 1028 bytes as the payload and leaves the rest
    on the connection, where the next [Decode] takes its first byte for a
    marker. *)
Theorem Decode_cuts_long_message `{FrameMarkers} (c : Conn) (payload : bytes)
    (later : list bytes) :
  IncomingMessage <> IncomingStream ->
  (1028 < length payload)%nat ->
  incoming c = (IncomingMessage :: payload) :: later ->
  DefaultDecoder.Decode c RPC_zero
  = ((None, {| From := ""; Payload := firstn 1028 payload; Stream := false |}),
     Conn_with_incoming c (skipn 1028 payload :: later))
  /\ io.Read (Conn_with_incoming c (skipn 1028 payload :: later)) 1
     = (([nth 1028 payload 0], None),
        Conn_with_incoming c (after_byte (skipn 1029 payload) later)).
Proof.
  intros Hne Hlen Hinc. split.
  - unfold DefaultDecoder.Decode. rewrite (Read_one_byte _ _ _ _ Hinc). cbn [nth].
    apply Z.eqb_neq in Hne. rewrite Hne.
    unfold io.Read, Conn_Reader. cbn [incoming Conn_with_incoming].
    destruct payload as [|x payload]; [simpl in Hlen; lia|]. cbn [after_byte].
    by assert ((length (x :: payload) <=? 1028)%nat = false) as ->
      by (apply Nat.leb_gt; lia).
  - assert (skipn 1028 payload = nth 1028 payload 0 :: skipn 1029 payload) as E.
    { rewrite <- (take_drop 1028 payload) at 2 3.
      rewrite app_nth2 by (rewrite length_take; lia).
      rewrite length_take, Nat.min_l, Nat.sub_diag by lia.
      rewrite drop_app_ge by (rewrite length_take; lia).
      rewrite length_take, Nat.min_l by lia.
      destruct (drop 1028 payload) as [|y l] eqn:Ed.
      - apply (f_equal (@length _)) in Ed. rewrite length_drop in Ed. simpl in Ed. lia.
      - replace (1029 - 1028)%nat with 1%nat by lia. done. }
    erewrite Read_one_byte; [done|]. cbn [incoming Conn_with_incoming]. by rewrite E.
Qed.

Lemma Decode_cuts_long_message_witness :
  let payload := repeat 7 1030 in
  let c := Conn_with_incoming (example_conn ":4000" []) [1 :: payload; [9]] in
  @DefaultDecoder.Decode _ example_markers _ c RPC_zero
  = ((None, {| From := ""; Payload := firstn 1028 payload; Stream := false |}),
     Conn_with_incoming c (skipn 1028 payload :: [[9]]))
  /\ io.Read (Conn_with_incoming c (skipn 1028 payload :: [[9]])) 1
     = (([nth 1028 payload 0], None),
        Conn_with_incoming c (after_byte (skipn 1029 payload) [[9]])).
Proof.
  apply (@Decode_cuts_long_message example_markers
           (Conn_with_incoming (example_conn ":4000" []) [1 :: repeat 7 1030; [9]])
           (repeat 7 1030) [[9]]).
  - discriminate.
  - rewrite repeat_length. lia.
  - reflexivity.
Defined.

(** X18: [Dial].  When nothing listens at the address, [Dial] returns the
    error and no task is started.  When a node listens there, [Dial] returns
    no error and starts the task of the connection; with a handshake that
    accepts and the [OnPeer] of a file server as the callback, the peer is
    registered with the server under the remote address of the connection,
    as an outbound peer, and the task is at the top of its read loop with
    nothing decoded. *)
Theorem Dial_registers (t : TCPTransport FileServer) (own : FileServer) (ch : list RPC)
    (net : Network) (addr : string) (c : Conn) :
  (forall p, HandshakeFunc (transport_opts t) p = None) ->
  OnPeer (transport_opts t) = Some FileServer.OnPeer ->
  match TCPTransport.Dial t own ch net addr c with
  | (err, net', task) =>
      events net' = events net ++ [Dialed addr]
      /\ listeners net' = listeners net
      /\ if bool_decide (addr ∈ listeners net)
         then err = None
              /\ exists k, task = Some k
                   /\ pc k = Reading
                   /\ decoded k = 0%nat
                   /\ rpcch k = ch
                   /\ peer k = NewTCPPeer c true
                   /\ owner k = (FileServer.OnPeer own (NewTCPPeer c true)).2
                   /\ (RemoteAddr c, NewTCPPeer c true) ∈ peers (owner k)
         else err <> None /\ task = None
  end.
Proof.
  intros Hhs Hon. unfold TCPTransport.Dial.
  destruct (bool_decide (addr ∈ listeners net)); [|done].
  split; [done|]. split; [done|]. split; [done|].
  unfold TCPTransport.handleConn. rewrite Hhs, Hon. cbn.
  eexists. split; [done|]. repeat split.
  destruct (existsb _ (peers own)) eqn:E.
  - apply existsb_exists in E as ([a q] & Hin & Ha). apply String.eqb_eq in Ha.
    simpl in Ha. subst a. apply list_elem_of_In, in_map_iff.
    exists (RemoteAddr c, q). split; [|done]. cbn [fst]. by rewrite String.eqb_refl.
  - apply elem_of_app. right. by apply list_elem_of_singleton.
Qed.

Lemma Dial_registers_witness :
  let t := transport example_node in
  let own := server example_node in
  let c := example_conn ":3000" [] in
  match TCPTransport.Dial t own [] example_network ":3000" c with
  | (err, net', task) =>
      events net' = events example_network ++ [Dialed ":3000"]
      /\ listeners net' = listeners example_network
      /\ if bool_decide (":3000" ∈ listeners example_network)
         then err = None
              /\ exists k, task = Some k
                   /\ pc k = Reading
                   /\ decoded k = 0%nat
                   /\ rpcch k = []
                   /\ peer k = NewTCPPeer c true
                   /\ owner k = (FileServer.OnPeer own (NewTCPPeer c true)).2
                   /\ (RemoteAddr c, NewTCPPeer c true) ∈ peers (owner k)
         else err <> None /\ task = None
  end.
Proof.
  apply (Dial_registers (transport example_node) (server example_node) [] example_network
           ":3000" (example_conn ":3000" [])).
  - reflexivity.
  - reflexivity.
Defined.

(** ** Frames and deliveries *)

(** X19: a message followed by a stream.  When the marker of a message,
    the message, and the marker of a stream arrive as three deliveries, the
    read loop sends one RPC with the message as its payload to the channel,
    then meets the marker of the stream and waits; what the connection
    delivers after the marker is left on it. *)
Theorem message_then_stream `{FrameMarkers} {S} (t : TCPTransport S) (k : Task S)
    (buf : bytes) (rest : list bytes) :
  Decoder (transport_opts t) = DefaultDecoder.Decode ->
  IncomingMessage <> IncomingStream ->
  pc k = Reading ->
  buf <> [] ->
  (length buf <= 1028)%nat ->
  (length (rpcch k) < rpcch_capacity)%nat ->
  incoming (conn (peer k)) = [IncomingMessage] :: buf :: [IncomingStream] :: rest ->
  let k' := run t k [LoopStep; LoopStep; LoopStep] in
  pc k' = Waiting
  /\ rpcch k' = rpcch k ++ [{| From := RemoteAddr (conn (peer k)); Payload := buf;
                               Stream := false |}]
  /\ incoming (conn (peer k')) = rest
  /\ wg (peer k') = wg (peer k) + 1
  /\ decoded k' = Datatypes.S (Datatypes.S (decoded k)).
Proof.
  intros Hdec Hne Hpc Hbuf Hlen Hcap Hinc k'.
  remember (TCPTransport.loop_step t k) as k1 eqn:Hk1.
  remember (TCPTransport.loop_step t k1) as k2 eqn:Hk2.
  assert (k' = TCPTransport.loop_step t k2) as Hk' by (by subst).
  clearbody k'.
  rewrite (loop_step_message t k buf ([IncomingStream] :: rest) Hdec Hpc Hne Hbuf Hlen)
    in Hk1 by (by right).
  rewrite (loop_step_send t k1 {| From := RemoteAddr (conn (peer k)); Payload := buf;
                                  Stream := false |}) in Hk2; cycle 1.
  { by rewrite Hk1. }
  { by rewrite Hk1. }
  rewrite (loop_step_stream t k2 [] rest Hdec) in Hk'; cycle 1.
  { by rewrite Hk2. }
  { by rewrite Hk2, Hk1. }
  rewrite Hk', Hk2, Hk1. done.
Qed.

Lemma message_then_stream_witness :
  let t := transport example_node in
  let k := example_framed_task in
  let k' := run t k [LoopStep; LoopStep; LoopStep] in
  pc k' = Waiting
  /\ rpcch k' = rpcch k ++ [{| From := RemoteAddr (conn (peer k)); Payload := [7; 8];
                               Stream := false |}]
  /\ incoming (conn (peer k')) = [[10; 20; 30]]
  /\ wg (peer k') = wg (peer k) + 1
  /\ decoded k' = Datatypes.S (Datatypes.S (decoded k)).
Proof.
  apply (@message_then_stream example_markers FileServer (transport example_node)
           example_framed_task [7; 8] [[10; 20; 30]]).
  - reflexivity.
  - discriminate.
  - reflexivity.
  - discriminate.
  - simpl; lia.
  - vm_compute; lia.
  - reflexivity.
Defined.

(** X20: frames are told apart by the deliveries only.  When the message,
    the marker of the stream and bytes of the stream arrive in the delivery
    of the marker of the message, and are no more than 1028 bytes, the read
    loop takes them all for the payload of the message: it sends one RPC to
    the channel and does not wait for a stream. *)
Theorem coalesced_frames `{FrameMarkers} {S} (t : TCPTransport S) (k : Task S)
    (buf tail : bytes) (later : list bytes) :
  Decoder (transport_opts t) = DefaultDecoder.Decode ->
  IncomingMessage <> IncomingStream ->
  pc k = Reading ->
  (length (buf ++ IncomingStream :: tail) <= 1028)%nat ->
  (length (rpcch k) < rpcch_capacity)%nat ->
  incoming (conn (peer k)) = (IncomingMessage :: buf ++ IncomingStream :: tail) :: later ->
  let k' := run t k [LoopStep; LoopStep] in
  pc k' = Reading
  /\ rpcch k' = rpcch k ++ [{| From := RemoteAddr (conn (peer k));
                               Payload := buf ++ IncomingStream :: tail;
                               Stream := false |}]
  /\ incoming (conn (peer k')) = later
  /\ wg (peer k') = wg (peer k).
Proof.
  intros Hdec Hne Hpc Hlen Hcap Hinc k'.
  remember (TCPTransport.loop_step t k) as k1 eqn:Hk1.
  assert (k' = TCPTransport.loop_step t k1) as Hk' by (by subst).
  clearbody k'.
  rewrite (loop_step_message t k (buf ++ IncomingStream :: tail) later Hdec Hpc Hne)
    in Hk1; [|by destruct buf|done|by left].
  rewrite (loop_step_send t k1 {| From := RemoteAddr (conn (peer k));
                                  Payload := buf ++ IncomingStream :: tail;
                                  Stream := false |}) in Hk'; cycle 1.
  { by rewrite Hk1. }
  { by rewrite Hk1. }
  rewrite Hk', Hk1. done.
Qed.

Lemma coalesced_frames_witness :
  let t := transport example_node in
  let k := example_coalesced_task in
  let k' := run t k [LoopStep; LoopStep] in
  pc k' = Reading
  /\ rpcch k' = rpcch k ++ [{| From := RemoteAddr (conn (peer k));
                               Payload := [7; 8] ++ 2 :: [10; 20; 30];
                               Stream := false |}]
  /\ incoming (conn (peer k')) = []
  /\ wg (peer k') = wg (peer k).
Proof.
  apply (@coalesced_frames example_markers FileServer (transport example_node)
           example_coalesced_task [7; 8] [10; 20; 30] []).
  - reflexivity.
  - discriminate.
  - reflexivity.
  - simpl; lia.
  - vm_compute; lia.
  - reflexivity.
Defined.

(** ** What [makeServer] makes *)

Lemma ReadFull_enough (rand : bytes) n :
  (n <= length rand)%nat ->
  io.ReadFull rand n = ((firstn n rand, None), skipn n rand).
Proof. intros Hn. unfold io.ReadFull. by rewrite (proj2 (Nat.leb_le _ _) Hn). Qed.

(** X21: [makeServer] draws 64 bytes from the random source: the first 32
    are the encryption key, a key [aes.NewCipher] accepts, the next 32 are
    the identifier of the node, 64 hexadecimal characters and so a plain
    directory name.  The store of the node is content addressed with the
    root [listenAddr + "_network"]; the node has no peer and does not listen
    yet. *)
Theorem makeServer_result `{FrameMarkers} (listenAddr : string) (nodes : list string)
    (rand : bytes) :
  (64 <= length rand)%nat ->
  let n := (makeServer listenAddr nodes rand).1 in
  let s := server n in
  (makeServer listenAddr nodes rand).2 = skipn 64 rand
  /\ EncKey (opts s) = firstn 32 rand
  /\ length (EncKey (opts s)) = 32%nat
  /\ ID (opts s) = hex.EncodeToString (firstn 32 (skipn 32 rand))
  /\ String.length (ID (opts s)) = 64%nat
  /\ plain (ID (opts s)) = true
  /\ store_Root (store s) = (listenAddr ++ "_network")%string
  /\ is_cas (store s)
  /\ peers s = []
  /\ BootstrapNodes (opts s) = nodes
  /\ ListenAddr (transport_opts (transport n)) = listenAddr
  /\ listener (transport n) = None.
Proof.
  intros Hrand n s. subst s n. unfold makeServer, newEncryptionKey.
  rewrite (ReadFull_enough rand 32) by lia.
  unfold FileServer.NewFileServer, generateID. cbn [ID String.length Nat.eqb].
  rewrite (ReadFull_enough (skipn 32 rand) 32) by (rewrite length_drop; lia).
  cbn [fst snd server transport opts store peers EncKey ID BootstrapNodes
         transport_opts ListenAddr listener NewTCPTransport].
  assert (length (take 32 rand) = 32%nat) as Hk by (rewrite length_take; lia).
  assert (length (take 32 (drop 32 rand)) = 32%nat) as Hi
    by (rewrite length_take, length_drop; lia).
  assert (forall l : bytes, length l = 32%nat -> take 32 (l ++ repeat 0 32%nat) = l) as Hpad.
  { intros l Hl. by rewrite take_app_length'. }
  rewrite !Hpad by done.
  assert (String.length (hex.EncodeToString (take 32 (drop 32 rand))) = 64%nat) as Hlen
    by (rewrite EncodeToString_length, Hi; done).
  repeat split; try done.
  - by rewrite drop_drop.
  - apply hexchars_plain; [|apply EncodeToString_hexchars].
    intros E. rewrite E in Hlen. discriminate.
  - unfold NewStore. cbn [Root store_Root]. by destruct listenAddr.
Qed.

Lemma makeServer_result_witness :
  let rand := map Z.of_nat (seq 0 64) in
  let n := (@makeServer example_markers ":5000" [":3000"; ":7000"] rand).1 in
  let s := server n in
  (@makeServer example_markers ":5000" [":3000"; ":7000"] rand).2 = skipn 64 rand
  /\ EncKey (opts s) = firstn 32 rand
  /\ length (EncKey (opts s)) = 32%nat
  /\ ID (opts s) = hex.EncodeToString (firstn 32 (skipn 32 rand))
  /\ String.length (ID (opts s)) = 64%nat
  /\ plain (ID (opts s)) = true
  /\ store_Root (store s) = (":5000" ++ "_network")%string
  /\ is_cas (store s)
  /\ peers s = []
  /\ BootstrapNodes (opts s) = [":3000"; ":7000"]
  /\ ListenAddr (transport_opts (transport n)) = ":5000"
  /\ listener (transport n) = None.
Proof.
  apply (@makeServer_result example_markers ":5000" [":3000"; ":7000"]
           (map Z.of_nat (seq 0 64))).
  vm_compute. lia.
Defined.

(** ** The default path function *)

Lemma Split_two (a b : string) :
  plain a = true -> plain b = true ->
  strings.Split (a ++ "/" ++ b) "/" = [a; b].
Proof.
  intros (_ & _ & Ha)%plain_spec (_ & _ & Hb)%plain_spec.
  change (a ++ "/" ++ b)%string with (a ++ String "/" b)%string.
  by rewrite Split_app, Ha, Hb.
Qed.

(** X22: with the default path function a key with a separator cannot be
    stored in a store that is new.  For a key [a/b] the directory
    [root/id/a/b] is made, the file [root/id/a/b/a/b] cannot be created in
    it, as there is no directory [root/id/a/b/a]: [Write] fails with the
    not-exist error, it reads nothing, and the key is not in the store. *)
Theorem default_path_nested_key {R} `{io.Reader R} (fuel : nat) (s : Store) (fs : FS)
    (id a b : string) (r : R) :
  store_PathTransformFunc s = DefaultPathTransformFunc ->
  no_dotdot (strings.Split (store_Root s) "/") = true ->
  plain id = true -> plain a = true -> plain b = true ->
  let dir := clean (strings.Split (store_Root s) "/") ++ [id; a; b] in
  (forall p, p `prefix_of` dir ->
     os.entry fs p = None \/ os.entry fs p = Some (Dir true)) ->
  fs !! (dir ++ [a]) = None ->
  exists fs',
    Store.Write fuel s fs id (a ++ "/" ++ b) r
    = Some ((0, Some (PathError ENOENT)), fs', r)
    /\ os.entry fs' dir = Some (Dir true)
    /\ Store.Has s fs' id (a ++ "/" ++ b) = false.
Proof.
  intros Hs Hnd Hid Ha Hb dir Hway Hnone.
  set (root := strings.Split (store_Root s) "/") in *.
  assert (strings.Split (Sprintf3 (store_Root s) id (a ++ "/" ++ b)) "/"
          = root ++ [id; a; b]) as Hdsplit.
  { rewrite Split_Sprintf3, (Split_two a b Ha Hb).
    by destruct (plain_spec _ Hid) as (_ & _ & ->). }
  assert (strings.Split (Sprintf3 (store_Root s) id
                           (FullPath (DefaultPathTransformFunc (a ++ "/" ++ b)))) "/"
          = (root ++ [id; a; b; a]) ++ [b]) as Hfsplit.
  { rewrite Split_Sprintf3. unfold FullPath, DefaultPathTransformFunc. cbn [PathName Filename].
    change ((a ++ "/" ++ b) ++ "/" ++ a ++ "/" ++ b)%string
      with ((a ++ "/" ++ b) ++ String "/" (a ++ "/" ++ b))%string.
    rewrite Split_app, !(Split_two a b Ha Hb).
    destruct (plain_spec _ Hid) as (_ & _ & ->). by rewrite <- !app_assoc. }
  assert (no_dotdot (root ++ [id; a; b]) = true) as Hnd3.
  { rewrite no_dotdot_app, Hnd. cbn.
    destruct (plain_spec _ Hid) as (_ & -> & _). destruct (plain_spec _ Ha) as (_ & -> & _).
    by destruct (plain_spec _ Hb) as (_ & -> & _). }
  assert (clean (root ++ [id; a; b]) = dir) as Hclean.
  { rewrite clean_app. unfold dir. f_equal.
    by apply Forall_plain_clean; repeat constructor. }
  destruct (MkdirAll_free fs (Sprintf3 (store_Root s) id (a ++ "/" ++ b)))
    as (fs0 & Hmk & Hw0 & He0 & Hsame0).
  { apply Sprintf3_nonempty. }
  { by rewrite Hdsplit. }
  { rewrite Hdsplit, Hclean. exact Hway. }
  rewrite Hdsplit, Hclean in Hw0, He0, Hsame0.
  assert (fs0 !! (dir ++ [a]) = None) as Hnone0.
  { rewrite Hsame0; [done|]. intros Hp. apply prefix_length in Hp.
    rewrite length_app in Hp. simpl in Hp. lia. }
  assert (os.walk fs0 [] (root ++ [id; a; b; a]) = Err (PathError ENOENT)) as Hwalk.
  { replace (root ++ [id; a; b; a]) with ((root ++ [id; a; b]) ++ [a])
      by (by rewrite <- app_assoc).
    rewrite walk_app, Hw0, (walk_plain_cons _ _ _ _ Ha), He0, Hnone0. done. }
  exists fs0. split; [|split; [done|]].
  - unfold Store.Write, Store.writeStream, Store.openFileForWriting.
    rewrite Hs. cbn [DefaultPathTransformFunc PathName]. rewrite Hmk.
    unfold os.Create. rewrite Sprintf3_nonempty, Hfsplit, removelast_snoc, Hwalk. done.
  - unfold Store.Has. rewrite Hs. apply Is_ErrNotExist_false.
    unfold os.Stat, os.resolve. rewrite Sprintf3_nonempty, Hfsplit, walk_app, Hwalk. done.
Qed.

Lemma default_path_nested_key_witness :
  let s := NewStore {| Root := ""; PathTransformFunc := None |} in
  let dir := clean (strings.Split (store_Root s) "/") ++ ["node"; "pictures"; "cat.png"] in
  exists fs',
    Store.Write 5 s ∅ "node" ("pictures" ++ "/" ++ "cat.png") {| rest := some_bytes |}
    = Some ((0, Some (PathError ENOENT)), fs', {| rest := some_bytes |})
    /\ os.entry fs' dir = Some (Dir true)
    /\ Store.Has s fs' "node" ("pictures" ++ "/" ++ "cat.png") = false.
Proof.
  apply (default_path_nested_key 5 (NewStore {| Root := ""; PathTransformFunc := None |}) ∅
           "node" "pictures" "cat.png" {| rest := some_bytes |}).
  - reflexivity.
  - vm_compute; reflexivity.
  - vm_compute; reflexivity.
  - vm_compute; reflexivity.
  - vm_compute; reflexivity.
  - intros p _. destruct p; [by right|by left].
  - reflexivity.
Defined.

(** ** What [Write] and [Delete] leave alone *)

(** [Read] along the walk to the file of the key. *)
Lemma Read_by_walk (s : Store) (fs : FS) (id key : string) :
  is_cas s -> plain id = true ->
  Store.Read s fs id key
  = match os.walk fs [] (file_comps s id key) with
    | Err e => Err e
    | Ok p =>
        match os.entry fs p with
        | None => Err (PathError ENOENT)
        | Some n => Ok (os.Size (os.info n), {| os.Name := p |})
        end
    end.
Proof.
  intros Hs Hid. unfold Store.Read, Store.readStream, os.Open, os.resolve.
  rewrite Sprintf3_nonempty, (Split_full_path s id key Hs Hid).
  destruct (os.walk fs [] _) as [p|e]; [|done].
  destruct (os.entry fs p) as [n|] eqn:E; [|done].
  unfold os.File_Stat. cbn [os.Name]. by rewrite E.
Qed.

(** Two disks on which the walk to the file of a key and the file are the
    same give the same answers for the key. *)
Lemma same_walk_same_answers (s : Store) (fs fs' : FS) (id key : string) :
  is_cas s -> plain id = true ->
  os.walk fs' [] (file_comps s id key) = os.walk fs [] (file_comps s id key) ->
  (forall p, os.walk fs [] (file_comps s id key) = Ok p -> os.entry fs' p = os.entry fs p) ->
  Store.Has s fs' id key = Store.Has s fs id key
  /\ Store.Read s fs' id key = Store.Read s fs id key.
Proof.
  intros Hs Hid Hw He. split.
  - by rewrite !Has_walk, Hw.
  - rewrite !Read_by_walk, Hw by done.
    destruct (os.walk fs [] _) as [p|e]; [|done]. by rewrite (He p eq_refl).
Qed.

(** The way to the file of another namespace, or of a key of another shard,
    does not pass through the shard directory of a key. *)
Lemma other_shard_outside (s : Store) (id key id' key' : string) p :
  id' <> id \/ FirstPathName (CASPathTransformFunc key')
               <> FirstPathName (CASPathTransformFunc key) ->
  plain id' = true ->
  p `prefix_of` clean (file_comps s id' key') ->
  ~ (clean (strings.Split (store_Root s) "/")
       ++ [id; FirstPathName (CASPathTransformFunc key)]) `prefix_of` p.
Proof.
  intros Hne Hid' Hp HT.
  assert ((clean (strings.Split (store_Root s) "/")
             ++ [id; FirstPathName (CASPathTransformFunc key)])
          `prefix_of` clean (file_comps s id' key')) as H by (by etrans).
  rewrite file_comps_clean, cas_segments_first in H by done.
  apply prefix_app_inv in H. cbn [app] in H.
  pose proof (prefix_cons_inv_1 _ _ _ _ H) as E1.
  apply prefix_cons_inv_2 in H. apply prefix_cons_inv_1 in H.
  destruct Hne; congruence.
Qed.

(** X23: [Delete] removes nothing outside the shard directory of the key:
    whatever it returns, the keys of other namespaces and the keys whose
    digest starts with other 5 characters are found and read as before. *)
Theorem Delete_keeps_other_shards (s : Store) (fs : FS) (id key id' key' : string)
    fs' err :
  is_cas s ->
  plain id = true -> plain id' = true ->
  no_dotdot (strings.Split (store_Root s) "/") = true ->
  id' <> id \/ FirstPathName (CASPathTransformFunc key')
               <> FirstPathName (CASPathTransformFunc key) ->
  Store.Delete s fs id key = (fs', err) ->
  Store.Has s fs' id' key' = Store.Has s fs id' key'
  /\ Store.Read s fs' id' key' = Store.Read s fs id' key'.
Proof.
  intros Hs Hid Hid' Hnd Hne Hdel.
  assert (forall p, p `prefix_of` clean (file_comps s id' key') -> fs' !! p = fs !! p) as Hsame.
  { intros p Hp. pose proof (other_shard_outside s id key id' key' p Hne Hid' Hp) as Hout.
    revert Hdel. unfold Store.Delete, os.RemoveAll.
    rewrite Sprintf3_nonempty, (Split_shard_path s id key Hs Hid).
    pose proof (CAS_FirstPathName_plain key) as Hfirst.
    rewrite !app_assoc, last_snoc, (plain_not_dot _ Hfirst).
    rewrite strip_trailing_empty_snoc by (by apply plain_nonempty).
    destruct (os.walk fs [] _) as [t|e] eqn:Hw.
    - apply walk_position in Hw.
      2:{ rewrite !no_dotdot_app, Hnd, !plain_no_dotdot; done. }
      intros [= <- _]. apply remove_tree_outside. intros Ht. apply Hout.
      rewrite Hw, !clean_app, plain_clean, plain_clean in Ht by done.
      by rewrite <- app_assoc in Ht.
    - destruct e as [[]| | | | | | |]; by intros [= <- _]. }
  assert (forall p, p `prefix_of` clean (file_comps s id' key') ->
                    os.entry fs' p = os.entry fs p) as Hentry.
  { intros p Hp. destruct p as [|c p]; [done|]. cbn [os.entry]. by apply Hsame. }
  pose proof (file_comps_no_dotdot s id' key' Hnd Hid') as Hnd'.
  apply same_walk_same_answers; try done.
  - apply walk_frame; [done|]. intros p _ Hp. by apply Hentry.
  - intros p Hw. apply Hentry. by rewrite (walk_position _ _ _ _ Hnd' Hw).
Qed.

Lemma Delete_keeps_other_shards_witness :
  let s := casStore ":5000_network" in
  Store.Has s fs_after_delete "node" "picture_0.png"
  = Store.Has s fs_two_keys "node" "picture_0.png"
  /\ Store.Read s fs_after_delete "node" "picture_0.png"
     = Store.Read s fs_two_keys "node" "picture_0.png".
Proof.
  apply (Delete_keeps_other_shards (casStore ":5000_network") fs_two_keys
           "node" "picture_75.png" "node" "picture_0.png" fs_after_delete None).
  - reflexivity.
  - vm_compute; reflexivity.
  - vm_compute; reflexivity.
  - vm_compute; reflexivity.
  - right. vm_compute. discriminate.
  - vm_cast_no_check (@eq_refl _ (fs_after_delete, @None error)).
Defined.

(** The walk on a well-formed tree after directories were made along the
    way [D]: a walk that does not end on that way ends as before. *)
Lemma walk_in_new_dirs (fs fs' : FS) (D : path) comps :
  forall cur,
    fs_wf fs = true ->
    no_dotdot comps = true ->
    (forall p, p `prefix_of` cur ++ clean comps ->
       fs' !! p = fs !! p
       \/ (fs !! p = None /\ fs' !! p = Some (Dir true) /\ p `prefix_of` D)) ->
    ~ (cur ++ clean comps) `prefix_of` D ->
    cur <> [] -> fs !! cur = None -> fs' !! cur = Some (Dir true) ->
    os.walk fs' cur comps = Err (PathError ENOENT).
Proof.
  induction comps as [|c cs IH]; intros cur Hwf Hnd Hsame Hout Hcur Hnone Hnew.
  { destruct (Hsame cur) as [E|(_ & _ & Hp)]; [by rewrite app_nil_r|congruence|].
    destruct Hout. by rewrite app_nil_r. }
  cbn [no_dotdot forallb] in Hnd. apply andb_prop in Hnd as [Hc Hnd].
  apply negb_true_iff in Hc. change (forallb _ cs) with (no_dotdot cs) in Hnd.
  cbn [os.walk]. rewrite (entry_nonnil _ _ Hcur), Hnew.
  destruct (os.is_dot c) eqn:Hdot.
  { assert (clean (c :: cs) = clean cs) as E by (unfold clean; simpl; by rewrite Hdot).
    rewrite E in *. by apply IH. }
  assert (clean (c :: cs) = c :: clean cs) as E by (unfold clean; simpl; by rewrite Hdot).
  rewrite E in *. rewrite Hc.
  assert (fs !! (cur ++ [c]) = None) as Hnone'.
  { by apply wf_descendants. }
  destruct (Hsame (cur ++ [c])) as [E'|(_ & Hnew' & _)].
  { apply prefix_app, prefix_cons, prefix_nil. }
  { by rewrite E', Hnone'. }
  rewrite Hnew'. apply IH; try done.
  - intros p Hp. apply Hsame. by rewrite <- app_assoc in Hp.
  - by rewrite <- app_assoc.
  - by destruct cur.
Qed.

Lemma walk_past_new_dirs (fs fs' : FS) (D : path) comps :
  forall cur,
    fs_wf fs = true ->
    no_dotdot comps = true ->
    (forall p, p `prefix_of` cur ++ clean comps ->
       fs' !! p = fs !! p
       \/ (fs !! p = None /\ fs' !! p = Some (Dir true) /\ p `prefix_of` D)) ->
    ~ (cur ++ clean comps) `prefix_of` D ->
    os.entry fs' cur = os.entry fs cur ->
    os.walk fs' cur comps = os.walk fs cur comps.
Proof.
  induction comps as [|c cs IH]; intros cur Hwf Hnd Hsame Hout Hcur; [done|].
  cbn [no_dotdot forallb] in Hnd. apply andb_prop in Hnd as [Hc Hnd].
  apply negb_true_iff in Hc. change (forallb _ cs) with (no_dotdot cs) in Hnd.
  cbn [os.walk]. rewrite Hcur.
  destruct (os.entry fs cur) as [[|[]]|] eqn:Ecur; try done.
  destruct (os.is_dot c) eqn:Hdot.
  { assert (clean (c :: cs) = clean cs) as E by (unfold clean; simpl; by rewrite Hdot).
    rewrite E in *. apply IH; try done. congruence. }
  assert (clean (c :: cs) = c :: clean cs) as E by (unfold clean; simpl; by rewrite Hdot).
  rewrite E in *. rewrite Hc.
  assert (forall p, p `prefix_of` (cur ++ [c]) ++ clean cs ->
            fs' !! p = fs !! p
            \/ (fs !! p = None /\ fs' !! p = Some (Dir true) /\ p `prefix_of` D)) as Hsame'.
  { intros p Hp. apply Hsame. by rewrite <- app_assoc in Hp. }
  assert (~ ((cur ++ [c]) ++ clean cs) `prefix_of` D) as Hout' by (by rewrite <- app_assoc).
  destruct (Hsame (cur ++ [c])) as [E'|(Hnone & Hnew & _)].
  { apply prefix_app, prefix_cons, prefix_nil. }
  - rewrite E'. destruct (fs !! (cur ++ [c])) eqn:En; [|done].
    apply IH; try done. by rewrite !entry_app_cons, E'.
  - rewrite Hnone, Hnew.
    apply (walk_in_new_dirs fs fs' D cs (cur ++ [c])); try done. by destruct cur.
Qed.

(** What [Write] changes, whatever it returns: directories are made on the
    way to the file of the key, and the file is written. *)
Lemma Write_changes {R} `{io.Reader R} (fuel : nat) (s : Store) (fs : FS)
    (id key : string) (r : R) res fs' r' :
  is_cas s -> plain id = true ->
  no_dotdot (strings.Split (store_Root s) "/") = true ->
  Store.Write fuel s fs id key r = Some (res, fs', r') ->
  let D := clean (strings.Split (store_Root s) "/" ++ [id] ++ cas_segments key) in
  forall p, p <> D ++ [Filename (CASPathTransformFunc key)] ->
    fs' !! p = fs !! p
    \/ (fs !! p = None /\ fs' !! p = Some (Dir true) /\ p `prefix_of` D).
Proof.
  intros Hs Hid Hnd Hwr D p Hp.
  pose proof (dir_comps_no_dotdot s id key Hnd Hid) as Hnd'.
  pose proof (Split_full_path s id key Hs Hid) as Hfsplit.
  rewrite file_comps_snoc in Hfsplit.
  unfold Store.Write, Store.writeStream, Store.openFileForWriting in Hwr.
  destruct (os.MkdirAll fs _) as [fs1 e] eqn:Hmk.
  assert (fs1 !! p = fs !! p
          \/ (fs !! p = None /\ fs1 !! p = Some (Dir true) /\ p `prefix_of` D)) as H1.
  { apply MkdirAll_cases in Hmk as [->|[r1 Hmk]]; [by left|].
    rewrite (Split_dir_path s id key Hs Hid) in Hmk.
    destruct (mkdir_walk_changes _ _ _ _ _ p Hnd' Hmk) as [E|(E1 & E2 & k & _ & ->)];
      [by left|right].
    repeat split; try done. cbn [app]. apply prefix_take. }
  destruct e as [e|]; [by injection Hwr as _ <- _|].
  destruct (os.Create fs1 _) as [fs2 [f|e]] eqn:Hcr.
  - destruct (Create_changes _ _ _ _ _ _ Hfsplit Hnd' (CAS_Filename_plain key) Hcr)
      as [Hsame Hname].
    destruct (io.Copy fuel (fs2, f) r) as [[[res' [fs3 f3]] r3]|] eqn:Hcopy; [|done].
    injection Hwr as _ <- _. unfold io.Copy in Hcopy.
    rewrite (Copy_file_frame _ _ _ _ _ _ _ _ _ p Hcopy) by (by rewrite (Hname f eq_refl)).
    by rewrite Hsame.
  - destruct (Create_changes _ _ _ _ _ _ Hfsplit Hnd' (CAS_Filename_plain key) Hcr)
      as [Hsame _].
    injection Hwr as _ <- _. by rewrite Hsame.
Qed.

(** X24: [Write] of a key leaves the other keys alone.  On a well-formed
    tree, whatever [Write] returns, a key of another namespace or with
    another SHA-1 digest is found and read as before. *)
Theorem Write_keeps_other_keys {R} `{io.Reader R} (fuel : nat) (s : Store) (fs : FS)
    (id key id' key' : string) (r : R) res fs' r' :
  is_cas s ->
  plain id = true -> plain id' = true ->
  no_dotdot (strings.Split (store_Root s) "/") = true ->
  fs_wf fs = true ->
  id' <> id \/ sha1.Sum (bytes_of_string key') <> sha1.Sum (bytes_of_string key) ->
  Store.Write fuel s fs id key r = Some (res, fs', r') ->
  Store.Has s fs' id' key' = Store.Has s fs id' key'
  /\ Store.Read s fs' id' key' = Store.Read s fs id' key'.
Proof.
  intros Hs Hid Hid' Hnd Hwf Hne Hwr.
  pose proof (Write_changes fuel s fs id key r res fs' r' Hs Hid Hnd Hwr) as Hch.
  cbn zeta in Hch.
  set (D := clean (strings.Split (store_Root s) "/" ++ [id] ++ cas_segments key)) in *.
  set (T := D ++ [Filename (CASPathTransformFunc key)]) in *.
  set (P := clean (file_comps s id' key')).
  pose proof (file_comps_no_dotdot s id' key' Hnd Hid') as Hnd'.
  assert (length D = (length (clean (strings.Split (store_Root s) "/")) + 9)%nat) as HlenD.
  { unfold D. rewrite !clean_app, (plain_clean _ Hid).
    rewrite (Forall_plain_clean _ (cas_segments_plain key)), !length_app.
    destruct (cas_segments_spec key) as (-> & _). simpl. lia. }
  assert (length P = (length (clean (strings.Split (store_Root s) "/")) + 10)%nat) as HlenP.
  { unfold P. rewrite file_comps_clean by done. rewrite length_app. cbn [length].
    rewrite length_app. destruct (cas_segments_spec key') as (-> & _). simpl. lia. }
  assert (T <> P) as HTP.
  { unfold T, P, D. rewrite file_comps_clean by done.
    rewrite !clean_app, (plain_clean _ Hid), (Forall_plain_clean _ (cas_segments_plain key)).
    rewrite <- !app_assoc. cbn [app]. intros E. apply app_inv_head in E.
    pose proof (f_equal (hd "") E) as E1. cbn [hd] in E1.
    rewrite !app_comm_cons in E.
    pose proof (f_equal (fun l => List.last l "") E) as E3. cbn beta in E3.
    rewrite !last_snoc in E3.
    apply EncodeToString_inj in E3; [|apply sha1_Sum_is_byte..].
    destruct Hne; congruence. }
  assert (forall p, p `prefix_of` P -> p <> T) as HnotT.
  { intros p Hp ->. apply HTP. apply prefix_length_eq; [done|].
    unfold T. rewrite length_app. simpl. lia. }
  assert (os.walk fs' [] (file_comps s id' key') = os.walk fs [] (file_comps s id' key'))
    as Hwalk.
  { apply (walk_past_new_dirs fs fs' D); try done.
    - intros p Hp. apply Hch. by apply HnotT.
    - cbn [app]. fold P. intros Hp. apply prefix_length in Hp. lia. }
  apply same_walk_same_answers; try done.
  intros p Hw. pose proof (walk_position _ _ _ _ Hnd' Hw) as Hp. cbn [app] in Hp.
  rewrite file_comps_snoc in Hw.
  destruct (walk_last_plain _ _ _ _ _ (CAS_Filename_plain key') Hw) as [Hne' [n Hn]].
  rewrite !(entry_nonnil _ _ Hne').
  destruct (Hch p) as [E|(E & _)]; [|done|congruence].
  apply HnotT. by rewrite Hp.
Qed.

Lemma Write_keeps_other_keys_witness :
  let s := casStore ":5000_network" in
  Store.Has s fs_after_write "node" "picture_1.png" = Store.Has s ∅ "node" "picture_1.png"
  /\ Store.Read s fs_after_write "node" "picture_1.png"
     = Store.Read s ∅ "node" "picture_1.png".
Proof.
  apply (Write_keeps_other_keys 5 (casStore ":5000_network") ∅ "node" "picture_0.png"
           "node" "picture_1.png" {| rest := some_bytes |} (22, None) fs_after_write
           {| rest := [] |}).
  - reflexivity.
  - vm_compute; reflexivity.
  - vm_compute; reflexivity.
  - vm_compute; reflexivity.
  - vm_compute; reflexivity.
  - right. vm_compute. discriminate.
  - vm_cast_no_check (@eq_refl _ (Some ((22, @None error), fs_after_write, {| rest := [] |}))).
Defined.

(** ** [copyStream] and the sizes of the reads *)

(** X25: [copyStream] does not depend on how its input is cut into reads.
    From a connection that delivers its bytes in any pieces and then ends,
    it writes the bytes xored with the key stream, which it takes up, piece
    after piece, where the piece before has left it; it returns the number
    of bytes added to its start value. *)
Theorem copyStream_any_deliveries (fuel : nat) :
  forall (nw : Z) (stream : cipher.CTR) (c : Conn) (out : bytes),
    Forall (fun chunk => chunk <> []) (incoming c) ->
    read_err c = EOF ->
    (length (concat (incoming c)) < fuel)%nat ->
    exists c',
      copyStream_from fuel nw stream c {| unread := out |}
      = Some ((nw + Z.of_nat (length (concat (incoming c))), None), c',
              {| unread := out ++ cipher.xor_from stream (cipher.pos stream)
                                    (concat (incoming c)) |})
      /\ incoming c' = [].
Proof.
  induction fuel as [|fuel IH]; intros nw stream c out Hne Heof Hfuel; [lia|].
  cbn [copyStream_from]. pose proof buffer_size_pos as Hn.
  revert Hn. generalize (32 * 1024)%nat. intros n Hn.
  unfold io.Read at 1. unfold Conn_Reader at 1.
  destruct (incoming c) as [|chunk more] eqn:Hinc.
  { rewrite Heof. cbn. exists c. by rewrite Z.add_0_r, app_nil_r. }
  apply Forall_cons in Hne as [Hchunk Hmore].
  assert (0 < length chunk)%nat as Hpos by (destruct chunk; [done|simpl; lia]).
  cbn [concat] in *. rewrite length_app in Hfuel.
  assert (exists buf rest,
            (if (length chunk <=? n)%nat
             then ((chunk, @None error), Conn_with_incoming c more)
             else ((take n chunk, None), Conn_with_incoming c (drop n chunk :: more)))
            = ((buf, None), Conn_with_incoming c rest)
            /\ chunk ++ concat more = buf ++ concat rest
            /\ (0 < length buf)%nat
            /\ Forall (fun chunk => chunk <> []) rest)
    as (buf & rest & -> & Hcat & Hbuf & Hrest).
  { destruct (length chunk <=? n)%nat eqn:Hle.
    - by exists chunk, more.
    - apply Nat.leb_gt in Hle. exists (take n chunk), (drop n chunk :: more).
      split; [done|]. split; [cbn [concat]; by rewrite app_assoc, take_drop|].
      split; [rewrite length_take; lia|].
      constructor; [|done]. intros E. apply (f_equal (@length _)) in E.
      rewrite length_drop in E. simpl in E. lia. }
  rewrite (proj2 (Nat.ltb_lt _ _) Hbuf).
  unfold cipher.XORKeyStream. unfold io.Write at 1. unfold bytes_Buffer_Writer at 1.
  cbn [unread].
  destruct (IH (nw + Z.of_nat (length (cipher.xor_from stream (cipher.pos stream) buf)))
              {| cipher.block := cipher.block stream; cipher.iv := cipher.iv stream;
                 cipher.pos := (cipher.pos stream + length buf)%nat |}
              (Conn_with_incoming c rest)
              (out ++ cipher.xor_from stream (cipher.pos stream) buf))
    as (c' & Hrun & Hc'); try done.
  { cbn [incoming Conn_with_incoming].
    apply (f_equal (@length _)) in Hcat. rewrite !length_app in Hcat. lia. }
  exists c'. split; [|done]. rewrite Hrun. cbn [incoming Conn_with_incoming cipher.pos].
  rewrite Hcat, xor_from_app, xor_from_length, length_app, <- app_assoc.
  rewrite (xor_from_same_keystream stream (cipher.Build_CTR _ _ _)) by done.
  by rewrite Nat2Z.inj_add, Z.add_assoc.
Qed.

Lemma copyStream_any_deliveries_witness :
  let stream := cipher.NewCTR {| aes.Encrypt := @aes_encryptBlock fips197 test_key |}
                              test_rand in
  let c := Conn_with_incoming (example_conn ":4000" []) [[10; 20]; [30]] in
  exists c',
    copyStream_from 4 16 stream c {| unread := [] |}
    = Some ((16 + Z.of_nat (length (concat (incoming c))), None), c',
            {| unread := [] ++ cipher.xor_from stream (cipher.pos stream)
                                (concat (incoming c)) |})
    /\ incoming c' = [].
Proof.
  apply (copyStream_any_deliveries 4 16
           (cipher.NewCTR {| aes.Encrypt := @aes_encryptBlock fips197 test_key |} test_rand)
           (Conn_with_incoming (example_conn ":4000" []) [[10; 20]; [30]]) []).
  - repeat constructor; discriminate.
  - reflexivity.
  - simpl; lia.
Defined.
